(** * Vacon signaling server: session registry and relay loop

    A shallow embedding of [handle_websocket] (signaling-server.py).  The
    coroutine is cut at its three [await] expressions: every transition of
    the model runs one handler from a suspension point to the next one (or
    to the end of its [finally] block), which is the unit of atomicity the
    asyncio event loop gives the code. *)

From stdpp Require Import gmap strings list fin_maps.

(** ** Strings: [startswith], [partition], [json.dumps] *)

Module Str.

(** [strip_prefix p s] is [Some r] exactly when [s = p ++ r]. *)
Fixpoint strip_prefix (p s : string) : option string :=
  match p, s with
  | EmptyString, _ => Some s
  | String a p', String b s' =>
      if Ascii.eqb a b then strip_prefix p' s' else None
  | String _ _, EmptyString => None
  end.

(** [s.startswith(p)] *)
Definition startswith (s p : string) : bool :=
  match strip_prefix p s with Some _ => true | None => false end.

(** Leftmost occurrence of [sep] in [s]: the text before it and after it. *)
Fixpoint find_split (sep s : string) : option (string * string) :=
  match strip_prefix sep s with
  | Some rest => Some (EmptyString, rest)
  | None =>
      match s with
      | EmptyString => None
      | String c s' =>
          match find_split sep s' with
          | Some (before, after) => Some (String c before, after)
          | None => None
          end
      end
  end.

(** [s.partition(sep)]: split at the first occurrence of [sep]; when
    [sep] does not occur the result is [(s, '', '')]. *)
Definition partition (s sep : string) : string * string * string :=
  match find_split sep s with
  | Some (before, after) => (before, sep, after)
  | None => (s, EmptyString, EmptyString)
  end.

(** [t[-1]] of a 3-tuple *)
Definition last3 (t : string * string * string) : string := snd t.

Definition dquote : Ascii.ascii := Ascii.ascii_of_nat 34.

Definition quoted (s : string) : string :=
  String dquote (s +:+ String dquote EmptyString).

Fixpoint join (sep : string) (l : list string) : string :=
  match l with
  | [] => EmptyString
  | [x] => x
  | x :: l' => x +:+ sep +:+ join sep l'
  end.

(** [json.dumps] of a flat dict whose keys and values are strings that
    need no escaping, with the default separators [', '] and [': ']. *)
Definition json_dumps (d : list (string * string)) : string :=
  "{" +:+ join ", " (map (fun kv => quoted (fst kv) +:+ ": " +:+ quoted (snd kv)) d) +:+ "}".

End Str.

(** ** Data *)

(** A websocket object; compared by identity. *)
Abbreviation conn := nat.

(** The address of a session dict on the Python heap. *)
Abbreviation loc := nat.

(** [{ "peers": [...], "started": ... }] *)
Record session := Session { peers : list conn; started : bool }.

(** The module-level dict [sessions] together with the session dicts it
    (or a handler's local variable [session]) refers to. *)
Record registry := Registry {
  sessions : gmap string loc;
  heap : list session;
}.

(** Exceptions a suspended [recv] or [send] can be resumed with. *)
Inductive exn :=
| ConnectionClosedError
| ConnectionClosedOK
| OtherException
| CancelledError.

(** How a handler came to its [finally] block. *)
Inductive cause :=
| Returned                (* line 30 *)
| Raised (e : exn)        (* out of an await *)
| NoneSubscript.          (* line 42: [session] is [None] *)

(** Where a handler is suspended. *)
Inductive pc :=
| AwaitStartSend (s : loc)                         (* line 47 *)
| AwaitRecv (s : loc)                              (* line 48 *)
| AwaitPeerSend (s : loc) (data : string) (i : nat) (* line 54; [i] is the list iterator's index *)
| Done (c : cause).

(** The locals that are set once: [path] and [session_id]. *)
Record frame := Frame {
  f_path : string;
  f_session_id : option string;     (* [None] until line 31 *)
}.

Record handler := Handler {
  h_frame : frame;
  h_pc : pc;
}.

Inductive site := StartSignal | Relay.

Inductive event :=
| EvJoin (ws : conn) (sid : string) (created : bool)      (* line 36 or line 38 *)
| EvSend (k : site) (sender to : conn) (data : string)    (* line 47 or line 54 *)
| EvRecv (ws : conn) (data : string).                     (* line 48 *)

Record state := State {
  reg : registry;
  handlers : gmap conn handler;
  trace : list event;
}.

Definition init : state := State (Registry ∅ []) ∅ [].

(** What starts a handler, or resumes a suspended one. *)
Inductive label :=
| Connect (ws : conn) (path : string)
| SendDone (ws : conn) (r : option exn)
| Recv (ws : conn) (r : string + exn).

(** ** The handler *)

Definition url_prefix : string := "/v1/ooo/".

Definition start_session_text : string :=
  Str.json_dumps [("type", "start_session")].

(** [l.remove(x)]: drops the first occurrence. *)
Fixpoint remove_first (x : conn) (l : list conn) : list conn :=
  match l with
  | [] => []
  | y :: l' => if decide (y = x) then l' else y :: remove_first x l'
  end.

Definition set_session (l : loc) (o : session) (R : registry) : registry :=
  Registry (sessions R) (<[l := o]> (heap R)).

(** Lines 35-38. The second component tells which branch ran. *)
Definition join (sid : string) (ws : conn) (R : registry) : option (registry * bool) :=
  match sessions R !! sid with
  | None =>
      Some (Registry (<[sid := length (heap R)]> (sessions R))
                     (heap R ++ [Session [ws] false]), true)
  | Some l =>
      o ← heap R !! l;
      Some (set_session l (Session (peers o ++ [ws]) (started o)) R, false)
  end.

(** Lines 41-48, up to the first await. *)
Inductive top :=
| TopNone                                        (* [sessions.get] gave [None] *)
| TopStart (s : loc) (first_peer : conn) (R : registry)
| TopRecv (s : loc).

Definition loop_top (session_id : option string) (R : registry) : option top :=
  match session_id ≫= (sessions R !!.) with
  | None => Some TopNone
  | Some l =>
      o ← heap R !! l;
      if (2 <=? length (peers o)) && negb (started o) then
        first_peer ← peers o !! 0;
        Some (TopStart l first_peer (set_session l (Session (peers o) true) R))
      else Some (TopRecv l)
  end.

(** [if session_id:] *)
Definition truthy (session_id : option string) : bool :=
  match session_id with
  | Some sid => negb (String.eqb sid "")
  | None => false
  end.

(** Lines 62-69. *)
Definition leave (session_id : option string) (ws : conn) (R : registry) : option registry :=
  match session_id with
  | Some sid =>
      if truthy session_id then
        match sessions R !! sid with
        | Some l =>
            o ← heap R !! l;
            let R1 := if bool_decide (ws ∈ peers o)
                      then set_session l (Session (remove_first ws (peers o)) (started o)) R
                      else R in
            o1 ← heap R1 !! l;
            if length (peers o1) =? 0
            then Some (Registry (delete sid (sessions R1)) (heap R1))
            else Some R1
        | None => Some R
        end
      else Some R
  | None => Some R
  end.

(** The list iterator of line 51 with the test of line 52: the first peer
    at index [i] or later that is not [ws], and the index after it. *)
Fixpoint scan (ws : conn) (l : list conn) (i : nat) : option (conn * nat) :=
  match l with
  | [] => None
  | p :: l' => if decide (p = ws) then scan ws l' (S i) else Some (p, S i)
  end.

Definition next_peer (ws : conn) (ps : list conn) (i : nat) : option (conn * nat) :=
  scan ws (drop i ps) i.

Definition set_pc (ws : conn) (f : frame) (p : pc) (hs : gmap conn handler) : gmap conn handler :=
  <[ws := Handler f p]> hs.

(** A return or an exception: the [finally] block, then the end. *)
Definition terminate (ws : conn) (f : frame) (c : cause) (st : state) : option state :=
  R ← leave (f_session_id f) ws (reg st);
  Some (State R (set_pc ws f (Done c) (handlers st)) (trace st)).

(** Line 41 to the next await. *)
Definition enter_loop (ws : conn) (f : frame) (st : state) : option state :=
  t ← loop_top (f_session_id f) (reg st);
  match t with
  | TopNone => terminate ws f NoneSubscript st
  | TopStart l first_peer R =>
      Some (State R (set_pc ws f (AwaitStartSend l) (handlers st))
                  (trace st ++ [EvSend StartSignal ws first_peer start_session_text]))
  | TopRecv l =>
      Some (State (reg st) (set_pc ws f (AwaitRecv l) (handlers st)) (trace st))
  end.

(** Lines 51-54 from iterator index [i], then back to line 41. *)
Definition relay (ws : conn) (f : frame) (l : loc) (data : string) (i : nat)
    (st : state) : option state :=
  o ← heap (reg st) !! l;
  match next_peer ws (peers o) i with
  | Some (peer, i') =>
      Some (State (reg st) (set_pc ws f (AwaitPeerSend l data i') (handlers st))
                  (trace st ++ [EvSend Relay ws peer data]))
  | None => enter_loop ws f st
  end.

(** Lines 27-38, then the loop. *)
Definition connect (ws : conn) (path : string) (st : state) : option state :=
  if negb (Str.startswith path url_prefix) then
    terminate ws (Frame path None) Returned st
  else
    let sid := Str.last3 (Str.partition path url_prefix) in
    '(R, created) ← join sid ws (reg st);
    enter_loop ws (Frame path (Some sid))
      (State R (handlers st) (trace st ++ [EvJoin ws sid created])).

Definition step (st : state) (lbl : label) : option state :=
  match lbl with
  | Connect ws path =>
      match handlers st !! ws with
      | Some _ => None
      | None => connect ws path st
      end
  | SendDone ws r =>
      h ← handlers st !! ws;
      match h_pc h, r with
      | AwaitStartSend l, None =>
          Some (State (reg st) (set_pc ws (h_frame h) (AwaitRecv l) (handlers st)) (trace st))
      | AwaitPeerSend l data i, None => relay ws (h_frame h) l data i st
      | AwaitStartSend _, Some e | AwaitPeerSend _ _ _, Some e =>
          terminate ws (h_frame h) (Raised e) st
      | _, _ => None
      end
  | Recv ws r =>
      h ← handlers st !! ws;
      match h_pc h, r with
      | AwaitRecv l, inl data =>
          relay ws (h_frame h) l data 0
            (State (reg st) (handlers st) (trace st ++ [EvRecv ws data]))
      | AwaitRecv _, inr e => terminate ws (h_frame h) (Raised e) st
      | _, _ => None
      end
  end.

Fixpoint run (ls : list label) (st : state) : option state :=
  match ls with
  | [] => Some st
  | lbl :: ls' => st' ← step st lbl; run ls' st'
  end.

Inductive reachable : state → Prop :=
| reachable_init : reachable init
| reachable_step st lbl st' :
    reachable st → step st lbl = Some st' → reachable st'.

(** ** Vocabulary of the statements *)

(** The session dict a key of [sessions] refers to. *)
Definition session_at (R : registry) (sid : string) : option session :=
  sessions R !! sid ≫= (heap R !!.).

(** The local variable [session] of a handler that is inside [while True]. *)
Definition in_loop (p : pc) : option loc :=
  match p with
  | AwaitStartSend l | AwaitRecv l | AwaitPeerSend l _ _ => Some l
  | Done _ => None
  end.

(** The connections an event mentions. *)
Definition conns_of (e : event) : list conn :=
  match e with
  | EvJoin ws _ _ => [ws]
  | EvSend _ a b _ => [a; b]
  | EvRecv ws _ => [ws]
  end.

(** The peers a broadcast by [ws] addresses when nothing interferes. *)
Definition others (ws : conn) (ps : list conn) : list conn :=
  filter (λ p, p ≠ ws) ps.

(** No registered session has an empty peer list. *)
Definition no_empty_session (R : registry) : Prop :=
  ∀ sid o, session_at R sid = Some o → 0 < length (peers o).

(** The state after a scripted run from the empty server. *)
Definition exec (ls : list label) : state := default init (run ls init).

(** The connection whose handler a label starts or resumes. *)
Definition label_conn (lbl : label) : conn :=
  match lbl with
  | Connect ws _ | SendDone ws _ | Recv ws _ => ws
  end.

(** The message [ws] received last, going by the trace. *)
Fixpoint last_recv (ws : conn) (tr : list event) : option string :=
  match tr with
  | [] => None
  | e :: tr' =>
      match last_recv ws tr' with
      | Some d => Some d
      | None =>
          match e with
          | EvRecv a d => if decide (a = ws) then Some d else None
          | _ => None
          end
      end
  end.

(** The connections that joined session [sid], in the order they did. *)
Definition joiners (sid : string) (tr : list event) : list conn :=
  omap (λ e, match e with
             | EvJoin c s _ => if decide (s = sid) then Some c else None
             | _ => None
             end) tr.

(** ** A broadcast among the steps of other handlers *)

(** [a] is suspended in a send of its [for] loop (line 53). *)
Definition sending (a : conn) (st : state) : bool :=
  match handlers st !! a with
  | Some h =>
      match h_pc h with
      | AwaitPeerSend _ _ _ => true
      | _ => false
      end
  | None => false
  end.

(** The connection whose handler a label resumes with an exception. *)
Definition exit_of (lbl : label) : option conn :=
  match lbl with
  | Recv b (inr _) | SendDone b (Some _) => Some b
  | _ => None
  end.

(** [lbl] makes a send of [a] fail. *)
Definition fails (a : conn) (lbl : label) : bool :=
  match lbl with
  | SendDone b (Some _) => bool_decide (b = a)
  | _ => false
  end.

(** [lbl] makes the list iterator of [a] step over a peer of [ps0]: [a] is
    in its [for] loop with the iterator at index [i]; [lbl] ends the
    handler of a connection [b] that is in the same list before index [i]
    and that line 66 is going to remove (its session id is not empty); and
    index [i] holds a peer of [ps0] other than [a]. The removal moves that
    peer to index [i - 1], which the iterator has left behind. *)
Definition skips (a : conn) (ps0 : list conn) (st : state) (lbl : label) : bool :=
  match handlers st !! a, exit_of lbl with
  | Some h, Some b =>
      match h_pc h, handlers st !! b with
      | AwaitPeerSend l _ i, Some hb =>
          match heap (reg st) !! l with
          | Some o =>
              negb (bool_decide (f_session_id (h_frame hb) = Some "")) &&
              bool_decide (b ∈ take i (peers o)) &&
              match peers o !! i with
              | Some p => bool_decide (p ≠ a) && bool_decide (p ∈ ps0)
              | None => false
              end
          | None => false
          end
      | _, _ => false
      end
  | _, _ => false
  end.

(** The run [ls] from [st] leaves the [for] loop that [a] is in alone: up
    to the step that takes [a] out of the loop, no send of [a] fails and
    no step makes its iterator step over a peer of [ps0]. Whatever else
    the labels do (other sessions, joins, departures that are not before
    the iterator, departures when no peer of [ps0] is next) is allowed,
    and so is everything that comes after the loop. *)
Fixpoint undisturbed (a : conn) (ps0 : list conn) (ls : list label) (st : state) : bool :=
  match ls with
  | [] => true
  | lbl :: ls' =>
      if sending a st then
        negb (fails a lbl) && negb (skips a ps0 st lbl) &&
        match step st lbl with
        | Some st' => undisturbed a ps0 ls' st'
        | None => true
        end
      else true
  end.

(** The trace has a relayed send of [d] by [a] to [p] at index [n] or
    later. *)
Definition sent_since (n : nat) (a p : conn) (d : string) (st : state) : Prop :=
  ∃ j, n ≤ j ∧ trace st !! j = Some (EvSend Relay a p d).

(** [a] is in the [for] loop over the list of dict [l], relaying [d], and
    its iterator has yet to come to [p]. *)
Definition ahead (a : conn) (l : loc) (d : string) (p : conn) (st : state) : Prop :=
  ∃ h i o k, handlers st !! a = Some h ∧ h_pc h = AwaitPeerSend l d i ∧
    heap (reg st) !! l = Some o ∧ i ≤ k ∧ peers o !! k = Some p.

(** Every peer of [ps0] other than [a] that is in the list of dict [l] has
    been sent [d] by [a] since trace index [n]. *)
Definition all_sent (n : nat) (a : conn) (l : loc) (d : string) (ps0 : list conn)
    (st : state) : Prop :=
  ∀ p o, heap (reg st) !! l = Some o → p ∈ ps0 → p ≠ a → p ∈ peers o →
    sent_since n a p d st.

(** The same while the loop is on: sent already, or still to come. *)
Definition in_progress (n : nat) (a : conn) (l : loc) (d : string) (ps0 : list conn)
    (st : state) : Prop :=
  sending a st = true ∧
  ∀ p o, heap (reg st) !! l = Some o → p ∈ ps0 → p ≠ a → p ∈ peers o →
    sent_since n a p d st ∨ ahead a l d p st.

(** ** [main]: the listening endpoint *)

Module Main.

(** [c in s] for a one-character [c] *)
Fixpoint contains (c : Ascii.ascii) (s : string) : bool :=
  match s with
  | EmptyString => false
  | String a s' => Ascii.eqb a c || contains c s'
  end.

(** [s.rsplit(c, 1)] when it has two parts: the text before the last [c]
    and the text after it; [None] when [c] does not occur (the result is
    then the one-element list [[s]]). *)
Fixpoint rsplit1 (c : Ascii.ascii) (s : string) : option (string * string) :=
  match s with
  | EmptyString => None
  | String a s' =>
      match rsplit1 c s' with
      | Some (before, after) => Some (String a before, after)
      | None => if Ascii.eqb a c then Some (EmptyString, s') else None
      end
  end.

Definition colon : Ascii.ascii := Ascii.ascii_of_nat 58.

(** Line 73: [sys.argv[1] if len(sys.argv) > 1 else "8000"]; the list has
    an element at index 1 exactly when its length is above 1. *)
Definition endpoint_or_port (argv : list string) : string :=
  match argv !! 1 with
  | Some a => a
  | None => "8000"
  end.

(** Line 74: [sys.argv[2] if len(sys.argv) > 2 else None]. *)
Definition ssl_cert (argv : list string) : option string := argv !! 2.

(** Line 76. *)
Definition endpoint (argv : list string) : string :=
  let e := endpoint_or_port argv in
  if contains colon e then e else "127.0.0.1:" +:+ e.

(** What [main] calls outside the program before line 85, and may raise
    there: [load_cert_chain cert] tells whether lines 79-80 (the [ssl]
    module) go through for the file [cert], and [print_text text] whether the
    [print] of line 84 does. *)
Record env : Type := Env {
  load_cert_chain : string → bool;
  print_text : string → bool;
}.

(** Lines 78-82. When lines 79-80 raise the result is [None]; otherwise
    it is the context, which is modelled by the certificate it holds, or
    Python's [None] when [ssl_cert] is not truthy. *)
Definition ssl_context (E : env) (argv : list string) : option (option string) :=
  if truthy (ssl_cert argv) then
    match ssl_cert argv with
    | Some cert => if load_cert_chain E cert then Some (Some cert) else None
    | None => Some None
    end
  else Some None.

(** Line 84: the text printed. *)
Definition listening (argv : list string) : string :=
  "Listening on " +:+ endpoint argv.

(** How lines 73-85 end: with the exception of lines 79-80, with one of
    line 84, with the [ValueError] of unpacking a one-element list at line
    85, or with [host], [port] and [ssl_context] bound. *)
Inductive outcome : Type :=
| SslError
| PrintError
| UnpackError
| Unpacked (host port : string) (ssl_context : option string).

(** Lines 73-85 of [main]; line 85 is
    [host, port = endpoint.rsplit(':', 1)]. What follows ([int(port)],
    [websockets.serve]) is not modelled. *)
Definition main (E : env) (argv : list string) : outcome :=
  let endpoint := endpoint argv in
  match ssl_context E argv with
  | None => SslError
  | Some ssl_context =>
      if print_text E (listening argv) then
        match rsplit1 colon endpoint with
        | Some (host, port) => Unpacked host port ssl_context
        | None => UnpackError
        end
      else PrintError
  end.

End Main.

(** ** The stopwatch: how the elapsed time is laid out *)

Module Stopwatch.

(** [[*t]]: the characters of [t], each a string *)
Definition chars (t : string) : list string :=
  map (λ c, String c EmptyString) (String.list_ascii_of_string t).

Definition space : Ascii.ascii := Ascii.ascii_of_nat 32.

(** Line 33: [' '.join([*t])] *)
Definition spaced (t : string) : string := Str.join " " (chars t).

End Stopwatch.

(** ** Further invariants of the trace *)

(** The two facts that travel together: a handler in the middle of a
    broadcast is sending what it received last, and so was every relayed
    send of the past. *)
Definition relays_latest (st : state) : Prop :=
  (∀ ws h l d i,
     handlers st !! ws = Some h → h_pc h = AwaitPeerSend l d i →
     last_recv ws (trace st) = Some d) ∧
  (∀ i a b d,
     trace st !! i = Some (EvSend Relay a b d) →
     last_recv a (take i (trace st)) = Some d).

(** A peer of a session that has not started has not been sent a start
    signal; and no two start signals share a sender or a target. *)
Definition starts_once (st : state) : Prop :=
  (∀ sid o c a d,
     session_at (reg st) sid = Some o → started o = false → c ∈ peers o →
     EvSend StartSignal a c d ∉ trace st) ∧
  (∀ i j a b d a' b' d',
     trace st !! i = Some (EvSend StartSignal a b d) →
     trace st !! j = Some (EvSend StartSignal a' b' d') →
     a = a' ∨ b = b' → i = j).

(** A peer list is a subsequence of the joins of its session id, and no
    connection is among them twice. *)
Definition join_ordered (st : state) : Prop :=
  (∀ sid o, session_at (reg st) sid = Some o →
            peers o `sublist_of` joiners sid (trace st)) ∧
  (∀ sid, NoDup (joiners sid (trace st))).

(** A handler without a session id is one that returned at line 30, and
    whatever the trace mentions belongs to a handler with a session id. *)
Definition joined_only (st : state) : Prop :=
  (∀ ws h, handlers st !! ws = Some h → f_session_id (h_frame h) = None →
     h_pc h = Done Returned ∧
     Str.startswith (f_path (h_frame h)) url_prefix = false) ∧
  (∀ e c, e ∈ trace st → c ∈ conns_of e →
     ∃ h, handlers st !! c = Some h ∧ is_Some (f_session_id (h_frame h))).

(** ** The invariant *)

(** What holds of the registry whenever no handler is running. *)
Record wf_registry (R : registry) : Prop := {
  wf_alloc : ∀ sid l, sessions R !! sid = Some l → is_Some (heap R !! l);
  wf_inj : ∀ s1 s2 l,
    sessions R !! s1 = Some l → sessions R !! s2 = Some l → s1 = s2;
  wf_nonempty : ∀ sid l o,
    sessions R !! sid = Some l → heap R !! l = Some o → peers o ≠ [];
  wf_nodup : ∀ sid l o,
    sessions R !! sid = Some l → heap R !! l = Some o → NoDup (peers o);
  wf_unstarted : ∀ sid l o,
    sessions R !! sid = Some l → heap R !! l = Some o →
    started o = false → length (peers o) = 1;
}.

(** How the handlers' locals relate to the registry. *)
Record coherent (st : state) : Prop := {
  coh_loop : ∀ ws h l,
    handlers st !! ws = Some h → in_loop (h_pc h) = Some l →
    ∃ sid o, f_session_id (h_frame h) = Some sid ∧
             sessions (reg st) !! sid = Some l ∧
             heap (reg st) !! l = Some o ∧ ws ∈ peers o;
  coh_peer : ∀ sid l o ws,
    sessions (reg st) !! sid = Some l → heap (reg st) !! l = Some o →
    ws ∈ peers o →
    ∃ h, handlers st !! ws = Some h ∧
         f_session_id (h_frame h) = Some sid ∧
         (sid ≠ "" → in_loop (h_pc h) = Some l);
  coh_path : ∀ ws h sid,
    handlers st !! ws = Some h → f_session_id (h_frame h) = Some sid →
    f_path (h_frame h) = url_prefix +:+ sid;
  coh_cause : ∀ ws h,
    handlers st !! ws = Some h → h_pc h ≠ Done NoneSubscript;
}.

(** What the trace records. *)
Record trace_ok (st : state) : Prop := {
  tr_dom : ∀ e ws,
    e ∈ trace st → ws ∈ conns_of e → is_Some (handlers st !! ws);
  tr_start : ∀ a b d,
    EvSend StartSignal a b d ∈ trace st →
    d = start_session_text ∧
    (∃ sid, EvJoin b sid true ∈ trace st ∧ EvJoin a sid false ∈ trace st) ∧
    (∀ sid, EvJoin b sid false ∉ trace st);
  tr_unstarted : ∀ sid l o c,
    sessions (reg st) !! sid = Some l → heap (reg st) !! l = Some o →
    started o = false → c ∈ peers o →
    EvJoin c sid true ∈ trace st ∧ ∀ s, EvJoin c s false ∉ trace st;
  tr_relay : ∀ a b d,
    EvSend Relay a b d ∈ trace st → EvRecv a d ∈ trace st;
  tr_data : ∀ ws h l d i,
    handlers st !! ws = Some h → h_pc h = AwaitPeerSend l d i →
    EvRecv ws d ∈ trace st;
  tr_order : ∀ i j a b d d',
    trace st !! i = Some (EvSend StartSignal a b d) →
    trace st !! j = Some (EvRecv a d') → i < j;
}.

Record Inv (st : state) : Prop := {
  inv_wf : wf_registry (reg st);
  inv_coh : coherent st;
  inv_tr : trace_ok st;
}.

(** ** The transitions, case by case *)

(** The outcomes of [step] in a state that satisfies [Inv]. *)
Inductive trans (st : state) : label → state → Prop :=
| trans_reject ws path :
    handlers st !! ws = None →
    Str.startswith path url_prefix = false →
    trans st (Connect ws path)
      (State (reg st)
             (set_pc ws (Frame path None) (Done Returned) (handlers st))
             (trace st))
| trans_create ws sid :
    handlers st !! ws = None →
    sessions (reg st) !! sid = None →
    trans st (Connect ws (url_prefix +:+ sid))
      (State (Registry (<[sid := length (heap (reg st))]> (sessions (reg st)))
                       (heap (reg st) ++ [Session [ws] false]))
             (set_pc ws (Frame (url_prefix +:+ sid) (Some sid))
                     (AwaitRecv (length (heap (reg st)))) (handlers st))
             (trace st ++ [EvJoin ws sid true]))
| trans_second ws sid l first_peer :
    handlers st !! ws = None →
    sessions (reg st) !! sid = Some l →
    heap (reg st) !! l = Some (Session [first_peer] false) →
    trans st (Connect ws (url_prefix +:+ sid))
      (State (set_session l (Session [first_peer; ws] true) (reg st))
             (set_pc ws (Frame (url_prefix +:+ sid) (Some sid))
                     (AwaitStartSend l) (handlers st))
             (trace st ++ [EvJoin ws sid false;
                           EvSend StartSignal ws first_peer start_session_text]))
| trans_later ws sid l ps :
    handlers st !! ws = None →
    sessions (reg st) !! sid = Some l →
    heap (reg st) !! l = Some (Session ps true) →
    trans st (Connect ws (url_prefix +:+ sid))
      (State (set_session l (Session (ps ++ [ws]) true) (reg st))
             (set_pc ws (Frame (url_prefix +:+ sid) (Some sid))
                     (AwaitRecv l) (handlers st))
             (trace st ++ [EvJoin ws sid false]))
| trans_start_sent ws h l :
    handlers st !! ws = Some h →
    h_pc h = AwaitStartSend l →
    trans st (SendDone ws None)
      (State (reg st) (set_pc ws (h_frame h) (AwaitRecv l) (handlers st))
             (trace st))
| trans_recv_relay ws h l data o peer i :
    handlers st !! ws = Some h →
    h_pc h = AwaitRecv l →
    heap (reg st) !! l = Some o →
    next_peer ws (peers o) 0 = Some (peer, i) →
    trans st (Recv ws (inl data))
      (State (reg st)
             (set_pc ws (h_frame h) (AwaitPeerSend l data i) (handlers st))
             (trace st ++ [EvRecv ws data; EvSend Relay ws peer data]))
| trans_recv_alone ws h l data o :
    handlers st !! ws = Some h →
    h_pc h = AwaitRecv l →
    heap (reg st) !! l = Some o →
    next_peer ws (peers o) 0 = None →
    trans st (Recv ws (inl data))
      (State (reg st) (set_pc ws (h_frame h) (AwaitRecv l) (handlers st))
             (trace st ++ [EvRecv ws data]))
| trans_relay_next ws h l data i o peer i' :
    handlers st !! ws = Some h →
    h_pc h = AwaitPeerSend l data i →
    heap (reg st) !! l = Some o →
    next_peer ws (peers o) i = Some (peer, i') →
    trans st (SendDone ws None)
      (State (reg st)
             (set_pc ws (h_frame h) (AwaitPeerSend l data i') (handlers st))
             (trace st ++ [EvSend Relay ws peer data]))
| trans_relay_end ws h l data i o :
    handlers st !! ws = Some h →
    h_pc h = AwaitPeerSend l data i →
    heap (reg st) !! l = Some o →
    next_peer ws (peers o) i = None →
    trans st (SendDone ws None)
      (State (reg st) (set_pc ws (h_frame h) (AwaitRecv l) (handlers st))
             (trace st))
| trans_recv_raise ws h l e R :
    handlers st !! ws = Some h →
    h_pc h = AwaitRecv l →
    leave (f_session_id (h_frame h)) ws (reg st) = Some R →
    trans st (Recv ws (inr e))
      (State R (set_pc ws (h_frame h) (Done (Raised e)) (handlers st))
             (trace st))
| trans_send_raise ws h l e R :
    handlers st !! ws = Some h →
    in_loop (h_pc h) = Some l →
    (∀ l', h_pc h ≠ AwaitRecv l') →
    leave (f_session_id (h_frame h)) ws (reg st) = Some R →
    trans st (SendDone ws (Some e))
      (State R (set_pc ws (h_frame h) (Done (Raised e)) (handlers st))
             (trace st)).

(** What every step keeps of the setting of a broadcast: the invariant,
    the trace index [n0] it started at, the handlers of the peers of
    [ps0], and the session dict [l] itself. *)
Definition settled (n0 : nat) (l : loc) (ps0 : list conn) (st : state) : Prop :=
  Inv st ∧ n0 ≤ length (trace st) ∧
  (∀ p, p ∈ ps0 → is_Some (handlers st !! p)) ∧
  is_Some (heap (reg st) !! l).

(** ** Basic facts *)

Module StrFacts.
Import Str.

Lemma strip_prefix_app p r : strip_prefix p (p +:+ r) = Some r.
Proof.
  induction p as [|a p IH]; simpl; [done|].
  by rewrite Ascii.eqb_refl.
Qed.

Lemma strip_prefix_Some p s r : strip_prefix p s = Some r → s = p +:+ r.
Proof.
  revert s; induction p as [|a p IH]; intros s; simpl.
  - by intros [= ->].
  - destruct s as [|b s]; [done|].
    destruct (Ascii.eqb a b) eqn:E; [|done].
    apply Ascii.eqb_eq in E as ->. intros H. by rewrite (IH _ H).
Qed.

Lemma startswith_true s p : startswith s p = true ↔ ∃ r, s = p +:+ r.
Proof.
  unfold startswith. split.
  - destruct (strip_prefix p s) as [r|] eqn:E; [|done].
    intros _. exists r. by apply strip_prefix_Some.
  - intros [r ->]. by rewrite strip_prefix_app.
Qed.

Lemma partition_prefix p r : last3 (partition (p +:+ r) p) = r.
Proof.
  unfold partition.
  assert (find_split p (p +:+ r) = Some (EmptyString, r)) as ->; [|done].
  destruct p; simpl.
  - by destruct r.
  - by rewrite Ascii.eqb_refl, strip_prefix_app.
Qed.

Lemma append_inj_l p r1 r2 : p +:+ r1 = p +:+ r2 → r1 = r2.
Proof. induction p; simpl; [done|]. intros [= ?]; auto. Qed.

End StrFacts.

Section list_facts.
Implicit Types (ws x : conn) (l ps : list conn).

Lemma remove_first_notin x l : x ∉ l → remove_first x l = l.
Proof.
  induction l as [|y l IH]; simpl; [done|].
  rewrite not_elem_of_cons. intros [? ?].
  destruct (decide (y = x)); [congruence|]. by rewrite IH.
Qed.

Lemma elem_of_remove_first x y l :
  NoDup l → y ∈ remove_first x l ↔ y ∈ l ∧ y ≠ x.
Proof.
  induction l as [|z l IH]; simpl; intros Hnd.
  - rewrite elem_of_nil. tauto.
  - apply NoDup_cons in Hnd as [Hz Hnd].
    destruct (decide (z = x)) as [->|Hne].
    + rewrite elem_of_cons. split; [|tauto].
      intros Hy. split; [tauto|]. intros ->. contradiction.
    + rewrite !elem_of_cons, IH by done. split; [|tauto].
      intros [->|[? ?]]; tauto.
Qed.

Lemma NoDup_remove_first x l : NoDup l → NoDup (remove_first x l).
Proof.
  induction l as [|z l IH]; simpl; [done|]. intros Hnd.
  pose proof Hnd as Hnd'. apply NoDup_cons in Hnd' as [Hz Hl].
  destruct (decide (z = x)); [done|].
  apply NoDup_cons. split; [|auto].
  rewrite elem_of_remove_first by done. tauto.
Qed.

Lemma remove_first_notin_after x l : NoDup l → x ∉ remove_first x l.
Proof. intros Hnd. rewrite elem_of_remove_first by done. tauto. Qed.

Lemma scan_Some ws l i p i' :
  scan ws l i = Some (p, i') →
  p ≠ ws ∧ i < i' ∧ l !! (i' - 1 - i) = Some p.
Proof.
  revert i; induction l as [|q l IH]; intros i; simpl; [done|].
  destruct (decide (q = ws)) as [->|Hne].
  - intros H. apply IH in H as (? & ? & Hl). split_and!; [done|lia|].
    replace (i' - 1 - i) with (S (i' - 1 - S i)) by lia. done.
  - intros [= -> <-]. split_and!; [done|lia|].
    replace (S i - 1 - i) with 0 by lia. done.
Qed.

Lemma next_peer_Some ws ps i p i' :
  next_peer ws ps i = Some (p, i') →
  p ≠ ws ∧ i < i' ∧ ps !! (i' - 1) = Some p.
Proof.
  unfold next_peer. intros H. apply scan_Some in H as (? & ? & Hl).
  split_and!; [done..|].
  rewrite lookup_drop in Hl. by replace (i + (i' - 1 - i)) with (i' - 1) in Hl by lia.
Qed.

Lemma next_peer_elem ws ps i p i' :
  next_peer ws ps i = Some (p, i') → p ∈ ps ∧ p ≠ ws.
Proof.
  intros H. apply next_peer_Some in H as (? & ? & Hl).
  split; [|done]. by eapply list_elem_of_lookup_2.
Qed.

End list_facts.

(** ** Preservation of the invariant *)

Lemma set_pc_is_Some ws f p hs x :
  is_Some (hs !! x) → is_Some (set_pc ws f p hs !! x).
Proof.
  unfold set_pc. intros H. destruct (decide (ws = x)) as [->|Hne].
  - rewrite lookup_insert_eq. eauto.
  - by rewrite lookup_insert_ne.
Qed.

Lemma set_pc_lookup_eq ws f p hs : set_pc ws f p hs !! ws = Some (Handler f p).
Proof. apply lookup_insert_eq. Qed.

Lemma set_pc_lookup_ne ws f p hs x : ws ≠ x → set_pc ws f p hs !! x = hs !! x.
Proof. apply lookup_insert_ne. Qed.

Lemma set_pc_lookup_Some ws f p hs x h :
  set_pc ws f p hs !! x = Some h →
  (x = ws ∧ h = Handler f p) ∨ (x ≠ ws ∧ hs !! x = Some h).
Proof.
  unfold set_pc. rewrite lookup_insert_Some.
  intros [[-> ->]|[? ?]]; auto.
Qed.

Ltac case_set_pc H :=
  let H' := fresh H in
  destruct (set_pc_lookup_Some _ _ _ _ _ _ H) as [[-> ->]|[? H']];
  clear H; simpl in *.

(** A handler that stays inside the loop, on the same session dict, and
    logs only what it received and relayed. *)
Lemma inv_move st ws h l p evs :
  Inv st →
  handlers st !! ws = Some h →
  in_loop (h_pc h) = Some l →
  in_loop p = Some l →
  (∀ e, e ∈ evs →
     (∃ d, e = EvRecv ws d) ∨
     (∃ b d, e = EvSend Relay ws b d ∧ is_Some (handlers st !! b) ∧
             EvRecv ws d ∈ trace st ++ evs)) →
  (∀ d i, p = AwaitPeerSend l d i → EvRecv ws d ∈ trace st ++ evs) →
  Inv (State (reg st) (set_pc ws (h_frame h) p (handlers st)) (trace st ++ evs)).
Proof.
  intros [Hwf Hcoh Htr] Hh Hin Hp Hevs Hdata.
  assert (Hnojoin : ∀ c s b, EvJoin c s b ∉ evs).
  { intros c s b Hel. apply Hevs in Hel as [[? ?]|(? & ? & ? & _)]; done. }
  assert (Hnostart : ∀ a b d, EvSend StartSignal a b d ∉ evs).
  { intros a b d Hel. apply Hevs in Hel as [[? ?]|(? & ? & ? & _)]; done. }
  split; simpl.
  - done.
  - split; simpl.
    + intros ws' h' l' Hl Hl'. case_set_pc Hl.
      * assert (l' = l) as -> by congruence. by eapply coh_loop.
      * by eapply coh_loop.
    + intros sid l' o c Hs Ho Hc.
      destruct (coh_peer _ Hcoh _ _ _ _ Hs Ho Hc) as (h0 & Hh0 & Hsid & Hloop).
      destruct (decide (c = ws)) as [->|Hne].
      * exists (Handler (h_frame h) p). rewrite set_pc_lookup_eq.
        simplify_eq/=. split_and!; [done..|].
        intros Hn. specialize (Hloop Hn). congruence.
      * exists h0. by rewrite set_pc_lookup_ne.
    + intros ws' h' sid Hl Hsid. case_set_pc Hl; by eapply coh_path.
    + intros ws' h' Hl. case_set_pc Hl.
      * intros ->. done.
      * by eapply coh_cause.
  - split; simpl.
    + intros e c [Hel|Hel]%elem_of_app Hc; apply set_pc_is_Some.
      * by eapply tr_dom.
      * apply Hevs in Hel as [[d ->]|(b & d & -> & Hb & _)]; simpl in Hc.
        -- apply list_elem_of_singleton in Hc as ->. eauto.
        -- apply elem_of_cons in Hc as [->|Hc]; [eauto|].
           apply list_elem_of_singleton in Hc as ->. done.
    + intros a b d [Hel|Hel]%elem_of_app; [|by apply Hnostart in Hel].
      destruct (tr_start _ Htr _ _ _ Hel) as (-> & (sid & H1 & H2) & H3).
      split_and!; [done| |].
      * exists sid. rewrite !elem_of_app. tauto.
      * intros s [?|?]%elem_of_app; [by eapply H3|by eapply Hnojoin].
    + intros sid l' o c Hs Ho Hst Hc.
      destruct (tr_unstarted _ Htr _ _ _ _ Hs Ho Hst Hc) as [H1 H2].
      split; [rewrite elem_of_app; tauto|].
      intros s [?|?]%elem_of_app; [by eapply H2|by eapply Hnojoin].
    + intros a b d [Hel|Hel]%elem_of_app.
      * rewrite elem_of_app. left. by eapply tr_relay.
      * apply Hevs in Hel as [[? ?]|(? & ? & ? & _ & ?)]; [done|]. by simplify_eq.
    + intros ws' h' l' d i Hl Hpc. case_set_pc Hl.
      * assert (l' = l) as -> by (rewrite Hpc in Hp; simpl in Hp; congruence).
        by eapply Hdata.
      * rewrite elem_of_app. left. by eapply tr_data.
    + intros i j a b d d' Hi Hj.
      apply lookup_app_Some in Hi as [Hi|[_ Hi]].
      2:{ apply list_elem_of_lookup_2 in Hi. by apply Hnostart in Hi. }
      apply lookup_app_Some in Hj as [Hj|[Hj _]].
      * by eapply tr_order.
      * apply lookup_lt_Some in Hi. lia.
Qed.

(** A connection whose handler has not run yet occurs nowhere. *)
Lemma fresh_not_peer st ws sid l o :
  Inv st → handlers st !! ws = None →
  sessions (reg st) !! sid = Some l → heap (reg st) !! l = Some o →
  ws ∉ peers o.
Proof.
  intros [_ Hcoh _] Hfresh Hs Ho Hel.
  destruct (coh_peer _ Hcoh _ _ _ _ Hs Ho Hel) as (h & Hh & _). congruence.
Qed.

Lemma fresh_not_traced st ws e :
  Inv st → handlers st !! ws = None → e ∈ trace st → ws ∉ conns_of e.
Proof.
  intros [_ _ Htr] Hfresh He Hel.
  destruct (tr_dom _ Htr _ _ He Hel) as [h Hh]. congruence.
Qed.

Lemma inv_reject st ws path :
  Inv st → handlers st !! ws = None →
  Inv (State (reg st) (set_pc ws (Frame path None) (Done Returned) (handlers st))
             (trace st)).
Proof.
  intros Hinv Hfresh. pose proof Hinv as [Hwf Hcoh Htr].
  split; simpl; [done|split; simpl|split; simpl].
  - intros ws' h' l' Hl Hl'. case_set_pc Hl; [done|]. by eapply coh_loop.
  - intros sid l o c Hs Ho Hc.
    destruct (coh_peer _ Hcoh _ _ _ _ Hs Ho Hc) as (h0 & Hh0 & Hsid & Hloop).
    exists h0. rewrite set_pc_lookup_ne by congruence. done.
  - intros ws' h' sid Hl Hsid. case_set_pc Hl; [done|]. by eapply coh_path.
  - intros ws' h' Hl. case_set_pc Hl; [done|]. by eapply coh_cause.
  - intros e c He Hc. apply set_pc_is_Some. by eapply tr_dom.
  - by apply tr_start.
  - by apply tr_unstarted.
  - by apply tr_relay.
  - intros ws' h' l d i Hl Hpc. case_set_pc Hl; [done|]. by eapply tr_data.
  - by apply tr_order.
Qed.

Lemma inv_create st ws sid :
  Inv st → handlers st !! ws = None →
  sessions (reg st) !! sid = None →
  Inv (State (Registry (<[sid := length (heap (reg st))]> (sessions (reg st)))
                       (heap (reg st) ++ [Session [ws] false]))
             (set_pc ws (Frame (url_prefix +:+ sid) (Some sid))
                     (AwaitRecv (length (heap (reg st)))) (handlers st))
             (trace st ++ [EvJoin ws sid true])).
Proof.
  intros Hinv Hfresh Hnew. pose proof Hinv as [Hwf Hcoh Htr].
  remember (length (heap (reg st))) as n eqn:Hn.
  assert (Hold : ∀ s l, sessions (reg st) !! s = Some l → l < n).
  { intros s l Hs. destruct (wf_alloc _ Hwf _ _ Hs) as [o Ho].
    apply lookup_lt_Some in Ho. by subst n. }
  assert (Hheap : ∀ l, l < n →
            (heap (reg st) ++ [Session [ws] false]) !! l = heap (reg st) !! l).
  { intros l Hl. apply lookup_app_l. by subst n. }
  assert (Hlast : (heap (reg st) ++ [Session [ws] false]) !! n
                  = Some (Session [ws] false)).
  { subst n. rewrite lookup_app_r by done. by rewrite Nat.sub_diag. }
  split; simpl; [split; simpl|split; simpl|split; simpl].
  - intros s l [[-> <-]|[Hne Hs]]%lookup_insert_Some.
    + rewrite Hlast. eauto.
    + rewrite Hheap by eauto. by eapply wf_alloc.
  - intros s1 s2 l [[-> <-]|[Hne1 Hs1]]%lookup_insert_Some
                   [[<- Hl]|[Hne2 Hs2]]%lookup_insert_Some; try done.
    + apply Hold in Hs2. lia.
    + apply Hold in Hs1. lia.
    + by eapply wf_inj.
  - intros s l o [[-> <-]|[Hne Hs]]%lookup_insert_Some Ho.
    + rewrite Hlast in Ho. by simplify_eq.
    + rewrite Hheap in Ho by eauto. by eapply wf_nonempty.
  - intros s l o [[-> <-]|[Hne Hs]]%lookup_insert_Some Ho.
    + rewrite Hlast in Ho. simplify_eq. simpl. apply NoDup_singleton.
    + rewrite Hheap in Ho by eauto. by eapply wf_nodup.
  - intros s l o [[-> <-]|[Hne Hs]]%lookup_insert_Some Ho.
    + rewrite Hlast in Ho. by simplify_eq.
    + rewrite Hheap in Ho by eauto. by eapply wf_unstarted.
  - intros ws' h' l' Hl Hl'. case_set_pc Hl.
    + simplify_eq. exists sid, (Session [ws] false).
      rewrite lookup_insert_eq, Hlast. split_and!; [done..|]. simpl. set_solver.
    + destruct (coh_loop _ Hcoh _ _ _ Hl0 Hl') as (s & o & Hs1 & Hs2 & Ho & Hel).
      exists s, o. rewrite lookup_insert_ne by congruence.
      rewrite Hheap by eauto. done.
  - intros s l o c [[-> <-]|[Hne Hs]]%lookup_insert_Some Ho Hc.
    + rewrite Hlast in Ho. simplify_eq. simpl in Hc.
      apply list_elem_of_singleton in Hc as ->.
      eexists. rewrite set_pc_lookup_eq. done.
    + rewrite Hheap in Ho by eauto.
      destruct (coh_peer _ Hcoh _ _ _ _ Hs Ho Hc) as (h0 & Hh0 & Hsid & Hloop).
      exists h0. rewrite set_pc_lookup_ne by congruence. done.
  - intros ws' h' s Hl Hsid. case_set_pc Hl; [congruence|]. by eapply coh_path.
  - intros ws' h' Hl. case_set_pc Hl; [done|]. by eapply coh_cause.
  - intros e c [He|He]%elem_of_app Hc.
    + apply set_pc_is_Some. by eapply tr_dom.
    + apply list_elem_of_singleton in He as ->. simpl in Hc.
      apply list_elem_of_singleton in Hc as ->. rewrite set_pc_lookup_eq. eauto.
  - intros a b d [Hel|Hel]%elem_of_app.
    2:{ by apply list_elem_of_singleton in Hel. }
    destruct (tr_start _ Htr _ _ _ Hel) as (-> & (s & H1 & H2) & H3).
    split_and!; [done| |].
    + exists s. rewrite !elem_of_app. tauto.
    + intros s' [?|Hs']%elem_of_app; [by eapply H3|].
      by apply list_elem_of_singleton in Hs'.
  - intros s l o c [[-> <-]|[Hne Hs]]%lookup_insert_Some Ho Hst Hc.
    + rewrite Hlast in Ho. simplify_eq. simpl in Hc.
      apply list_elem_of_singleton in Hc as ->. split; [set_solver|].
      intros s' [Hs'|Hs']%elem_of_app.
      * eapply fresh_not_traced in Hs'; [|done..]. simpl in Hs'. set_solver.
      * by apply list_elem_of_singleton in Hs'.
    + rewrite Hheap in Ho by eauto.
      destruct (tr_unstarted _ Htr _ _ _ _ Hs Ho Hst Hc) as [H1 H2].
      split; [rewrite elem_of_app; tauto|].
      intros s' [?|Hs']%elem_of_app; [by eapply H2|].
      by apply list_elem_of_singleton in Hs'.
  - intros a b d [Hel|Hel]%elem_of_app.
    + rewrite elem_of_app. left. by eapply tr_relay.
    + by apply list_elem_of_singleton in Hel.
  - intros ws' h' l d i Hl Hpc. case_set_pc Hl; [done|].
    rewrite elem_of_app. left. by eapply tr_data.
  - intros i j a b d d' Hi Hj.
    apply lookup_app_Some in Hi as [Hi|[_ Hi]].
    2:{ apply list_elem_of_lookup_2, list_elem_of_singleton in Hi. done. }
    apply lookup_app_Some in Hj as [Hj|[Hj _]].
    + by eapply tr_order.
    + apply lookup_lt_Some in Hi. lia.
Qed.

Lemma set_session_lookup R l o o' l' :
  heap R !! l = Some o →
  heap (set_session l o' R) !! l' = if decide (l' = l) then Some o' else heap R !! l'.
Proof.
  intros Ho. simpl. destruct (decide (l' = l)) as [->|Hne].
  - apply list_lookup_insert_eq. by eapply lookup_lt_Some.
  - by apply list_lookup_insert_ne.
Qed.

Lemma inv_append st ws sid l o p evs :
  Inv st → handlers st !! ws = None →
  sessions (reg st) !! sid = Some l → heap (reg st) !! l = Some o →
  in_loop p = Some l → (∀ d i, p ≠ AwaitPeerSend l d i) →
  (started o = true ∧ evs = []) ∨
  (∃ first_peer, peers o = [first_peer] ∧ started o = false ∧
     evs = [EvSend StartSignal ws first_peer start_session_text]) →
  Inv (State (set_session l (Session (peers o ++ [ws]) true) (reg st))
             (set_pc ws (Frame (url_prefix +:+ sid) (Some sid)) p (handlers st))
             (trace st ++ EvJoin ws sid false :: evs)).
Proof.
  intros Hinv Hfresh Hsid Ho Hp Hp' Hevs. pose proof Hinv as [Hwf Hcoh Htr].
  pose proof (set_session_lookup (reg st) l o (Session (peers o ++ [ws]) true)) as Hheap.
  specialize (λ l', Hheap l' Ho).
  assert (Hnotin : ws ∉ peers o) by (by eapply fresh_not_peer).
  assert (Hnew : ∀ e, e ∈ EvJoin ws sid false :: evs →
            e = EvJoin ws sid false ∨
            ∃ first_peer, e = EvSend StartSignal ws first_peer start_session_text ∧
               peers o = [first_peer] ∧ started o = false).
  { intros e [->|He]%elem_of_cons; [by left|]. right.
    destruct Hevs as [[_ ->]|(fp & ? & ? & ->)]; [by apply elem_of_nil in He|].
    apply list_elem_of_singleton in He as ->. eauto. }
  assert (Hpeer : ∀ c, c ∈ peers o → is_Some (handlers st !! c) ∧ c ≠ ws).
  { intros c Hc.
    destruct (coh_peer _ Hcoh _ _ _ _ Hsid Ho Hc) as (h0 & Hh0 & _).
    split; [eauto|congruence]. }
  split; [split|split|split]; simpl sessions; simpl handlers; simpl trace.
  - intros s l' Hs. rewrite Hheap. case_decide; [eauto|]. by eapply wf_alloc.
  - apply Hwf.
  - intros s l' o' Hs. rewrite Hheap. case_decide.
    + intros [= <-]. simpl. by destruct (peers o).
    + by eapply wf_nonempty.
  - intros s l' o' Hs. rewrite Hheap. case_decide.
    + subst l'. intros [= <-]. simpl. apply NoDup_app. split_and!.
      * by eapply wf_nodup.
      * intros x Hx ->%list_elem_of_singleton. done.
      * apply NoDup_singleton.
    + by eapply wf_nodup.
  - intros s l' o' Hs. rewrite Hheap. case_decide.
    + by intros [= <-].
    + by eapply wf_unstarted.
  - intros ws' h' l' Hl Hl'. case_set_pc Hl.
    + assert (l' = l) as -> by congruence.
      exists sid, (Session (peers o ++ [ws]) true). rewrite Hheap.
      rewrite decide_True by done. split_and!; [done..|]. simpl. set_solver.
    + destruct (coh_loop _ Hcoh _ _ _ Hl0 Hl') as (s & o' & Hs1 & Hs2 & Ho' & Hel).
      rewrite Hheap. case_decide; simplify_eq.
      * exists s, (Session (peers o ++ [ws]) true). split_and!; [done..|].
        simpl. set_solver.
      * by exists s, o'.
  - intros s l' o' c Hs. rewrite Hheap. case_decide.
    + intros [= <-] Hc. simpl in Hc. subst l'.
      assert (s = sid) as -> by (by eapply wf_inj).
      apply elem_of_app in Hc as [Hc| ->%list_elem_of_singleton].
      * destruct (coh_peer _ Hcoh _ _ _ _ Hs Ho Hc) as (h0 & Hh0 & Hs0 & Hloop).
        exists h0. rewrite set_pc_lookup_ne by congruence. done.
      * eexists. rewrite set_pc_lookup_eq. done.
    + intros Ho' Hc.
      destruct (coh_peer _ Hcoh _ _ _ _ Hs Ho' Hc) as (h0 & Hh0 & Hs0 & Hloop).
      exists h0. rewrite set_pc_lookup_ne by congruence. done.
  - intros ws' h' s Hl Hs. case_set_pc Hl; [congruence|]. by eapply coh_path.
  - intros ws' h' Hl. case_set_pc Hl; [|by eapply coh_cause].
    intros ->. done.
  - intros e c [He|He]%elem_of_app Hc.
    + apply set_pc_is_Some. by eapply tr_dom.
    + apply Hnew in He as [->|(fp & -> & Hfp & _)]; simpl in Hc.
      * apply list_elem_of_singleton in Hc as ->. rewrite set_pc_lookup_eq. eauto.
      * apply elem_of_cons in Hc as [->| ->%list_elem_of_singleton].
        -- rewrite set_pc_lookup_eq. eauto.
        -- apply set_pc_is_Some, Hpeer. rewrite Hfp. set_solver.
  - intros a b d [Hel|Hel]%elem_of_app.
    + destruct (tr_start _ Htr _ _ _ Hel) as (-> & (s & H1 & H2) & H3).
      split_and!; [done| |].
      * exists s. rewrite !elem_of_app. tauto.
      * intros s' [?|Hs']%elem_of_app; [by eapply H3|].
        apply Hnew in Hs' as [?|(? & ? & _)]; [|done]. simplify_eq.
        eapply fresh_not_traced in Hel; [|done..]. simpl in Hel. set_solver.
    + apply Hnew in Hel as [?|(fp & Heq & Hfp & Hst)]; [done|].
      injection Heq as -> -> ->. rename fp into b.
      assert (b ∈ peers o) as Hb by (rewrite Hfp; set_solver).
      destruct (tr_unstarted _ Htr _ _ _ _ Hsid Ho Hst Hb) as [H1 H2].
      split_and!; [done| |].
      * exists sid. rewrite !elem_of_app. split; [tauto|]. right. set_solver.
      * intros s' [?|Hs']%elem_of_app; [by eapply H2|].
        apply Hnew in Hs' as [?|(? & ? & _)]; [|done]. simplify_eq.
        by apply Hpeer in Hb as [_ ?].
  - intros s l' o' c Hs. rewrite Hheap. case_decide; [by intros [= <-]|].
    intros Ho' Hst Hc.
    destruct (tr_unstarted _ Htr _ _ _ _ Hs Ho' Hst Hc) as [H1 H2].
    split; [rewrite elem_of_app; tauto|].
    intros s' [?|Hs']%elem_of_app; [by eapply H2|].
    apply Hnew in Hs' as [?|(? & ? & _)]; [|done]. simplify_eq.
    by eapply fresh_not_peer.
  - intros a b d [Hel|Hel]%elem_of_app.
    + rewrite elem_of_app. left. by eapply tr_relay.
    + apply Hnew in Hel as [?|(? & ? & _)]; done.
  - intros ws' h' l' d i Hl Hpc. case_set_pc Hl.
    + subst p. simpl in Hp. simplify_eq. by edestruct Hp'.
    + rewrite elem_of_app. left. by eapply tr_data.
  - intros i j a b d d' Hi Hj.
    apply lookup_app_Some in Hj as [Hj|[Hlen Hj]].
    + apply lookup_app_Some in Hi as [Hi|[_ Hi]]; [by eapply tr_order|].
      apply list_elem_of_lookup_2, Hnew in Hi as [?|(? & ? & _)]; [done|].
      simplify_eq. apply list_elem_of_lookup_2 in Hj.
      eapply fresh_not_traced in Hj; [|done..]. simpl in Hj. set_solver.
    + apply list_elem_of_lookup_2, Hnew in Hj as [?|(? & ? & _)]; done.
Qed.

(** The [finally] block of a handler whose [session_id] is the empty
    string: line 62 skips the cleanup. *)
Lemma inv_exit_skip st ws h c :
  Inv st → handlers st !! ws = Some h →
  f_session_id (h_frame h) = Some "" → c ≠ NoneSubscript →
  Inv (State (reg st) (set_pc ws (h_frame h) (Done c) (handlers st)) (trace st)).
Proof.
  intros Hinv Hh Hsid Hc. pose proof Hinv as [Hwf Hcoh Htr].
  split; simpl; [done|split; simpl|split; simpl].
  - intros ws' h' l' Hl Hl'. case_set_pc Hl; [done|]. by eapply coh_loop.
  - intros sid l o c0 Hs Ho Hc0.
    destruct (coh_peer _ Hcoh _ _ _ _ Hs Ho Hc0) as (h0 & Hh0 & Hsid0 & Hloop).
    destruct (decide (c0 = ws)) as [->|Hne].
    + exists (Handler (h_frame h) (Done c)). rewrite set_pc_lookup_eq.
      simplify_eq. split_and!; [done..|]. intros Hn. congruence.
    + exists h0. by rewrite set_pc_lookup_ne.
  - intros ws' h' sid Hl Hs. case_set_pc Hl; by eapply coh_path.
  - intros ws' h' Hl. case_set_pc Hl; [congruence|]. by eapply coh_cause.
  - intros e c0 He Hc0. apply set_pc_is_Some. by eapply tr_dom.
  - by apply tr_start.
  - by apply tr_unstarted.
  - by apply tr_relay.
  - intros ws' h' l d i Hl Hpc. case_set_pc Hl; [done|]. by eapply tr_data.
  - by apply tr_order.
Qed.

(** The [finally] block of a handler that is in a session with a non-empty
    id: its connection leaves the peer list, and the session goes when the
    list is empty. *)
Lemma inv_exit_leave st ws h l sid o R c :
  Inv st → handlers st !! ws = Some h →
  in_loop (h_pc h) = Some l →
  f_session_id (h_frame h) = Some sid →
  sessions (reg st) !! sid = Some l → heap (reg st) !! l = Some o →
  ws ∈ peers o →
  heap R = <[l := Session (remove_first ws (peers o)) (started o)]> (heap (reg st)) →
  (∀ s l', sessions R !! s = Some l' ↔
           sessions (reg st) !! s = Some l' ∧
           (s = sid → remove_first ws (peers o) ≠ [])) →
  c ≠ NoneSubscript →
  Inv (State R (set_pc ws (h_frame h) (Done c) (handlers st)) (trace st)).
Proof.
  intros Hinv Hh Hin Hsid Hs Ho Hws HheapR Hsess Hc.
  pose proof Hinv as [Hwf Hcoh Htr].
  set (ps := remove_first ws (peers o)) in *.
  assert (Hnd : NoDup (peers o)) by (by eapply wf_nodup).
  assert (Hps : ∀ x, x ∈ ps ↔ x ∈ peers o ∧ x ≠ ws).
  { intros x. by apply elem_of_remove_first. }
  assert (Hheap : ∀ l', heap R !! l' =
            if decide (l' = l) then Some (Session ps (started o))
            else heap (reg st) !! l').
  { intros l'. rewrite HheapR.
    exact (set_session_lookup (reg st) l o (Session ps (started o)) l' Ho). }
  assert (Hmine : ∀ s l' o', sessions (reg st) !! s = Some l' →
            heap (reg st) !! l' = Some o' → ws ∈ peers o' → l' = l).
  { intros s l' o' Hs' Ho' Hel.
    destruct (coh_peer _ Hcoh _ _ _ _ Hs' Ho' Hel) as (h0 & Hh0 & Hs0 & _).
    simplify_eq. congruence. }
  split; [split|split|split]; simpl reg; simpl handlers; simpl trace.
  - intros s l' [Hs' _]%Hsess. rewrite Hheap. case_decide; [eauto|].
    by eapply wf_alloc.
  - intros s1 s2 l' [H1 _]%Hsess [H2 _]%Hsess. by eapply wf_inj.
  - intros s l' o' [Hs' Hne]%Hsess. rewrite Hheap. case_decide.
    + subst l'. intros [= <-]. simpl. apply Hne. by eapply wf_inj.
    + by eapply wf_nonempty.
  - intros s l' o' [Hs' Hne]%Hsess. rewrite Hheap. case_decide.
    + intros [= <-]. simpl. by apply NoDup_remove_first.
    + by eapply wf_nodup.
  - intros s l' o' [Hs' Hne]%Hsess. rewrite Hheap. case_decide.
    + subst l'. intros [= <-]. simpl. intros Hst. exfalso.
      apply Hne; [by eapply wf_inj|].
      pose proof (wf_unstarted _ Hwf _ _ _ Hs Ho Hst) as Hlen.
      subst ps. destruct (peers o) as [|x [|y ps']]; simplify_eq/=.
      apply list_elem_of_singleton in Hws as ->. by rewrite decide_True.
    + by eapply wf_unstarted.
  - intros ws' h' l' Hl Hl'. case_set_pc Hl; [done|].
    destruct (coh_loop _ Hcoh _ _ _ Hl0 Hl') as (s & o' & Hs1 & Hs2 & Ho' & Hel).
    rewrite Hheap. case_decide.
    + subst l'. assert (o' = o) as -> by congruence.
      assert (ws' ∈ ps) as Hin' by (by apply Hps).
      exists s, (Session ps (started o)). split_and!; [done| |done..].
      apply Hsess. split; [done|]. intros _ Hnil. rewrite Hnil in Hin'.
      by apply elem_of_nil in Hin'.
    + exists s, o'. split_and!; [done| |done..].
      apply Hsess. split; [done|]. intros ->. congruence.
  - intros s l' o' c0 [Hs' Hne]%Hsess. rewrite Hheap. case_decide.
    + subst l'. intros [= <-]. simpl. intros [Hc0 Hc0']%Hps.
      destruct (coh_peer _ Hcoh _ _ _ _ Hs' Ho Hc0) as (h0 & Hh0 & Hs0 & Hloop).
      exists h0. by rewrite set_pc_lookup_ne.
    + intros Ho' Hc0.
      destruct (coh_peer _ Hcoh _ _ _ _ Hs' Ho' Hc0) as (h0 & Hh0 & Hs0 & Hloop).
      exists h0. rewrite set_pc_lookup_ne; [done|].
      intros ->. by eapply H, Hmine.
  - intros ws' h' s Hl Hs'. case_set_pc Hl; by eapply coh_path.
  - intros ws' h' Hl. case_set_pc Hl; [congruence|]. by eapply coh_cause.
  - intros e c0 He Hc0. apply set_pc_is_Some. by eapply tr_dom.
  - by apply tr_start.
  - intros s l' o' c0 [Hs' Hne]%Hsess. rewrite Hheap. case_decide.
    + subst l'. intros [= <-]. simpl. intros Hst [Hc0 _]%Hps.
      by eapply tr_unstarted.
    + by eapply tr_unstarted.
  - by apply tr_relay.
  - intros ws' h' l' d i Hl Hpc. case_set_pc Hl; [done|]. by eapply tr_data.
  - by apply tr_order.
Qed.

Lemma leave_skip ws R : leave (Some "") ws R = Some R.
Proof. done. Qed.

Lemma leave_in_session R sid ws l o :
  sessions R !! sid = Some l → heap R !! l = Some o →
  ws ∈ peers o → sid ≠ "" →
  leave (Some sid) ws R =
    Some (Registry
            (if decide (remove_first ws (peers o) = [])
             then delete sid (sessions R) else sessions R)
            (<[l := Session (remove_first ws (peers o)) (started o)]> (heap R))).
Proof.
  intros Hs Ho Hws Hne. unfold leave, truthy.
  apply String.eqb_neq in Hne as ->. simpl. rewrite Hs, Ho. simpl.
  rewrite bool_decide_eq_true_2 by done.
  rewrite (set_session_lookup R l o _ l Ho), decide_True by done. simpl.
  by destruct (remove_first ws (peers o)).
Qed.

Lemma inv_exit st ws h l R c :
  Inv st → handlers st !! ws = Some h →
  in_loop (h_pc h) = Some l →
  leave (f_session_id (h_frame h)) ws (reg st) = Some R →
  c ≠ NoneSubscript →
  Inv (State R (set_pc ws (h_frame h) (Done c) (handlers st)) (trace st)).
Proof.
  intros Hinv Hh Hin Hleave Hc.
  destruct (coh_loop _ (inv_coh _ Hinv) _ _ _ Hh Hin)
    as (sid & o & Hsid & Hs & Ho & Hws).
  rewrite Hsid in Hleave. destruct (decide (sid = "")) as [->|Hne].
  - rewrite leave_skip in Hleave. injection Hleave as <-.
    by apply inv_exit_skip.
  - rewrite (leave_in_session _ _ _ _ _ Hs Ho Hws Hne) in Hleave.
    injection Hleave as <-.
    eapply inv_exit_leave; try done. simpl. intros s l'.
    destruct (decide (remove_first ws (peers o) = [])) as [Hnil|Hnn].
    + rewrite lookup_delete_Some. split.
      * intros [? ?]. split; [done|]. congruence.
      * intros [? Himp]. split; [|done]. intros <-. by apply Himp.
    + tauto.
Qed.

(** ** What [step] does in a state that satisfies the invariant *)

(** Back at line 41 with the session registered and either started or
    with a single peer, the handler goes on to [recv]. *)
Lemma loop_top_recv R sid l o :
  wf_registry R → sessions R !! sid = Some l → heap R !! l = Some o →
  loop_top (Some sid) R = Some (TopRecv l).
Proof.
  intros Hwf Hs Ho. unfold loop_top. simpl. rewrite Hs, Ho. simpl.
  destruct (started o) eqn:Hst; simpl.
  - by rewrite andb_false_r.
  - rewrite (wf_unstarted _ Hwf _ _ _ Hs Ho Hst). done.
Qed.

Lemma relay_spec st ws h l data i tr :
  Inv st → handlers st !! ws = Some h → in_loop (h_pc h) = Some l →
  ∃ o, heap (reg st) !! l = Some o ∧
    relay ws (h_frame h) l data i (State (reg st) (handlers st) tr) =
    match next_peer ws (peers o) i with
    | Some (peer, i') =>
        Some (State (reg st)
                (set_pc ws (h_frame h) (AwaitPeerSend l data i') (handlers st))
                (tr ++ [EvSend Relay ws peer data]))
    | None =>
        Some (State (reg st) (set_pc ws (h_frame h) (AwaitRecv l) (handlers st)) tr)
    end.
Proof.
  intros Hinv Hh Hin.
  destruct (coh_loop _ (inv_coh _ Hinv) _ _ _ Hh Hin)
    as (sid & o & Hsid & Hs & Ho & Hws).
  exists o. split; [done|]. unfold relay. simpl. rewrite Ho. simpl.
  destruct (next_peer ws (peers o) i) as [[peer i']|]; [done|].
  unfold enter_loop. simpl. rewrite Hsid.
  by rewrite (loop_top_recv _ _ _ _ (inv_wf _ Hinv) Hs Ho).
Qed.

Lemma connect_reject ws path st :
  Str.startswith path url_prefix = false →
  connect ws path st =
    Some (State (reg st) (set_pc ws (Frame path None) (Done Returned) (handlers st))
                (trace st)).
Proof. intros H. unfold connect. by rewrite H. Qed.

Lemma connect_create ws sid st :
  sessions (reg st) !! sid = None →
  connect ws (url_prefix +:+ sid) st =
    Some (State (Registry (<[sid := length (heap (reg st))]> (sessions (reg st)))
                          (heap (reg st) ++ [Session [ws] false]))
                (set_pc ws (Frame (url_prefix +:+ sid) (Some sid))
                        (AwaitRecv (length (heap (reg st)))) (handlers st))
                (trace st ++ [EvJoin ws sid true])).
Proof.
  intros Hs. unfold connect.
  assert (Str.startswith (url_prefix +:+ sid) url_prefix = true) as ->.
  { apply StrFacts.startswith_true. eauto. }
  rewrite StrFacts.partition_prefix. simpl negb. cbv iota.
  unfold join. rewrite Hs. simpl. unfold enter_loop, loop_top. simpl.
  rewrite lookup_insert_eq. simpl.
  rewrite lookup_app_r by done. rewrite Nat.sub_diag. done.
Qed.

Lemma connect_append ws sid l o st :
  sessions (reg st) !! sid = Some l → heap (reg st) !! l = Some o →
  peers o ≠ [] →
  connect ws (url_prefix +:+ sid) st =
    match started o, peers o with
    | false, first_peer :: _ =>
        Some (State (set_session l (Session (peers o ++ [ws]) true) (reg st))
                (set_pc ws (Frame (url_prefix +:+ sid) (Some sid))
                        (AwaitStartSend l) (handlers st))
                (trace st ++ [EvJoin ws sid false;
                              EvSend StartSignal ws first_peer start_session_text]))
    | _, _ =>
        Some (State (set_session l (Session (peers o ++ [ws]) (started o)) (reg st))
                (set_pc ws (Frame (url_prefix +:+ sid) (Some sid))
                        (AwaitRecv l) (handlers st))
                (trace st ++ [EvJoin ws sid false]))
    end.
Proof.
  intros Hs Ho Hne. unfold connect.
  assert (Str.startswith (url_prefix +:+ sid) url_prefix = true) as ->.
  { apply StrFacts.startswith_true. eauto. }
  rewrite StrFacts.partition_prefix. simpl negb. cbv iota.
  unfold join. rewrite Hs. simpl. rewrite Ho. simpl.
  unfold enter_loop, loop_top. simpl. rewrite Hs. simpl.
  pose proof (lookup_lt_Some _ _ _ Ho) as Hlt.
  rewrite list_lookup_insert_eq by done. simpl.
  rewrite length_app. simpl.
  destruct (peers o) as [|first_peer ps] eqn:Hps; [done|]. simpl.
  replace (length ps + 1) with (S (length ps)) by lia. simpl.
  destruct (started o); simpl; [done|].
  unfold set_session. simpl. rewrite list_insert_insert_eq.
  by rewrite <- app_assoc.
Qed.

Lemma step_trans st lbl st' :
  Inv st → step st lbl = Some st' → trans st lbl st'.
Proof.
  intros Hinv Hstep. pose proof Hinv as [Hwf Hcoh Htr].
  destruct lbl as [ws path|ws r|ws r]; simpl in Hstep.
  - destruct (handlers st !! ws) as [?|] eqn:Hfresh; [done|].
    destruct (Str.startswith path url_prefix) eqn:Hpre.
    + apply StrFacts.startswith_true in Hpre as [sid ->].
      destruct (sessions (reg st) !! sid) as [l|] eqn:Hs.
      * destruct (wf_alloc _ Hwf _ _ Hs) as [o Ho].
        pose proof (wf_nonempty _ Hwf _ _ _ Hs Ho) as Hne.
        rewrite (connect_append _ _ _ _ _ Hs Ho Hne) in Hstep.
        destruct o as [ps [|]]; simpl in *.
        -- injection Hstep as <-. by apply trans_later.
        -- pose proof (wf_unstarted _ Hwf _ _ _ Hs Ho eq_refl) as Hlen.
           destruct ps as [|first_peer [|? ?]]; simplify_eq/=.
           by apply trans_second.
      * rewrite (connect_create _ _ _ Hs) in Hstep. injection Hstep as <-.
        by apply trans_create.
    + rewrite (connect_reject _ _ _ Hpre) in Hstep. injection Hstep as <-.
      by apply trans_reject.
  - destruct (handlers st !! ws) as [h|] eqn:Hh; [|done]. simpl in Hstep.
    destruct (h_pc h) as [l|l|l data i|c] eqn:Hpc; [| |destruct r as [e|]|].
    + destruct r as [e|].
      * unfold terminate in Hstep.
        destruct (leave _ _ _) as [R|] eqn:HR; [|done]. injection Hstep as <-.
        eapply trans_send_raise; [done| |by rewrite Hpc|done].
        by rewrite Hpc.
      * injection Hstep as <-. by eapply trans_start_sent.
    + by destruct r.
    + unfold terminate in Hstep.
      destruct (leave _ _ _) as [R|] eqn:HR; [|done]. injection Hstep as <-.
      eapply trans_send_raise; [done| |by rewrite Hpc|done].
      by rewrite Hpc.
    + assert (in_loop (h_pc h) = Some l) as Hin by (by rewrite Hpc).
      destruct (relay_spec st ws h l data i (trace st) Hinv Hh Hin)
        as (o & Ho & Hrelay).
      destruct st as [R hs tr]. simpl in *. rewrite Hrelay in Hstep.
      destruct (next_peer ws (peers o) i) as [[peer i']|] eqn:Hnext;
        injection Hstep as <-.
      * by eapply (trans_relay_next (State R hs tr)).
      * by eapply (trans_relay_end (State R hs tr)).
    + by destruct r.
  - destruct (handlers st !! ws) as [h|] eqn:Hh; [|done]. simpl in Hstep.
    destruct (h_pc h) as [l|l|l data i|c] eqn:Hpc; try (by destruct r).
    destruct r as [data|e].
    + assert (in_loop (h_pc h) = Some l) as Hin by (by rewrite Hpc).
      destruct (relay_spec st ws h l data 0 (trace st ++ [EvRecv ws data])
                  Hinv Hh Hin) as (o & Ho & Hrelay).
      rewrite Hrelay in Hstep.
      destruct (next_peer ws (peers o) 0) as [[peer i']|] eqn:Hnext;
        injection Hstep as <-.
      * rewrite <- app_assoc. by eapply trans_recv_relay.
      * by eapply trans_recv_alone.
    + unfold terminate in Hstep.
      destruct (leave _ _ _) as [R|] eqn:HR; [|done]. injection Hstep as <-.
      by eapply trans_recv_raise.
Qed.

Lemma trans_inv st lbl st' : Inv st → trans st lbl st' → Inv st'.
Proof.
  intros Hinv Ht. pose proof Hinv as [Hwf Hcoh Htr].
  assert (Hpeer : ∀ ws h l o peer i i',
    handlers st !! ws = Some h → in_loop (h_pc h) = Some l →
    heap (reg st) !! l = Some o → next_peer ws (peers o) i = Some (peer, i') →
    is_Some (handlers st !! peer)).
  { intros ws h l o peer i i' Hh Hin Ho [Hel _]%next_peer_elem.
    destruct (coh_loop _ Hcoh _ _ _ Hh Hin) as (sid & o' & _ & Hs & Ho' & _).
    assert (o' = o) as -> by congruence.
    destruct (coh_peer _ Hcoh _ _ _ _ Hs Ho Hel) as (h0 & Hh0 & _). eauto. }
  destruct Ht.
  - by apply inv_reject.
  - by apply inv_create.
  - eapply (inv_append _ _ _ _ (Session [first_peer] false)); try done.
    right. eauto.
  - eapply (inv_append _ _ _ _ (Session ps true) _ []); try done.
    left. eauto.
  - rewrite <- (app_nil_r (trace st)).
    eapply inv_move; try done.
    + by rewrite H0.
    + intros e He. by apply elem_of_nil in He.
  - assert (Hin : in_loop (h_pc h) = Some l) by (by rewrite H0).
    eapply inv_move; try done.
    + intros e [->|He]%elem_of_cons; [eauto|].
      apply list_elem_of_singleton in He as ->. right. exists peer, data.
      split_and!; [done|by eapply Hpeer|]. rewrite elem_of_app. right.
      apply elem_of_cons. by left.
    + intros d i' [= <- <-]. rewrite elem_of_app. right.
      apply elem_of_cons. by left.
  - eapply inv_move; try done.
    + by rewrite H0.
    + intros e He%list_elem_of_singleton. eauto.
  - assert (Hin : in_loop (h_pc h) = Some l) by (by rewrite H0).
    assert (Hrecv : EvRecv ws data ∈ trace st) by (by eapply tr_data).
    eapply inv_move; try done.
    + intros e He%list_elem_of_singleton. right. exists peer, data.
      split_and!; [done|by eapply Hpeer|]. rewrite elem_of_app. by left.
    + intros d i0 [= <- <-]. rewrite elem_of_app. by left.
  - rewrite <- (app_nil_r (trace st)).
    eapply inv_move; try done.
    + by rewrite H0.
    + intros e He. by apply elem_of_nil in He.
  - eapply inv_exit; try done. by rewrite H0.
  - by eapply inv_exit.
Qed.

Lemma inv_init : Inv init.
Proof.
  split; [split|split|split]; simpl; try done.
  all: intros; repeat match goal with
    | H : _ ∈ [] |- _ => by apply elem_of_nil in H
    | H : _ !! _ = Some _ |- _ => by rewrite lookup_empty in H
    end.
Qed.

Lemma step_inv st lbl st' : Inv st → step st lbl = Some st' → Inv st'.
Proof. intros Hinv Hstep. eapply trans_inv; [done|]. by apply step_trans. Qed.

Lemma reachable_inv st : reachable st → Inv st.
Proof.
  induction 1 as [|st lbl st' _ IH Hstep]; [apply inv_init|].
  by eapply step_inv.
Qed.

Lemma run_inv ls st st' : Inv st → run ls st = Some st' → Inv st'.
Proof.
  revert st; induction ls as [|lbl ls IH]; intros st Hinv; simpl.
  - by intros [= <-].
  - destruct (step st lbl) as [st1|] eqn:Hstep; [|done]. simpl.
    apply IH. by eapply step_inv.
Qed.

Lemma run_reachable ls st st' :
  reachable st → run ls st = Some st' → reachable st'.
Proof.
  revert st; induction ls as [|lbl ls IH]; intros st Hr; simpl.
  - by intros [= <-].
  - destruct (step st lbl) as [st1|] eqn:Hstep; [|done]. simpl.
    apply IH. by eapply reachable_step.
Qed.

(** ** Rejected paths *)

(** C8. For a request path that does not start with [/v1/ooo/] the handler
    ends at once (line 30, then a [finally] block that does nothing since
    [session_id] is still [None]): the step exists, the registry and the
    trace of joins, sends and receives are what they were, the handler is
    finished and can never be resumed. *)
Theorem rejected_path_no_effect st ws path :
  handlers st !! ws = None →
  Str.startswith path url_prefix = false →
  ∃ st', step st (Connect ws path) = Some st' ∧
    reg st' = reg st ∧
    trace st' = trace st ∧
    handlers st' !! ws = Some (Handler (Frame path None) (Done Returned)) ∧
    (∀ ws', ws' ≠ ws → handlers st' !! ws' = handlers st !! ws') ∧
    (∀ r, step st' (SendDone ws r) = None) ∧
    (∀ r, step st' (Recv ws r) = None).
Proof.
  intros Hfresh Hpre. eexists. split.
  { simpl. rewrite Hfresh. by apply connect_reject. }
  simpl. split_and!; [done|done|apply set_pc_lookup_eq| | |].
  - intros ws' Hne. by apply set_pc_lookup_ne.
  - intros r. rewrite set_pc_lookup_eq. simpl. by destruct r.
  - intros r. rewrite set_pc_lookup_eq. simpl. by destruct r.
Qed.

Lemma rejected_path_no_effect_witness :
  ∃ st', step init (Connect 0 "/other/path") = Some st' ∧
    reg st' = reg init ∧
    trace st' = trace init ∧
    handlers st' !! 0 = Some (Handler (Frame "/other/path" None) (Done Returned)) ∧
    (∀ ws', ws' ≠ 0 → handlers st' !! ws' = handlers init !! ws') ∧
    (∀ r, step st' (SendDone 0 r) = None) ∧
    (∀ r, step st' (Recv 0 r) = None).
Proof.
  apply (rejected_path_no_effect init 0 "/other/path"); reflexivity.
Defined.

(** ** Session identifiers *)

(** C9. The session identifier of an accepted path is the text after the
    prefix, and it is the key under which the handler's session dict is
    registered; two handlers that are in their loops hold the same session
    dict exactly when their identifiers are equal strings. *)
Theorem session_id_is_exact_suffix st ws1 ws2 h1 h2 l1 l2 sid1 sid2 :
  reachable st →
  handlers st !! ws1 = Some h1 → handlers st !! ws2 = Some h2 →
  in_loop (h_pc h1) = Some l1 → in_loop (h_pc h2) = Some l2 →
  sid1 = Str.last3 (Str.partition (f_path (h_frame h1)) url_prefix) →
  sid2 = Str.last3 (Str.partition (f_path (h_frame h2)) url_prefix) →
  (f_path (h_frame h1) = url_prefix +:+ sid1 ∧
   f_session_id (h_frame h1) = Some sid1 ∧
   sessions (reg st) !! sid1 = Some l1) ∧
  (f_path (h_frame h2) = url_prefix +:+ sid2 ∧
   f_session_id (h_frame h2) = Some sid2 ∧
   sessions (reg st) !! sid2 = Some l2) ∧
  (l1 = l2 ↔ sid1 = sid2).
Proof.
  intros Hr Hh1 Hh2 Hin1 Hin2 -> ->. apply reachable_inv in Hr as Hinv.
  destruct (coh_loop _ (inv_coh _ Hinv) _ _ _ Hh1 Hin1)
    as (s1 & o1 & Hs1 & Hl1 & _).
  destruct (coh_loop _ (inv_coh _ Hinv) _ _ _ Hh2 Hin2)
    as (s2 & o2 & Hs2 & Hl2 & _).
  rewrite (coh_path _ (inv_coh _ Hinv) _ _ _ Hh1 Hs1).
  rewrite (coh_path _ (inv_coh _ Hinv) _ _ _ Hh2 Hs2).
  rewrite !StrFacts.partition_prefix. split_and!; try done.
  split.
  - intros <-. by eapply wf_inj; [apply Hinv|..].
  - intros <-. congruence.
Qed.

(** ** The lookup at the top of the loop *)

(** C10. A handler that is suspended inside its loop has its session id
    registered, at the very dict its local [session] points to, with its
    own connection in the peer list; so [sessions.get(session_id)] at the
    top of the loop finds it, and no handler ever ends on the
    [None]-subscript error of line 42. *)
Theorem loop_lookup_succeeds st :
  reachable st →
  (∀ ws h l,
     handlers st !! ws = Some h → in_loop (h_pc h) = Some l →
     ∃ sid o, f_session_id (h_frame h) = Some sid ∧
       sessions (reg st) !! sid = Some l ∧
       heap (reg st) !! l = Some o ∧ ws ∈ peers o ∧
       loop_top (f_session_id (h_frame h)) (reg st) = Some (TopRecv l)) ∧
  (∀ ws h, handlers st !! ws = Some h → h_pc h ≠ Done NoneSubscript).
Proof.
  intros Hinv%reachable_inv. split.
  - intros ws h l Hh Hin.
    destruct (coh_loop _ (inv_coh _ Hinv) _ _ _ Hh Hin)
      as (sid & o & Hsid & Hs & Ho & Hws).
    exists sid, o. split_and!; try done.
    rewrite Hsid. by eapply loop_top_recv; [apply Hinv|..].
  - apply Hinv.
Qed.

Lemma exec_reachable ls : reachable (exec ls).
Proof.
  unfold exec. destruct (run ls init) as [st|] eqn:Hrun; simpl.
  - eapply run_reachable; [apply reachable_init|done].
  - apply reachable_init.
Qed.

Lemma session_id_is_exact_suffix_witness :
  let st := exec [Connect 0 "/v1/ooo/abc"; Connect 1 "/v1/ooo/ABC"] in
  let h1 := Handler (Frame "/v1/ooo/abc" (Some "abc")) (AwaitRecv 0) in
  let h2 := Handler (Frame "/v1/ooo/ABC" (Some "ABC")) (AwaitRecv 1) in
  (handlers st !! 0 = Some h1 ∧ handlers st !! 1 = Some h2) ∧
  (sessions (reg st) !! "abc" = Some 0 ∧ sessions (reg st) !! "ABC" = Some 1) ∧
  (0 = 1 ↔ "abc" = "ABC").
Proof.
  intros st h1 h2.
  assert (handlers st !! 0 = Some h1) as H1 by (vm_compute; reflexivity).
  assert (handlers st !! 1 = Some h2) as H2 by (vm_compute; reflexivity).
  destruct (session_id_is_exact_suffix st 0 1 h1 h2 0 1 "abc" "ABC"
              (exec_reachable _) H1 H2 eq_refl eq_refl eq_refl eq_refl)
    as ((_ & _ & Hs1) & (_ & _ & Hs2) & Hiff).
  split_and!; assumption.
Defined.

Lemma loop_lookup_succeeds_witness :
  let st := exec [Connect 0 "/v1/ooo/abc"; Connect 1 "/v1/ooo/abc";
                  Recv 0 (inr ConnectionClosedError)] in
  (∀ ws h l,
     handlers st !! ws = Some h → in_loop (h_pc h) = Some l →
     ∃ sid o, f_session_id (h_frame h) = Some sid ∧
       sessions (reg st) !! sid = Some l ∧
       heap (reg st) !! l = Some o ∧ ws ∈ peers o ∧
       loop_top (f_session_id (h_frame h)) (reg st) = Some (TopRecv l)) ∧
  (∀ ws h, handlers st !! ws = Some h → h_pc h ≠ Done NoneSubscript).
Proof.
  intros st. exact (loop_lookup_succeeds st (exec_reachable _)).
Defined.

(** ** No empty session *)

Lemma session_at_Some R sid o :
  session_at R sid = Some o ↔
  ∃ l, sessions R !! sid = Some l ∧ heap R !! l = Some o.
Proof.
  unfold session_at. destruct (sessions R !! sid) as [l|]; simpl.
  - split; [eauto|]. by intros (? & [= <-] & ?).
  - split; [done|]. by intros (? & ? & ?).
Qed.

Lemma wf_no_empty R : wf_registry R → no_empty_session R.
Proof.
  intros Hwf sid o (l & Hs & Ho)%session_at_Some.
  pose proof (wf_nonempty _ Hwf _ _ _ Hs Ho). destruct (peers o); simpl; [done|lia].
Qed.

Lemma join_no_empty R sid ws R' b :
  wf_registry R → join sid ws R = Some (R', b) → no_empty_session R'.
Proof.
  intros Hwf Hjoin s o (l & Hs & Ho)%session_at_Some. unfold join in Hjoin.
  destruct (sessions R !! sid) as [l0|] eqn:Hsid; simpl in Hjoin.
  - destruct (heap R !! l0) as [o0|] eqn:Ho0; [|done]. simpl in Hjoin.
    injection Hjoin as <- <-. simpl in Hs.
    rewrite (set_session_lookup _ _ _ _ l Ho0) in Ho. case_decide.
    + injection Ho as <-. simpl. rewrite length_app. simpl. lia.
    + eapply (wf_no_empty _ Hwf s). apply session_at_Some. eauto.
  - injection Hjoin as <- <-. simpl in *.
    apply lookup_insert_Some in Hs as [[-> <-]|[Hne Hs]].
    + rewrite lookup_app_r, Nat.sub_diag in Ho by done.
      injection Ho as <-. simpl. lia.
    + destruct (wf_alloc _ Hwf _ _ Hs) as [o' Ho'].
      rewrite lookup_app_l in Ho by (by eapply lookup_lt_Some).
      eapply (wf_no_empty _ Hwf s). apply session_at_Some. eauto.
Qed.

(** [leave] when the connection is not in the session's peer list. *)
Lemma leave_absent R sid ws l o :
  sessions R !! sid = Some l → heap R !! l = Some o →
  ws ∉ peers o → peers o ≠ [] →
  leave (Some sid) ws R = Some R.
Proof.
  intros Hs Ho Hws Hne. unfold leave, truthy.
  destruct (negb (String.eqb sid "")); [|done]. rewrite Hs, Ho. simpl.
  rewrite bool_decide_eq_false_2 by done. rewrite Ho. simpl.
  by destruct (peers o).
Qed.

Lemma leave_unregistered R sid ws :
  sessions R !! sid = None → leave (Some sid) ws R = Some R.
Proof.
  intros Hs. unfold leave, truthy.
  destruct (negb (String.eqb sid "")); [|done]. by rewrite Hs.
Qed.

(** [leave], whatever its arguments, on a well-formed registry. *)
Lemma leave_cases R session_id ws R' :
  wf_registry R → leave session_id ws R = Some R' →
  R' = R ∨
  ∃ sid l o, session_id = Some sid ∧ sid ≠ "" ∧
    sessions R !! sid = Some l ∧ heap R !! l = Some o ∧ ws ∈ peers o ∧
    R' = Registry
           (if decide (remove_first ws (peers o) = [])
            then delete sid (sessions R) else sessions R)
           (<[l := Session (remove_first ws (peers o)) (started o)]> (heap R)).
Proof.
  intros Hwf Hleave. destruct session_id as [sid|]; [|left; by injection Hleave].
  destruct (decide (sid = "")) as [->|Hne]; [left; by injection Hleave|].
  destruct (sessions R !! sid) as [l|] eqn:Hs.
  2:{ rewrite leave_unregistered in Hleave by done. left. by injection Hleave. }
  destruct (wf_alloc _ Hwf _ _ Hs) as [o Ho].
  destruct (decide (ws ∈ peers o)) as [Hws|Hws].
  - rewrite (leave_in_session _ _ _ _ _ Hs Ho Hws Hne) in Hleave.
    injection Hleave as <-. right. by exists sid, l, o.
  - rewrite (leave_absent _ _ _ _ _ Hs Ho Hws) in Hleave
      by (by eapply wf_nonempty).
    left. by injection Hleave.
Qed.

Lemma leave_total R session_id ws :
  wf_registry R → is_Some (leave session_id ws R).
Proof.
  intros Hwf. destruct session_id as [sid|]; [|by eexists].
  destruct (decide (sid = "")) as [->|Hne]; [by eexists|].
  destruct (sessions R !! sid) as [l|] eqn:Hs.
  2:{ rewrite leave_unregistered by done. by eexists. }
  destruct (wf_alloc _ Hwf _ _ Hs) as [o Ho].
  destruct (decide (ws ∈ peers o)) as [Hws|Hws].
  - rewrite (leave_in_session _ _ _ _ _ Hs Ho Hws Hne). by eexists.
  - rewrite (leave_absent _ _ _ _ _ Hs Ho Hws) by (by eapply wf_nonempty).
    by eexists.
Qed.

Lemma leave_no_empty R session_id ws R' :
  wf_registry R → leave session_id ws R = Some R' → no_empty_session R'.
Proof.
  intros Hwf Hleave.
  destruct (leave_cases _ _ _ _ Hwf Hleave)
    as [->|(sid & l & o & -> & Hne & Hs & Ho & Hws & ->)];
    [by apply wf_no_empty|].
  intros s o' (l' & Hs' & Ho')%session_at_Some. simpl in *.
  assert (sessions R !! s = Some l' ∧
          (s = sid → remove_first ws (peers o) ≠ [])) as [Hs0 Hnil].
  { destruct (decide (remove_first ws (peers o) = [])).
    - apply lookup_delete_Some in Hs' as [? ?]. split; [done|]. congruence.
    - done. }
  pose proof (set_session_lookup R l o
    (Session (remove_first ws (peers o)) (started o)) l' Ho) as Hl.
  simpl in Hl. rewrite Hl in Ho'. case_decide.
  - subst l'. injection Ho' as <-. simpl.
    assert (s = sid) as -> by (by eapply wf_inj).
    specialize (Hnil eq_refl). destruct (remove_first ws (peers o)); simpl; [done|lia].
  - eapply (wf_no_empty _ Hwf s). apply session_at_Some. eauto.
Qed.

(** C6. In every state the server can be in between two handler steps, no
    registered session has an empty peer list (its size is a natural
    number, at least 1); and this is what [join] and [leave] hand back
    whatever session id and connection they are called with. *)
Theorem no_session_without_peers st :
  reachable st →
  no_empty_session (reg st) ∧
  (∀ sid ws R b, join sid ws (reg st) = Some (R, b) → no_empty_session R) ∧
  (∀ session_id ws R,
     leave session_id ws (reg st) = Some R → no_empty_session R).
Proof.
  intros Hinv%reachable_inv. pose proof (inv_wf _ Hinv) as Hwf. split_and!.
  - by apply wf_no_empty.
  - intros sid ws R b. by apply join_no_empty.
  - intros session_id ws R. by apply leave_no_empty.
Qed.

Lemma no_session_without_peers_witness :
  let st := exec [Connect 0 "/v1/ooo/abc"; Connect 1 "/v1/ooo/abc";
                  Recv 0 (inr ConnectionClosedError)] in
  session_at (reg st) "abc" = Some (Session [1] true) ∧
  no_empty_session (reg st) ∧
  (∀ sid ws R b, join sid ws (reg st) = Some (R, b) → no_empty_session R) ∧
  (∀ session_id ws R,
     leave session_id ws (reg st) = Some R → no_empty_session R).
Proof.
  intros st. split; [vm_compute; reflexivity|].
  exact (no_session_without_peers st (exec_reachable _)).
Defined.

(** ** Leaving twice *)

(** C7. On the registry of any state the server can be in, [leave] returns
    (there is no error outcome), a second [leave] for the same session id
    and connection gives back the registry the first one produced, and
    [leave] for a session id that is not registered changes nothing. *)
Theorem leave_idempotent st session_id ws :
  reachable st →
  ∃ R1, leave session_id ws (reg st) = Some R1 ∧
    leave session_id ws R1 = Some R1 ∧
    (∀ sid, session_id = Some sid → sessions (reg st) !! sid = None →
            R1 = reg st).
Proof.
  intros Hinv%reachable_inv. pose proof (inv_wf _ Hinv) as Hwf.
  destruct (leave_total (reg st) session_id ws Hwf) as [R1 HR1].
  exists R1. split; [done|]. split.
  - destruct (leave_cases _ _ _ _ Hwf HR1)
      as [->|(sid & l & o & -> & Hne & Hs & Ho & Hws & ->)].
    + destruct session_id as [sid|]; [|done].
      destruct (decide (sid = "")) as [->|Hne]; [done|].
      destruct (sessions (reg st) !! sid) as [l|] eqn:Hs.
      2:{ by apply leave_unregistered. }
      destruct (wf_alloc _ Hwf _ _ Hs) as [o Ho].
      destruct (decide (ws ∈ peers o)) as [Hws|Hws].
      * rewrite (leave_in_session _ _ _ _ _ Hs Ho Hws Hne) in HR1.
        by rewrite (leave_in_session _ _ _ _ _ Hs Ho Hws Hne).
      * eapply leave_absent; [done..|]. by eapply wf_nonempty.
    + destruct (decide (remove_first ws (peers o) = [])) as [Hnil|Hnn].
      * apply leave_unregistered. simpl. apply lookup_delete_eq.
      * apply (leave_absent _ _ _ l
                 (Session (remove_first ws (peers o)) (started o))); simpl.
        -- done.
        -- apply list_lookup_insert_eq. by eapply lookup_lt_Some.
        -- apply remove_first_notin_after. by eapply wf_nodup.
        -- done.
  - intros sid -> Hs. rewrite leave_unregistered in HR1 by done.
    by injection HR1.
Qed.

Lemma leave_idempotent_witness :
  let st := exec [Connect 0 "/v1/ooo/abc"; Connect 1 "/v1/ooo/abc"] in
  let R1 := Registry {["abc" := 0]} [Session [0] true] in
  leave (Some "abc") 1 (reg st) = Some R1 ∧
  leave (Some "abc") 1 R1 = Some R1 ∧
  ∃ R, leave (Some "abc") 1 (reg st) = Some R ∧
    leave (Some "abc") 1 R = Some R ∧
    (∀ sid, Some "abc" = Some sid → sessions (reg st) !! sid = None →
            R = reg st).
Proof.
  intros st R1. split_and!; [vm_compute; reflexivity..|].
  exact (leave_idempotent st (Some "abc") 1 (exec_reachable _)).
Defined.

(** ** Cleanup on exit *)

(** A handler that is in a session whose id is not the empty string leaves
    it however it is resumed with an exception: afterwards its connection
    is in no registered peer list.  For the empty id the registry is left
    as it was. *)
Lemma cleanup_on_exit st lbl st' ws e :
  reachable st →
  lbl = Recv ws (inr e) ∨ lbl = SendDone ws (Some e) →
  step st lbl = Some st' →
  ∃ h sid, handlers st !! ws = Some h ∧
    f_session_id (h_frame h) = Some sid ∧
    handlers st' !! ws = Some (Handler (h_frame h) (Done (Raised e))) ∧
    (sid ≠ "" → ∀ s o, session_at (reg st') s = Some o → ws ∉ peers o) ∧
    (sid = "" → reg st' = reg st).
Proof.
  intros Hinv%reachable_inv Hlbl Hstep.
  pose proof (step_inv _ _ _ Hinv Hstep) as Hinv'.
  pose proof (step_trans _ _ _ Hinv Hstep) as Ht.
  assert (∃ h l R, handlers st !! ws = Some h ∧ in_loop (h_pc h) = Some l ∧
            leave (f_session_id (h_frame h)) ws (reg st) = Some R ∧
            st' = State R (set_pc ws (h_frame h) (Done (Raised e)) (handlers st))
                        (trace st)) as (h & l & R & Hh & Hin & HR & ->).
  { destruct Hlbl as [-> | ->]; inversion Ht; subst;
      eexists _, _, _; split_and!; try done.
    by match goal with H : h_pc _ = _ |- _ => rewrite H end. }
  destruct (coh_loop _ (inv_coh _ Hinv) _ _ _ Hh Hin)
    as (sid & o & Hsid & Hs & Ho & Hws).
  exists h, sid. split_and!; [done|done|apply set_pc_lookup_eq| |].
  - intros Hne s o' (l' & Hs' & Ho')%session_at_Some Hel.
    destruct (coh_peer _ (inv_coh _ Hinv') _ _ _ _ Hs' Ho' Hel)
      as (h' & Hh' & Hsid' & Hloop).
    simpl in Hh'. rewrite set_pc_lookup_eq in Hh'. injection Hh' as <-.
    simpl in *. assert (s = sid) as -> by congruence.
    by specialize (Hloop Hne).
  - intros ->. simpl. rewrite Hsid, leave_skip in HR. by injection HR.
Qed.

(** C4. A connection that asks for [/v1/ooo/] joins the session whose id is
    the empty string; when it is closed its handler ends with the
    connection still in that session's peer list and the session still
    registered: line 62 tests the truth value of [session_id], and the
    empty string is false. *)
Theorem empty_session_id_is_not_cleaned_up :
  let st := exec [Connect 0 "/v1/ooo/"; Recv 0 (inr ConnectionClosedError)] in
  run [Connect 0 "/v1/ooo/"; Recv 0 (inr ConnectionClosedError)] init = Some st ∧
  handlers st !! 0 =
    Some (Handler (Frame "/v1/ooo/" (Some ""))
                  (Done (Raised ConnectionClosedError))) ∧
  session_at (reg st) "" = Some (Session [0] false) ∧
  leave (Some "") 0 (reg st) = Some (reg st).
Proof. vm_compute. done. Qed.

(** ** A send that fails *)

(** A finished handler stays finished and sends nothing more. *)
Lemma done_is_final st lbl st' ws h c :
  Inv st → step st lbl = Some st' →
  handlers st !! ws = Some h → h_pc h = Done c →
  handlers st' !! ws = Some h ∧
  (∀ k b d, EvSend k ws b d ∈ trace st' → EvSend k ws b d ∈ trace st).
Proof.
  intros Hinv Hstep Hh Hpc.
  pose proof (step_trans _ _ _ Hinv Hstep) as Ht.
  assert (∀ ws0 f p, ws0 ≠ ws → set_pc ws0 f p (handlers st) !! ws = Some h)
    as Hother.
  { intros. by rewrite set_pc_lookup_ne. }
  assert (∀ ws0 h0 l, handlers st !! ws0 = Some h0 →
            in_loop (h_pc h0) = Some l → ws0 ≠ ws) as Hloop.
  { intros ws0 h0 l Hh0 Hin ->. rewrite Hh in Hh0. injection Hh0 as <-.
    by rewrite Hpc in Hin. }
  assert (∀ ws0, handlers st !! ws0 = None → ws0 ≠ ws) as Hfresh.
  { intros ws0 Hh0 ->. congruence. }
  assert (∀ ws0 h0 p l, handlers st !! ws0 = Some h0 → h_pc h0 = p →
            in_loop p = Some l → ws0 ≠ ws) as Hloop'.
  { intros ws0 h0 p l Hh0 <- Hin. by eapply Hloop. }
  inversion Ht; subst; simpl;
    (split; [apply Hother; by eauto|]); try done;
    intros k b d [Hel|Hel]%elem_of_app; try done;
    repeat (apply elem_of_cons in Hel as [Hel|Hel];
            [first [done|injection Hel as -> -> -> ->; exfalso;
                         match goal with
                         | H : handlers _ !! _ = None |- _ =>
                             exact (Hfresh _ H eq_refl)
                         | H : handlers _ !! _ = Some ?h0,
                           H0 : h_pc ?h0 = _ |- _ =>
                             exact (Hloop' _ _ _ _ H H0 eq_refl eq_refl)
                         end]|]);
    by apply elem_of_nil in Hel.
Qed.

Lemma done_stays_final ls st st' ws h c :
  Inv st → run ls st = Some st' →
  handlers st !! ws = Some h → h_pc h = Done c →
  handlers st' !! ws = Some h ∧
  (∀ k b d, EvSend k ws b d ∈ trace st' → EvSend k ws b d ∈ trace st).
Proof.
  revert st; induction ls as [|lbl ls IH]; intros st Hinv; simpl.
  - intros [= <-]. done.
  - destruct (step st lbl) as [st1|] eqn:Hstep; [|done]. simpl.
    intros Hrun Hh Hpc.
    destruct (done_is_final _ _ _ _ _ _ Hinv Hstep Hh Hpc) as [Hh1 Htr1].
    destruct (IH st1 (step_inv _ _ _ Hinv Hstep) Hrun Hh1 Hpc) as [Hh' Htr'].
    split; [done|]. intros k b d Hel. by apply Htr1, Htr'.
Qed.

(** C5, as amended. A send that fails while a broadcast is in progress
    raises out of the [for] loop: the step exists, nothing more is sent in
    it, the sender's handler runs its [finally] block and is finished;
    when its session id is not the empty string the block has removed it
    from its session, so that no registered session lists it any more; it
    cannot be resumed, and no later state of the server has a send by it
    that was not already made; the peers that come after the failing one
    in the list are not sent the message. *)
Theorem send_failure_ends_broadcast st ws h l data i e :
  reachable st →
  handlers st !! ws = Some h →
  h_pc h = AwaitPeerSend l data i →
  ∃ st', step st (SendDone ws (Some e)) = Some st' ∧
    trace st' = trace st ∧
    handlers st' !! ws = Some (Handler (h_frame h) (Done (Raised e))) ∧
    leave (f_session_id (h_frame h)) ws (reg st) = Some (reg st') ∧
    (∃ sid, f_session_id (h_frame h) = Some sid ∧
       (sid ≠ "" → ∀ s o, session_at (reg st') s = Some o → ws ∉ peers o)) ∧
    (∀ r, step st' (SendDone ws r) = None) ∧
    (∀ r, step st' (Recv ws r) = None) ∧
    (∀ ls st'' k b d, run ls st' = Some st'' →
       EvSend k ws b d ∈ trace st'' → EvSend k ws b d ∈ trace st).
Proof.
  intros Hreach Hh Hpc. pose proof (reachable_inv _ Hreach) as Hinv.
  destruct (leave_total (reg st) (f_session_id (h_frame h)) ws (inv_wf _ Hinv))
    as [R HR].
  assert (Hstep : step st (SendDone ws (Some e)) =
            Some (State R (set_pc ws (h_frame h) (Done (Raised e)) (handlers st))
                        (trace st))).
  { simpl. rewrite Hh. simpl. rewrite Hpc. unfold terminate. by rewrite HR. }
  eexists. split; [exact Hstep|]. simpl.
  split_and!; [done|apply set_pc_lookup_eq|done| | | |].
  - destruct (cleanup_on_exit _ _ _ ws e Hreach (or_intror eq_refl) Hstep)
      as (h' & sid & Hh' & Hsid & _ & Hout & _).
    assert (h' = h) as -> by congruence.
    exists sid. split; [done|]. intros Hne s o Hs. by apply (Hout Hne s o).
  - intros r. rewrite set_pc_lookup_eq. simpl. by destruct r.
  - intros r. rewrite set_pc_lookup_eq. simpl. by destruct r.
  - intros ls st'' k b d Hrun Hel.
    pose proof (step_inv _ _ _ Hinv Hstep) as Hinv'.
    eapply (done_stays_final ls _ st'' ws) in Hrun as [_ Htr];
      [|done|apply set_pc_lookup_eq|done].
    by apply Htr in Hel.
Qed.

Lemma send_failure_ends_broadcast_witness :
  let st := exec [Connect 0 "/v1/ooo/abc"; Connect 1 "/v1/ooo/abc";
                  SendDone 1 None; Connect 2 "/v1/ooo/abc";
                  Recv 0 (inl "offer")] in
  let h := Handler (Frame "/v1/ooo/abc" (Some "abc"))
                   (AwaitPeerSend 0 "offer" 2) in
  handlers st !! 0 = Some h ∧
  ∃ st', step st (SendDone 0 (Some OtherException)) = Some st' ∧
    trace st' = trace st ∧
    handlers st' !! 0 = Some (Handler (h_frame h) (Done (Raised OtherException))) ∧
    leave (f_session_id (h_frame h)) 0 (reg st) = Some (reg st') ∧
    (∃ sid, f_session_id (h_frame h) = Some sid ∧
       (sid ≠ "" → ∀ s o, session_at (reg st') s = Some o → 0 ∉ peers o)) ∧
    (∀ r, step st' (SendDone 0 r) = None) ∧
    (∀ r, step st' (Recv 0 r) = None) ∧
    (∀ ls st'' k b d, run ls st' = Some st'' →
       EvSend k 0 b d ∈ trace st'' → EvSend k 0 b d ∈ trace st).
Proof.
  intros st h.
  assert (handlers st !! 0 = Some h) as Hh by (vm_compute; reflexivity).
  split; [exact Hh|].
  exact (send_failure_ends_broadcast st 0 h 0 "offer" 2 OtherException
           (exec_reachable _) Hh eq_refl).
Defined.

(** C5, as stated, fails. Peers 0, 1 and 2 are in session [abc]; 0
    receives [offer] and sends it to 1; that send fails. The handler of 0
    is then finished, and 2, still in the session, is never sent [offer]. *)
Lemma send_failure_not_isolated :
  let st := exec [Connect 0 "/v1/ooo/abc"; Connect 1 "/v1/ooo/abc";
                  SendDone 1 None; Connect 2 "/v1/ooo/abc";
                  Recv 0 (inl "offer")] in
  ∃ st', step st (SendDone 0 (Some ConnectionClosedError)) = Some st' ∧
    session_at (reg st) "abc" = Some (Session [0; 1; 2] true) ∧
    handlers st !! 0 =
      Some (Handler (Frame "/v1/ooo/abc" (Some "abc")) (AwaitPeerSend 0 "offer" 2)) ∧
    handlers st' !! 0 =
      Some (Handler (Frame "/v1/ooo/abc" (Some "abc"))
                    (Done (Raised ConnectionClosedError))) ∧
    session_at (reg st') "abc" = Some (Session [1; 2] true) ∧
    (∀ ls st'', run ls st' = Some st'' →
       EvSend Relay 0 2 "offer" ∉ trace st'').
Proof.
  intros st.
  set (st' := exec [Connect 0 "/v1/ooo/abc"; Connect 1 "/v1/ooo/abc";
                    SendDone 1 None; Connect 2 "/v1/ooo/abc";
                    Recv 0 (inl "offer");
                    SendDone 0 (Some ConnectionClosedError)]).
  exists st'. split_and!; [vm_compute; reflexivity..|].
  intros ls st'' Hrun Hel.
  assert (handlers st' !! 0 =
    Some (Handler (Frame "/v1/ooo/abc" (Some "abc"))
                  (Done (Raised ConnectionClosedError))))
    as Hh by (vm_compute; reflexivity).
  destruct (done_stays_final ls st' st'' 0 _ _
              (reachable_inv _ (exec_reachable _)) Hrun Hh eq_refl)
    as [_ Htr].
  apply Htr in Hel. vm_compute in Hel.
  repeat (apply elem_of_cons in Hel as [Hel|Hel]; [discriminate|]).
  by apply elem_of_nil in Hel.
Qed.

(** ** The [started] flag *)

(** What one step does to the registry: nothing, a new session, one more
    peer in a session (which is started from then on), or one peer fewer
    (and the session gone with its last peer). *)
Lemma step_registry st lbl st' :
  Inv st → step st lbl = Some st' →
  reg st' = reg st ∨
  (∃ ws sid, lbl = Connect ws (url_prefix +:+ sid) ∧
     sessions (reg st) !! sid = None ∧
     reg st' = Registry (<[sid := length (heap (reg st))]> (sessions (reg st)))
                        (heap (reg st) ++ [Session [ws] false])) ∨
  (∃ ws sid l o, lbl = Connect ws (url_prefix +:+ sid) ∧
     sessions (reg st) !! sid = Some l ∧ heap (reg st) !! l = Some o ∧
     (started o = false → length (peers o) = 1) ∧
     reg st' = set_session l (Session (peers o ++ [ws]) true) (reg st)) ∨
  (∃ ws sid l o, sid ≠ "" ∧
     sessions (reg st) !! sid = Some l ∧ heap (reg st) !! l = Some o ∧
     ws ∈ peers o ∧
     reg st' = Registry
       (if decide (remove_first ws (peers o) = [])
        then delete sid (sessions (reg st)) else sessions (reg st))
       (<[l := Session (remove_first ws (peers o)) (started o)]> (heap (reg st)))).
Proof.
  intros Hinv Hstep. pose proof (step_trans _ _ _ Hinv Hstep) as Ht.
  assert (Hleave : ∀ ws session_id R,
    leave session_id ws (reg st) = Some R →
    R = reg st ∨
    ∃ ws sid l o, sid ≠ "" ∧
     sessions (reg st) !! sid = Some l ∧ heap (reg st) !! l = Some o ∧
     ws ∈ peers o ∧
     R = Registry
       (if decide (remove_first ws (peers o) = [])
        then delete sid (sessions (reg st)) else sessions (reg st))
       (<[l := Session (remove_first ws (peers o)) (started o)]> (heap (reg st)))).
  { intros ws session_id R HR.
    destruct (leave_cases _ _ _ _ (inv_wf _ Hinv) HR)
      as [->|(sid & l & o & -> & Hne & Hs & Ho & Hws & ->)]; [by left|].
    right. by exists ws, sid, l, o. }
  inversion Ht; subst; simpl; try (by left).
  - right. left. by exists ws, sid.
  - right. right. left. exists ws, sid, l, (Session [first_peer] false).
    by split_and!.
  - right. right. left. exists ws, sid, l, (Session ps true).
    by split_and!.
  - destruct (Hleave _ _ _ H1) as [->|?]; [by left|]. by right; right; right.
  - destruct (Hleave _ _ _ H2) as [->|?]; [by left|]. by right; right; right.
Qed.

(** C2. A session dict is created with [started] false and one peer; a
    step never takes [started] from true to false; the step that takes it
    from false to true is the one in which the peer count goes from 1 to
    2, and every step in which the count of an unstarted session becomes 2
    sets it; so, along any run, a flag that is true stays true. *)
Theorem started_set_once st :
  reachable st →
  (∀ lbl st', step st lbl = Some st' →
     (∀ l o', heap (reg st) !! l = None → heap (reg st') !! l = Some o' →
        started o' = false ∧ length (peers o') = 1) ∧
     (∀ l o, heap (reg st) !! l = Some o →
        ∃ o', heap (reg st') !! l = Some o' ∧
          (started o = true → started o' = true) ∧
          (started o = false → started o' = true →
             length (peers o) = 1 ∧ length (peers o') = 2)) ∧
     (∀ sid o', session_at (reg st) sid = None →
        session_at (reg st') sid = Some o' →
        started o' = false ∧ length (peers o') = 1) ∧
     (∀ sid o o', session_at (reg st) sid = Some o →
        session_at (reg st') sid = Some o' →
        started o = false →
        (started o' = true ↔ length (peers o') = 2))) ∧
  (∀ ls st' l o, run ls st = Some st' →
     heap (reg st) !! l = Some o → started o = true →
     ∃ o', heap (reg st') !! l = Some o' ∧ started o' = true).
Proof.
  intros Hr.
  assert (Hone : ∀ st lbl st', Inv st → step st lbl = Some st' →
     (∀ l o', heap (reg st) !! l = None → heap (reg st') !! l = Some o' →
        started o' = false ∧ length (peers o') = 1) ∧
     (∀ l o, heap (reg st) !! l = Some o →
        ∃ o', heap (reg st') !! l = Some o' ∧
          (started o = true → started o' = true) ∧
          (started o = false → started o' = true →
             length (peers o) = 1 ∧ length (peers o') = 2)) ∧
     (∀ sid l l', sessions (reg st) !! sid = Some l →
        sessions (reg st') !! sid = Some l' → l' = l) ∧
     (∀ sid l', sessions (reg st) !! sid = None →
        sessions (reg st') !! sid = Some l' → heap (reg st) !! l' = None)).
  { clear st Hr. intros st lbl st' Hinv Hstep.
    pose proof (inv_wf _ Hinv) as Hwf.
    destruct (step_registry _ _ _ Hinv Hstep)
      as [->|[(ws & sid & _ & Hs & ->)|[(ws & sid & l & o & _ & Hs & Ho & Hlen & ->)
          |(ws & sid & l & o & Hne & Hs & Ho & Hws & ->)]]].
    - split_and!.
      + intros; congruence.
      + intros l o Ho. exists o. split_and!; [done..|]. intros; congruence.
      + intros; congruence.
      + intros; congruence.
    - simpl. split_and!.
      + intros l o' Hnone Ho'. apply lookup_ge_None in Hnone.
        apply lookup_app_Some in Ho' as [Ho'|[_ Ho']].
        { apply lookup_lt_Some in Ho'. lia. }
        apply list_lookup_singleton_Some in Ho' as [_ <-]. done.
      + intros l o Ho. exists o. rewrite lookup_app_l by (by eapply lookup_lt_Some).
        split_and!; [done..|]. intros; congruence.
      + intros s l l' Hs0 [[-> <-]|[_ Hs1]]%lookup_insert_Some; congruence.
      + intros s l' Hs0 [[-> <-]|[_ Hs1]]%lookup_insert_Some; [|congruence].
        by apply lookup_ge_None.
    - pose proof (set_session_lookup (reg st) l o
                    (Session (peers o ++ [ws]) true)) as Hl.
      specialize (λ l', Hl l' Ho). split_and!.
      + intros l0 o' Hnone. rewrite Hl. case_decide; congruence.
      + intros l0 o0 Ho0. rewrite Hl. case_decide.
        * subst l0. assert (o0 = o) as -> by congruence.
          eexists. split; [done|]. simpl. split; [done|].
          intros Hst _. rewrite length_app, (Hlen Hst). done.
        * exists o0. split_and!; [done..|]. intros; congruence.
      + simpl. intros; congruence.
      + simpl. intros; congruence.
    - pose proof (set_session_lookup (reg st) l o
                    (Session (remove_first ws (peers o)) (started o))) as Hl.
      specialize (λ l', Hl l' Ho). simpl in Hl. simpl. split_and!.
      + intros l0 o' Hnone. rewrite Hl. case_decide; congruence.
      + intros l0 o0 Ho0. rewrite Hl. case_decide.
        * subst l0. assert (o0 = o) as -> by congruence.
          eexists. split; [done|]. simpl. split; [done|]. intros; congruence.
        * exists o0. split_and!; [done..|]. intros; congruence.
      + intros s l0 l' Hs0. case_decide.
        * intros [_ ?]%lookup_delete_Some. congruence.
        * congruence.
      + intros s l' Hs0. case_decide.
        * intros [_ ?]%lookup_delete_Some. congruence.
        * congruence. }
  split.
  - intros lbl st' Hstep. pose proof (reachable_inv _ Hr) as Hinv.
    pose proof (step_inv _ _ _ Hinv Hstep) as Hinv'.
    destruct (Hone _ _ _ Hinv Hstep) as (HA & HB & HS & HN).
    split_and!; [done|done| |].
    + intros sid o' Hnone (l' & Hs' & Ho')%session_at_Some.
      destruct (sessions (reg st) !! sid) as [l|] eqn:Hs.
      * destruct (wf_alloc _ (inv_wf _ Hinv) _ _ Hs) as [o Ho].
        unfold session_at in Hnone. rewrite Hs in Hnone. simpl in Hnone.
        congruence.
      * eapply HA; [|done]. by eapply HN.
    + intros sid o o' (l & Hs & Ho)%session_at_Some
             (l' & Hs' & Ho')%session_at_Some Hst.
      assert (l' = l) as -> by (by eapply HS).
      destruct (HB _ _ Ho) as (o1 & Ho1 & _ & Hset).
      assert (o1 = o') as -> by congruence. split.
      * intros Hst'. by apply Hset.
      * intros Hlen. destruct (started o') eqn:Hst'; [done|].
        pose proof (wf_unstarted _ (inv_wf _ Hinv') _ _ _ Hs' Ho' Hst'). lia.
  - intros ls. pose proof (reachable_inv _ Hr) as Hinv. clear Hr.
    revert st Hinv. induction ls as [|lbl ls IH]; intros st Hinv st' l o; simpl.
    + intros [= <-] Ho Hst. eauto.
    + destruct (step st lbl) as [st1|] eqn:Hstep; [|done]. simpl.
      intros Hrun Ho Hst.
      destruct (Hone _ _ _ Hinv Hstep) as (_ & HB & _).
      destruct (HB _ _ Ho) as (o1 & Ho1 & Hmono & _).
      eapply (IH st1); [by eapply step_inv|done..|by apply Hmono].
Qed.

Lemma started_set_once_witness :
  let st := exec [Connect 0 "/v1/ooo/abc"] in
  let st' := exec [Connect 0 "/v1/ooo/abc"; Connect 1 "/v1/ooo/abc"] in
  session_at (reg st) "abc" = Some (Session [0] false) ∧
  step st (Connect 1 "/v1/ooo/abc") = Some st' ∧
  session_at (reg st') "abc" = Some (Session [0; 1] true) ∧
  (started (Session [0] false) = false →
   (started (Session [0; 1] true) = true ↔
    length (peers (Session [0; 1] true)) = 2)).
Proof.
  intros st st'.
  assert (session_at (reg st) "abc" = Some (Session [0] false)) as H0
    by (vm_compute; reflexivity).
  assert (step st (Connect 1 "/v1/ooo/abc") = Some st') as Hstep
    by (vm_compute; reflexivity).
  assert (session_at (reg st') "abc" = Some (Session [0; 1] true)) as H1
    by (vm_compute; reflexivity).
  split_and!; [done..|].
  destruct (started_set_once st (exec_reachable _)) as [Hsteps _].
  destruct (Hsteps _ _ Hstep) as (_ & _ & _ & Hiff).
  exact (Hiff "abc" _ _ H0 H1).
Defined.

(** ** The start signal *)

Lemma app_eq_self {A} (l k : list A) : l = l ++ k → k = [].
Proof.
  intros H. apply (f_equal length) in H. rewrite length_app in H.
  destruct k; [done|]. simpl in H. lia.
Qed.




(** ** The relay *)

Lemma others_cons_self ws ps : others ws (ws :: ps) = others ws ps.
Proof. unfold others. by rewrite filter_cons_False by (intros ?; done). Qed.

Lemma others_cons_other ws p ps : p ≠ ws → others ws (p :: ps) = p :: others ws ps.
Proof. intros. unfold others. by rewrite filter_cons_True. Qed.

Lemma scan_others_Some ws l i p i' :
  scan ws l i = Some (p, i') → others ws l = p :: others ws (drop (i' - i) l).
Proof.
  revert i; induction l as [|q l IH]; intros i; simpl; [done|].
  destruct (decide (q = ws)) as [->|Hne].
  - intros H. pose proof (scan_Some _ _ _ _ _ H) as (_ & Hlt & _).
    rewrite others_cons_self, (IH _ H).
    by replace (i' - i) with (S (i' - S i)) by lia.
  - intros [= -> <-]. rewrite others_cons_other by done.
    by replace (S i - i) with 1 by lia.
Qed.

Lemma scan_others_None ws l i : scan ws l i = None → others ws l = [].
Proof.
  revert i; induction l as [|q l IH]; intros i; simpl; [done|].
  destruct (decide (q = ws)) as [->|Hne]; [|done].
  intros H. rewrite others_cons_self. by eapply IH.
Qed.

Lemma next_peer_others_Some ws ps i p i' :
  next_peer ws ps i = Some (p, i') →
  others ws (drop i ps) = p :: others ws (drop i' ps).
Proof.
  unfold next_peer. intros H.
  pose proof (scan_Some _ _ _ _ _ H) as (_ & Hlt & _).
  rewrite (scan_others_Some _ _ _ _ _ H), drop_drop.
  by replace (i + (i' - i)) with i' by lia.
Qed.

Lemma next_peer_others_None ws ps i :
  next_peer ws ps i = None → others ws (drop i ps) = [].
Proof. apply scan_others_None. Qed.

(** A broadcast that is left alone: from the send to one peer on, every
    send succeeds and no other handler runs. *)
Lemma relay_rest k :
  ∀ st ws h l d i o,
    Inv st → handlers st !! ws = Some h →
    h_pc h = AwaitPeerSend l d i → heap (reg st) !! l = Some o →
    others ws (drop i (peers o)) = k →
    ∃ st', run (replicate (S (length k)) (SendDone ws None)) st = Some st' ∧
      trace st' = trace st ++ map (λ b, EvSend Relay ws b d) k ∧
      reg st' = reg st ∧
      handlers st' = set_pc ws (h_frame h) (AwaitRecv l) (handlers st).
Proof.
  induction k as [|p k IH]; intros st ws h l d i o Hinv Hh Hpc Ho Hk.
  - assert (Hin : in_loop (h_pc h) = Some l) by (by rewrite Hpc).
    destruct (relay_spec st ws h l d i (trace st) Hinv Hh Hin)
      as (o' & Ho' & Hrelay).
    assert (o' = o) as -> by congruence.
    destruct (next_peer ws (peers o) i) as [[p i']|] eqn:Hnext.
    { apply next_peer_others_Some in Hnext. congruence. }
    exists (State (reg st) (set_pc ws (h_frame h) (AwaitRecv l) (handlers st))
                  (trace st)).
    simpl. rewrite Hh. simpl. rewrite Hpc.
    destruct st as [R hs tr]. simpl in *. rewrite Hrelay. simpl.
    by rewrite app_nil_r.
  - assert (Hin : in_loop (h_pc h) = Some l) by (by rewrite Hpc).
    destruct (relay_spec st ws h l d i (trace st) Hinv Hh Hin)
      as (o' & Ho' & Hrelay).
    assert (o' = o) as -> by congruence.
    destruct (next_peer ws (peers o) i) as [[p' i']|] eqn:Hnext.
    2:{ apply next_peer_others_None in Hnext. congruence. }
    apply next_peer_others_Some in Hnext. rewrite Hk in Hnext.
    injection Hnext as <- Hk'.
    set (st1 := State (reg st)
                  (set_pc ws (h_frame h) (AwaitPeerSend l d i') (handlers st))
                  (trace st ++ [EvSend Relay ws p d])).
    assert (Hstep : step st (SendDone ws None) = Some st1).
    { simpl. rewrite Hh. simpl. rewrite Hpc.
      destruct st as [R hs tr]. simpl in *. by rewrite Hrelay. }
    destruct (IH st1 ws (Handler (h_frame h) (AwaitPeerSend l d i')) l d i' o)
      as (st' & Hrun & Htr & Hreg & Hhs); try done.
    + by eapply step_inv.
    + apply set_pc_lookup_eq.
    + exists st'. split_and!.
      * change (run (SendDone ws None ::
                       replicate (S (length k)) (SendDone ws None)) st = Some st').
        cbn [run]. rewrite Hstep. done.
      * rewrite Htr. simpl. by rewrite <- app_assoc.
      * done.
      * rewrite Hhs. simpl. unfold set_pc. by rewrite insert_insert_eq.
Qed.

(** ** A broadcast among the steps of other handlers *)

Lemma remove_first_lookup x (l : list conn) kb k :
  NoDup l → l !! kb = Some x →
  remove_first x l !! k = if decide (k < kb) then l !! k else l !! S k.
Proof.
  revert kb k. induction l as [|y l IH]; intros kb k Hnd Hkb; [done|].
  apply NoDup_cons in Hnd as [Hy Hnd]. simpl.
  destruct kb as [|kb]; simpl in Hkb.
  - injection Hkb as ->. rewrite (decide_True (P := x = x)) by done.
    rewrite (decide_False (P := k < 0)) by lia. done.
  - assert (y ≠ x) as Hne.
    { intros ->. apply Hy. by eapply list_elem_of_lookup_2. }
    rewrite (decide_False (P := y = x)) by done.
    destruct k as [|k].
    + by destruct (decide (0 < S kb)); [|lia].
    + pose proof (IH kb k Hnd Hkb) as IHk.
      destruct (decide (k < kb)), (decide (S k < S kb)); try lia; exact IHk.
Qed.

Lemma elem_of_remove_first_1 x y (l : list conn) : y ∈ remove_first x l → y ∈ l.
Proof.
  induction l as [|z l IH]; simpl; [done|].
  destruct (decide (z = x)).
  - intros H. by apply elem_of_cons; right.
  - rewrite !elem_of_cons. intros [?|?]; auto.
Qed.

Lemma scan_skipped ws l i p i' :
  scan ws l i = Some (p, i') →
  ∀ k x, k < i' - 1 - i → l !! k = Some x → x = ws.
Proof.
  revert i; induction l as [|q l IH]; intros i; simpl; [done|].
  destruct (decide (q = ws)) as [->|Hne].
  - intros H k x Hk Hx. destruct k as [|k]; simpl in Hx; [congruence|].
    apply (IH _ H k x); [lia|done].
  - intros [= <- <-] k x Hk. lia.
Qed.

Lemma scan_None_all ws l i :
  scan ws l i = None → ∀ k x, l !! k = Some x → x = ws.
Proof.
  revert i; induction l as [|q l IH]; intros i; simpl; [done|].
  destruct (decide (q = ws)) as [->|Hne]; [|done].
  intros H k x Hx. destruct k as [|k]; simpl in Hx; [congruence|].
  by apply (IH _ H k x).
Qed.

(** Where the iterator goes: a peer at index [i] or later that is not the
    sender is the one sent to next, or is still to come. *)
Lemma next_peer_advance ws ps i q i' k p :
  next_peer ws ps i = Some (q, i') →
  i ≤ k → ps !! k = Some p → p ≠ ws → p = q ∨ i' ≤ k.
Proof.
  intros Hnext Hik Hk Hne.
  pose proof (next_peer_Some _ _ _ _ _ Hnext) as (_ & Hlt & Hq).
  destruct (decide (i' ≤ k)) as [|Hn]; [by right|]. left.
  destruct (decide (k = i' - 1)) as [->|Hk']; [congruence|].
  exfalso. apply Hne. unfold next_peer in Hnext.
  apply (scan_skipped _ _ _ _ _ Hnext (k - i) p); [lia|].
  rewrite lookup_drop. by replace (i + (k - i)) with k by lia.
Qed.

Lemma next_peer_end ws ps i k p :
  next_peer ws ps i = None → i ≤ k → ps !! k = Some p → p = ws.
Proof.
  intros Hnext Hik Hk. unfold next_peer in Hnext.
  apply (scan_None_all _ _ _ Hnext (k - i) p).
  rewrite lookup_drop. by replace (i + (k - i)) with k by lia.
Qed.

(** One step, seen from one session dict. *)
Lemma step_view st lbl st' :
  Inv st → step st lbl = Some st' →
  (∃ f p, handlers st' = set_pc (label_conn lbl) f p (handlers st)) ∧
  (∃ evs, trace st' = trace st ++ evs) ∧
  ∀ l o, heap (reg st) !! l = Some o →
    ∃ o', heap (reg st') !! l = Some o' ∧
      (peers o' = peers o ∨
       (handlers st !! label_conn lbl = None ∧
        peers o' = peers o ++ [label_conn lbl]) ∨
       (∃ hb sid, exit_of lbl = Some (label_conn lbl) ∧
          handlers st !! label_conn lbl = Some hb ∧
          f_session_id (h_frame hb) = Some sid ∧ sid ≠ "" ∧
          label_conn lbl ∈ peers o ∧
          peers o' = remove_first (label_conn lbl) (peers o))).
Proof.
  intros Hinv Hstep. pose proof (step_trans _ _ _ Hinv Hstep) as Ht.
  assert (Hset : ∀ l1 o1 l o, heap (reg st) !! l1 = Some o1 →
            heap (reg st) !! l = Some o →
            ∀ x, ∃ o', <[l1 := x]> (heap (reg st)) !! l = Some o' ∧
              ((l = l1 ∧ o = o1 ∧ o' = x) ∨ (l ≠ l1 ∧ o' = o))).
  { intros l1 o1 l o Ho1 Ho x. destruct (decide (l = l1)) as [->|Hne].
    - exists x. split; [by apply list_lookup_insert_eq; eapply lookup_lt_Some|].
      left. split_and!; congruence.
    - exists o. split; [by rewrite list_lookup_insert_ne|]. by right. }
  assert (Hexit : ∀ ws h R l o,
            handlers st !! ws = Some h →
            leave (f_session_id (h_frame h)) ws (reg st) = Some R →
            exit_of lbl = Some ws → label_conn lbl = ws →
            heap (reg st) !! l = Some o →
            ∃ o', heap R !! l = Some o' ∧
              (peers o' = peers o ∨
               (handlers st !! ws = None ∧ peers o' = peers o ++ [ws]) ∨
               (∃ hb sid, exit_of lbl = Some ws ∧
                  handlers st !! ws = Some hb ∧
                  f_session_id (h_frame hb) = Some sid ∧ sid ≠ "" ∧
                  ws ∈ peers o ∧ peers o' = remove_first ws (peers o)))).
  { intros ws h R l o Hh HR Hex Hlc Ho.
    destruct (leave_cases _ _ _ _ (inv_wf _ Hinv) HR)
      as [->|(sid & l1 & o1 & Hsid & Hne & Hs & Ho1 & Hws & ->)].
    - exists o. by split; [|left].
    - cbn [heap].
      destruct (Hset l1 o1 l o Ho1 Ho
                  (Session (remove_first ws (peers o1)) (started o1)))
        as (o' & Ho' & [(-> & -> & ->)|(Hl & ->)]).
      + eexists. split; [done|]. right. right. by exists h, sid.
      + exists o. by split; [|left]. }
  split_and!.
  - inversion Ht; subst; simpl; by eexists _, _.
  - inversion Ht; subst; simpl; first [by eexists | exists []; by rewrite app_nil_r].
  - intros l o Ho.
    inversion Ht; subst; cbn [reg label_conn heap set_session];
      try (exists o; by split; [|left]).
    + exists o. split; [|by left].
      by rewrite lookup_app_l by (by eapply lookup_lt_Some).
    + destruct (Hset l0 _ l o H1 Ho (Session [first_peer; ws] true))
        as (o' & Ho' & [(-> & -> & ->)|(Hl & ->)]).
      * eexists. split; [done|]. right. left. by split.
      * exists o. by split; [|left].
    + destruct (Hset l0 _ l o H1 Ho (Session (ps ++ [ws]) true))
        as (o' & Ho' & [(-> & -> & ->)|(Hl & ->)]).
      * eexists. split; [done|]. right. left. by split.
      * exists o. by split; [|left].
    + by apply (Hexit ws h R l o).
    + by apply (Hexit ws h R l o).
Qed.

Lemma sent_since_mono n a p d st st' evs :
  trace st' = trace st ++ evs → sent_since n a p d st → sent_since n a p d st'.
Proof.
  intros Htr (j & Hj & Hl). exists j. split; [done|].
  rewrite Htr. by apply lookup_app_l_Some.
Qed.

Lemma sending_Some a st h :
  handlers st !! a = Some h →
  sending a st = true ↔ ∃ l d i, h_pc h = AwaitPeerSend l d i.
Proof.
  intros Hh. unfold sending. rewrite Hh. split.
  - destruct (h_pc h); try done. eauto.
  - by intros (l & d & i & ->).
Qed.

Section broadcast.
Variables (n0 : nat) (a : conn) (l : loc) (d : string) (ps0 : list conn).

Lemma settled_step st lbl st' :
  settled n0 l ps0 st → step st lbl = Some st' → settled n0 l ps0 st'.
Proof.
  intros (Hinv & Hn & Hknown & [o Ho]) Hstep.
  destruct (step_view _ _ _ Hinv Hstep) as ((f & p & Hhs) & (evs & Htr) & Hd).
  split_and!.
  - by eapply step_inv.
  - rewrite Htr, length_app. lia.
  - intros q Hq. rewrite Hhs. apply set_pc_is_Some. auto.
  - destruct (Hd l o Ho) as (o' & Ho' & _). eauto.
Qed.

(** Who is in the list after a step was there before: the peers of [ps0]
    have handlers, so none of them is the connection that joins. *)
Lemma member_before st lbl st' o o' p :
  settled n0 l ps0 st → step st lbl = Some st' →
  heap (reg st) !! l = Some o → heap (reg st') !! l = Some o' →
  p ∈ ps0 → p ∈ peers o' → p ∈ peers o.
Proof.
  intros (Hinv & _ & Hknown & _) Hstep Ho Ho' Hp0 Hin.
  destruct (step_view _ _ _ Hinv Hstep) as (_ & _ & Hd).
  destruct (Hd l o Ho) as (o1 & Ho1 & Hcase).
  assert (o1 = o') as -> by congruence.
  destruct Hcase as [Hsame|[(Hfresh & Happ)|(hb & sid & _ & _ & _ & _ & _ & Hrem)]].
  - by rewrite <- Hsame.
  - rewrite Happ in Hin. apply elem_of_app in Hin as [Hin|Hin]; [done|].
    apply list_elem_of_singleton in Hin as ->.
    destruct (Hknown _ Hp0) as [h Hh]. congruence.
  - rewrite Hrem in Hin. by eapply elem_of_remove_first_1.
Qed.

Lemma all_sent_step st lbl st' :
  settled n0 l ps0 st → all_sent n0 a l d ps0 st → step st lbl = Some st' →
  all_sent n0 a l d ps0 st'.
Proof.
  intros Hset Hall Hstep p o' Ho' Hp0 Hpa Hin.
  pose proof Hset as (Hinv & _ & _ & [o Ho]).
  destruct (step_view _ _ _ Hinv Hstep) as (_ & (evs & Htr) & _).
  eapply sent_since_mono; [done|].
  apply (Hall p o Ho Hp0 Hpa).
  by eapply member_before.
Qed.

Lemma in_progress_step st lbl st' :
  settled n0 l ps0 st → in_progress n0 a l d ps0 st → step st lbl = Some st' →
  fails a lbl = false → skips a ps0 st lbl = false →
  all_sent n0 a l d ps0 st' ∨ in_progress n0 a l d ps0 st'.
Proof.
  intros Hset [Hsend Hcov] Hstep Hfail Hskip.
  pose proof Hset as (Hinv & Hn & Hknown & [o Ho]).
  destruct (step_view _ _ _ Hinv Hstep) as ((f & pc' & Hhs) & (evs & Htr) & Hd).
  destruct (handlers st !! a) as [h|] eqn:Hh;
    [|by unfold sending in Hsend; rewrite Hh in Hsend].
  apply (sending_Some _ _ _ Hh) in Hsend as (l1 & d1 & i & Hpc).
  destruct (decide (label_conn lbl = a)) as [Hact|Hother].
  - (* a step of the loop itself *)
    destruct lbl as [ws path|ws r|ws r]; simpl in Hact; subst ws;
      simpl in Hstep; rewrite Hh in Hstep; simpl in Hstep; [done| |];
      rewrite Hpc in Hstep; [|by destruct r].
    destruct r as [e|].
    { simpl in Hfail. by rewrite bool_decide_eq_true_2 in Hfail. }
    assert (Hin : in_loop (h_pc h) = Some l1) by (by rewrite Hpc).
    destruct (relay_spec st a h l1 d1 i (trace st) Hinv Hh Hin)
      as (o1 & Ho1 & Hrelay).
    assert (State (reg st) (handlers st) (trace st) = st) as Hst
      by (by destruct st).
    rewrite Hst in Hrelay. rewrite Hrelay in Hstep.
    destruct (next_peer a (peers o1) i) as [[q i']|] eqn:Hnext;
      injection Hstep as <-.
    + right. split.
      { unfold sending. cbn [handlers]. by rewrite set_pc_lookup_eq. }
      intros p o' Ho' Hp0 Hpa Hp. cbn [reg] in Ho'.
      destruct (Hcov p o' Ho' Hp0 Hpa Hp)
        as [Hs|(h2 & i2 & o2 & k & Hh2 & Hpc2 & Ho2 & Hik & Hk)].
      * left. eapply sent_since_mono; [|done]. done.
      * assert (h2 = h) as -> by congruence.
        rewrite Hpc in Hpc2. injection Hpc2 as El Ed Ei. subst l1 d1 i2.
        assert (o2 = o') as -> by congruence.
        assert (o1 = o') as -> by congruence.
        destruct (next_peer_advance _ _ _ _ _ _ _ Hnext Hik Hk Hpa) as [->|Hi'].
        -- left. exists (length (trace st)). split; [done|].
           cbn [trace]. by rewrite lookup_app_r, Nat.sub_diag.
        -- right. exists (Handler (h_frame h) (AwaitPeerSend l d i')), i', o', k.
           cbn [handlers reg]. by rewrite set_pc_lookup_eq.
    + left. intros p o' Ho' Hp0 Hpa Hp. cbn [reg] in Ho'.
      destruct (Hcov p o' Ho' Hp0 Hpa Hp)
        as [Hs|(h2 & i2 & o2 & k & Hh2 & Hpc2 & Ho2 & Hik & Hk)].
      * eapply sent_since_mono; [|done]. cbn [trace]. by rewrite app_nil_r.
      * assert (h2 = h) as -> by congruence.
        rewrite Hpc in Hpc2. injection Hpc2 as El Ed Ei. subst l1 d1 i2.
        assert (o2 = o') as -> by congruence.
        assert (o1 = o') as -> by congruence.
        by pose proof (next_peer_end _ _ _ _ _ Hnext Hik Hk).
  - (* a step of another handler *)
    assert (handlers st' !! a = Some h) as Hh'.
    { rewrite Hhs, set_pc_lookup_ne by done. done. }
    right. split; [apply (sending_Some _ _ _ Hh'); eauto|].
    intros p o' Ho' Hp0 Hpa Hp.
    assert (p ∈ peers o) as Hpo by (by eapply member_before).
    destruct (Hcov p o Ho Hp0 Hpa Hpo)
      as [Hs|(h2 & i2 & o2 & k & Hh2 & Hpc2 & Ho2 & Hik & Hk)].
    { left. by eapply sent_since_mono. }
    assert (h2 = h) as -> by congruence.
    rewrite Hpc in Hpc2. injection Hpc2 as El Ed Ei. subst l1 d1 i2.
    assert (o2 = o) as -> by congruence.
    right.
    destruct (Hd l o Ho) as (o1 & Ho1 & Hcase).
    assert (o1 = o') as -> by congruence.
    destruct Hcase as [Hsame|[(Hfresh & Happ)|
      (hb & sid & Hex & Hhb & Hsid & Hne & Hb & Hrem)]].
    + exists h, i, o', k. split_and!; try done. by rewrite Hsame.
    + exists h, i, o', k. split_and!; try done.
      rewrite Happ. by apply lookup_app_l_Some.
    + assert (Hin : in_loop (h_pc h) = Some l) by (by rewrite Hpc).
      destruct (coh_loop _ (inv_coh _ Hinv) _ _ _ Hh Hin)
        as (sa & oa & _ & Hsa & Hoa & _).
      assert (oa = o) as -> by congruence.
      pose proof (wf_nodup _ (inv_wf _ Hinv) _ _ _ Hsa Hoa) as Hnd.
      apply list_elem_of_lookup_1 in Hb as [kb Hkb].
      assert (p ≠ label_conn lbl) as Hpb.
      { rewrite Hrem in Hp. apply elem_of_remove_first in Hp; tauto. }
      assert (k ≠ kb) as Hkkb by (intros ->; congruence).
      pose proof (remove_first_lookup (label_conn lbl) (peers o) kb) as Hlk.
      destruct (decide (k < kb)) as [Hlt|Hge].
      * exists h, i, o', k. split_and!; try done.
        rewrite Hrem, (Hlk k Hnd Hkb). by rewrite decide_True.
      * exists h, i, o', (k - 1). split_and!; try done.
        -- destruct (decide (i ≤ kb)) as [|Hbehind]; [lia|].
           destruct (decide (k = i)) as [->|]; [|lia].
           exfalso. unfold skips in Hskip.
           rewrite Hh, Hex, Hpc, Hhb, Ho, Hk, Hsid in Hskip.
           rewrite (bool_decide_eq_false_2 (Some sid = Some "")) in Hskip
             by congruence.
           rewrite (bool_decide_eq_true_2 (label_conn lbl ∈ take i (peers o)))
             in Hskip by (apply elem_of_take; exists kb; split; [done|lia]).
           rewrite !bool_decide_eq_true_2 in Hskip by done.
           done.
        -- rewrite Hrem, (Hlk (k - 1) Hnd Hkb).
           rewrite decide_False by lia.
           by replace (S (k - 1)) with k by lia.
Qed.

Lemma run_undisturbed ls st st' :
  settled n0 l ps0 st →
  all_sent n0 a l d ps0 st ∨
    (in_progress n0 a l d ps0 st ∧ undisturbed a ps0 ls st = true) →
  run ls st = Some st' →
  all_sent n0 a l d ps0 st' ∨ in_progress n0 a l d ps0 st'.
Proof.
  revert st; induction ls as [|lbl ls IH]; intros st Hset Hph; simpl.
  - intros [= <-]. tauto.
  - destruct (step st lbl) as [st1|] eqn:Hstep; [|done]. simpl.
    apply IH; [by eapply settled_step|].
    destruct Hph as [Hall|[Hprog Hund]].
    + left. by eapply all_sent_step.
    + simpl in Hund. rewrite (proj1 Hprog), Hstep in Hund.
      apply andb_true_iff in Hund as [Hund Hrest].
      apply andb_true_iff in Hund as [Hf Hs].
      apply negb_true_iff in Hf, Hs.
      destruct (in_progress_step _ _ _ Hset Hprog Hstep Hf Hs); auto.
Qed.

End broadcast.

(** The broadcast a received message starts, at its first await. *)
Lemma recv_starts_broadcast st a h l o d st1 :
  Inv st → handlers st !! a = Some h → h_pc h = AwaitRecv l →
  heap (reg st) !! l = Some o →
  step st (Recv a (inl d)) = Some st1 →
  settled (length (trace st)) l (peers o) st1 ∧
  (all_sent (length (trace st)) a l d (peers o) st1 ∨
   in_progress (length (trace st)) a l d (peers o) st1).
Proof.
  intros Hinv Hh Hpc Ho Hstep.
  assert (Hin : in_loop (h_pc h) = Some l) by (by rewrite Hpc).
  destruct (coh_loop _ (inv_coh _ Hinv) _ _ _ Hh Hin)
    as (sid & o1 & Hsid & Hs & Ho1 & _).
  assert (o1 = o) as -> by congruence.
  assert (settled (length (trace st)) l (peers o) st) as Hset.
  { split_and!; [done|done| |eauto].
    intros p Hp.
    destruct (coh_peer _ (inv_coh _ Hinv) _ _ _ _ Hs Ho Hp) as (hp & Hhp & _).
    eauto. }
  split; [by eapply settled_step|].
  destruct (relay_spec st a h l d 0 (trace st ++ [EvRecv a d]) Hinv Hh Hin)
    as (o' & Ho' & Hrelay).
  assert (o' = o) as -> by congruence.
  simpl in Hstep. rewrite Hh in Hstep. simpl in Hstep. rewrite Hpc in Hstep.
  rewrite Hrelay in Hstep.
  destruct (next_peer a (peers o) 0) as [[q i']|] eqn:Hnext;
    injection Hstep as <-.
  - right. split.
    { unfold sending. cbn [handlers]. by rewrite set_pc_lookup_eq. }
    intros p o2 Ho2 Hp0 Hpa Hp. cbn [reg] in Ho2.
    assert (o2 = o) as -> by congruence.
    apply list_elem_of_lookup_1 in Hp as [k Hk].
    destruct (next_peer_advance _ _ _ _ _ _ _ Hnext (Nat.le_0_l k) Hk Hpa)
      as [->|Hi'].
    + left. exists (S (length (trace st))). split; [lia|].
      cbn [trace]. rewrite <- app_assoc. simpl.
      rewrite lookup_app_r by lia.
      by replace (S (length (trace st)) - length (trace st)) with 1 by lia.
    + right. exists (Handler (h_frame h) (AwaitPeerSend l d i')), i', o, k.
      cbn [handlers reg]. by rewrite set_pc_lookup_eq.
  - left. intros p o2 Ho2 Hp0 Hpa Hp. cbn [reg] in Ho2.
    assert (o2 = o) as -> by congruence.
    apply list_elem_of_lookup_1 in Hp as [k Hk].
    by pose proof (next_peer_end _ _ _ _ _ Hnext (Nat.le_0_l k) Hk).
Qed.

(** C3, as amended. (1) Every relayed send goes to a connection other than
    the sender that is, at the time of the send, in the peer list of the
    sender's session, and carries a message the sender received. (2) When
    a handler receives a message and then all its sends succeed while no
    other handler runs, what is sent is that message, once to each other
    peer of the list, in list order, after which the handler is back at
    [recv] with the registry as it was. (3) Whatever the other handlers do
    meanwhile (steps in other sessions, joins, departures), as long as,
    while the loop is on, no send of it fails and no step removes a peer
    from before the iterator at a moment when a peer that was in the list
    at the receipt, other than the sender, is at the iterator's index:
    every other peer that was in the list when the message was received
    and is in it now has been sent the message since, or the loop is still
    on and its iterator has yet to come to that peer; so once the loop is
    over, every such peer has been sent the message. *)
Theorem relay_to_session_peers st :
  reachable st →
  (∀ lbl st' evs a b d,
     step st lbl = Some st' → trace st' = trace st ++ evs →
     EvSend Relay a b d ∈ evs →
     b ≠ a ∧ EvRecv a d ∈ trace st' ∧
     ∃ h l sid o, handlers st !! a = Some h ∧
       in_loop (h_pc h) = Some l ∧
       f_session_id (h_frame h) = Some sid ∧
       sessions (reg st) !! sid = Some l ∧
       heap (reg st) !! l = Some o ∧ b ∈ peers o ∧
       (lbl = Recv a (inl d) ∨
        (lbl = SendDone a None ∧ ∃ i, h_pc h = AwaitPeerSend l d i))) ∧
  (∀ a h l o d,
     handlers st !! a = Some h → h_pc h = AwaitRecv l →
     heap (reg st) !! l = Some o →
     ∃ st',
       run (Recv a (inl d) ::
            replicate (length (others a (peers o))) (SendDone a None)) st
         = Some st' ∧
       trace st' = trace st ++
         EvRecv a d :: map (λ b, EvSend Relay a b d) (others a (peers o)) ∧
       reg st' = reg st ∧
       handlers st' = set_pc a (h_frame h) (AwaitRecv l) (handlers st)) ∧
  (∀ a h l o d st1 ls st',
     handlers st !! a = Some h → h_pc h = AwaitRecv l →
     heap (reg st) !! l = Some o →
     step st (Recv a (inl d)) = Some st1 →
     run ls st1 = Some st' →
     undisturbed a (peers o) ls st1 = true →
     ∀ p o', heap (reg st') !! l = Some o' →
       p ∈ peers o → p ≠ a → p ∈ peers o' →
       sent_since (length (trace st)) a p d st' ∨
       (sending a st' = true ∧ ahead a l d p st')).
Proof.
  intros Hinv%reachable_inv. split_and!.
  - intros lbl st' evs a b d Hstep Htr Hel.
    pose proof (step_inv _ _ _ Hinv Hstep) as Hinv'.
    pose proof (step_trans _ _ _ Hinv Hstep) as Ht.
    assert (∃ h l o i i', handlers st !! a = Some h ∧
              in_loop (h_pc h) = Some l ∧ heap (reg st) !! l = Some o ∧
              next_peer a (peers o) i = Some (b, i') ∧
              EvRecv a d ∈ trace st' ∧
              (lbl = Recv a (inl d) ∨
               (lbl = SendDone a None ∧ ∃ i, h_pc h = AwaitPeerSend l d i)))
      as (h & l & o & i & i' & Hh & Hin & Ho & Hnext & Hrecv & Hlbl).
    { inversion Ht; subst; simpl in Htr;
        first [apply app_eq_self in Htr | apply app_inv_head in Htr];
        subst evs;
        repeat (apply elem_of_cons in Hel as [Hel|Hel]; [try done|]);
        try (by apply elem_of_nil in Hel);
        injection Hel as -> -> ->.
      - exists h, l, o, 0, i. split_and!; try done; [by rewrite H0| |by left].
        simpl. rewrite elem_of_app. right. apply elem_of_cons. by left.
      - exists h, l, o, i, i'. split_and!; try done; [by rewrite H0| |].
        + simpl. rewrite elem_of_app. left.
          by eapply (tr_data _ (inv_tr _ Hinv)).
        + right. eauto. }
    destruct (coh_loop _ (inv_coh _ Hinv) _ _ _ Hh Hin)
      as (sid & o' & Hsid & Hs & Ho' & _).
    assert (o' = o) as -> by congruence.
    apply next_peer_elem in Hnext as [Hb Hne].
    split_and!; [done..|]. by exists h, l, sid, o.
  - intros a h l o d Hh Hpc Ho.
    assert (Hin : in_loop (h_pc h) = Some l) by (by rewrite Hpc).
    destruct (relay_spec st a h l d 0 (trace st ++ [EvRecv a d]) Hinv Hh Hin)
      as (o' & Ho' & Hrelay).
    assert (o' = o) as -> by congruence.
    assert (Hstep : step st (Recv a (inl d)) =
              relay a (h_frame h) l d 0
                (State (reg st) (handlers st) (trace st ++ [EvRecv a d]))).
    { simpl. rewrite Hh. simpl. by rewrite Hpc. }
    rewrite Hrelay in Hstep.
    destruct (next_peer a (peers o) 0) as [[p i']|] eqn:Hnext.
    + pose proof (next_peer_others_Some _ _ _ _ _ Hnext) as Hk.
      rewrite drop_0 in Hk.
      rewrite Hk.
      destruct (relay_rest (others a (drop i' (peers o))) _ a
                  (Handler (h_frame h) (AwaitPeerSend l d i')) l d i' o
                  (step_inv _ _ _ Hinv Hstep))
        as (st' & Hrun & Htr & Hreg & Hhs); try done.
      { apply set_pc_lookup_eq. }
      exists st'. split_and!.
      * cbn [run length]. rewrite Hstep. done.
      * rewrite Htr. simpl. by rewrite <- !app_assoc.
      * done.
      * rewrite Hhs. simpl. unfold set_pc. by rewrite insert_insert_eq.
    + pose proof (next_peer_others_None _ _ _ Hnext) as Hk.
      rewrite drop_0 in Hk.
      rewrite Hk.
      exists (State (reg st) (set_pc a (h_frame h) (AwaitRecv l) (handlers st))
                    (trace st ++ [EvRecv a d])).
      cbn [run length replicate]. rewrite Hstep. done.
  - intros a h l o d st1 ls st' Hh Hpc Ho Hstep Hrun Hund p o' Ho' Hp Hpa Hp'.
    destruct (recv_starts_broadcast st a h l o d st1 Hinv Hh Hpc Ho Hstep)
      as [Hset Hph].
    assert (all_sent (length (trace st)) a l d (peers o) st' ∨
            in_progress (length (trace st)) a l d (peers o) st') as [Hall|[Hs Hcov]].
    { eapply run_undisturbed; [exact Hset| |exact Hrun]. tauto. }
    + left. by apply (Hall p o').
    + destruct (Hcov p o' Ho' Hp Hpa Hp'); auto.
Qed.

Lemma relay_to_session_peers_witness :
  let st := exec [Connect 0 "/v1/ooo/abc"; Connect 1 "/v1/ooo/abc";
                  SendDone 1 None; Connect 2 "/v1/ooo/abc";
                  Connect 3 "/v1/ooo/xyz"] in
  let h := Handler (Frame "/v1/ooo/abc" (Some "abc")) (AwaitRecv 0) in
  let o := Session [0; 1; 2] true in
  let ls := [Recv 3 (inl "hello"); SendDone 2 None;
             Connect 4 "/v1/ooo/abc"; Recv 0 (inr ConnectionClosedError);
             SendDone 2 None; SendDone 2 None] in
  let st' := exec [Connect 0 "/v1/ooo/abc"; Connect 1 "/v1/ooo/abc";
                   SendDone 1 None; Connect 2 "/v1/ooo/abc";
                   Connect 3 "/v1/ooo/xyz"; Recv 2 (inl "offer");
                   Recv 3 (inl "hello"); SendDone 2 None;
                   Connect 4 "/v1/ooo/abc"; Recv 0 (inr ConnectionClosedError);
                   SendDone 2 None; SendDone 2 None] in
  (handlers st !! 0 = Some h ∧
   heap (reg st) !! 0 = Some o ∧
   others 0 (peers o) = [1; 2] ∧
   ∃ st2,
     run (Recv 0 (inl "offer") ::
          replicate (length (others 0 (peers o))) (SendDone 0 None)) st
       = Some st2 ∧
     trace st2 = trace st ++
       EvRecv 0 "offer" :: map (λ b, EvSend Relay 0 b "offer") (others 0 (peers o)) ∧
     reg st2 = reg st ∧
     handlers st2 = set_pc 0 (h_frame h) (AwaitRecv 0) (handlers st)) ∧
  (handlers st !! 2 = Some h ∧
   undisturbed 2 (peers o) ls (exec [Connect 0 "/v1/ooo/abc"; Connect 1 "/v1/ooo/abc";
                  SendDone 1 None; Connect 2 "/v1/ooo/abc";
                  Connect 3 "/v1/ooo/xyz"; Recv 2 (inl "offer")]) = true ∧
   heap (reg st') !! 0 = Some (Session [1; 2; 4] true) ∧
   sending 2 st' = false ∧
   (sent_since (length (trace st)) 2 1 "offer" st' ∨
    (sending 2 st' = true ∧ ahead 2 0 "offer" 1 st'))).
Proof.
  intros st h o ls st'.
  assert (handlers st !! 0 = Some h) as Hh by (vm_compute; reflexivity).
  assert (handlers st !! 2 = Some h) as Hh2 by (vm_compute; reflexivity).
  assert (heap (reg st) !! 0 = Some o) as Ho by (vm_compute; reflexivity).
  destruct (relay_to_session_peers st (exec_reachable _)) as (_ & Hall & Hgen).
  split.
  - split_and!; [done|done|reflexivity|].
    exact (Hall 0 h 0 o "offer" Hh eq_refl Ho).
  - split_and!; [done|vm_compute; reflexivity|vm_compute; reflexivity|
                 vm_compute; reflexivity|].
    apply (Hgen 2 h 0 o "offer"
             (exec [Connect 0 "/v1/ooo/abc"; Connect 1 "/v1/ooo/abc";
                    SendDone 1 None; Connect 2 "/v1/ooo/abc";
                    Connect 3 "/v1/ooo/xyz"; Recv 2 (inl "offer")])
             ls st' Hh2 eq_refl Ho)
      with (o' := Session [1; 2; 4] true).
    + vm_compute. reflexivity.
    + vm_compute. reflexivity.
    + vm_compute. reflexivity.
    + vm_compute. reflexivity.
    + apply elem_of_cons; right. apply elem_of_cons; by left.
    + discriminate.
    + apply elem_of_cons; by left.
Defined.

(** C3, as stated, fails, in two ways.  (1) Peers 0, 1 and 2 are in
    session [abc]; 1 receives [answer] and sends it to 0; that send fails:
    the handler of 1 is finished and 2, still in the session, is never
    sent [answer].  (2) Peers 0, 1, 2 and 3 are in session [abc]; 1
    receives [offer] and sends it to 0, then to 2; while that send is in
    flight the connection of 0 is closed and its handler removes it from
    the list; the list iterator of 1, at index 3, is now past the end of
    [1, 2, 3]: the broadcast is over, every send succeeded, and 3, in the
    session all along, was not sent [offer]. *)
Lemma relay_misses_a_peer :
  (let st := exec [Connect 0 "/v1/ooo/abc"; Connect 1 "/v1/ooo/abc";
                   SendDone 1 None; Connect 2 "/v1/ooo/abc";
                   Recv 1 (inl "answer")] in
   ∃ st', step st (SendDone 1 (Some ConnectionClosedError)) = Some st' ∧
     session_at (reg st) "abc" = Some (Session [0; 1; 2] true) ∧
     session_at (reg st') "abc" = Some (Session [0; 2] true) ∧
     (∀ ls st'', run ls st' = Some st'' →
        EvSend Relay 1 2 "answer" ∉ trace st'')) ∧
  (let st := exec [Connect 0 "/v1/ooo/abc"; Connect 1 "/v1/ooo/abc";
                   SendDone 1 None; Connect 2 "/v1/ooo/abc";
                   Connect 3 "/v1/ooo/abc"] in
   ∃ st',
     run [Recv 1 (inl "offer"); SendDone 1 None;
          Recv 0 (inr ConnectionClosedError); SendDone 1 None] st = Some st' ∧
     session_at (reg st) "abc" = Some (Session [0; 1; 2; 3] true) ∧
     handlers st !! 1 =
       Some (Handler (Frame "/v1/ooo/abc" (Some "abc")) (AwaitRecv 0)) ∧
     session_at (reg st') "abc" = Some (Session [1; 2; 3] true) ∧
     handlers st' !! 1 =
       Some (Handler (Frame "/v1/ooo/abc" (Some "abc")) (AwaitRecv 0)) ∧
     trace st' = trace st ++
       [EvRecv 1 "offer"; EvSend Relay 1 0 "offer"; EvSend Relay 1 2 "offer"] ∧
     EvSend Relay 1 3 "offer" ∉ trace st').
Proof.
  split.
  - intros st.
    set (st' := exec [Connect 0 "/v1/ooo/abc"; Connect 1 "/v1/ooo/abc";
                      SendDone 1 None; Connect 2 "/v1/ooo/abc";
                      Recv 1 (inl "answer");
                      SendDone 1 (Some ConnectionClosedError)]).
    exists st'. split_and!; [vm_compute; reflexivity..|].
    intros ls st'' Hrun Hel.
    assert (handlers st' !! 1 =
      Some (Handler (Frame "/v1/ooo/abc" (Some "abc"))
                    (Done (Raised ConnectionClosedError))))
      as Hh by (vm_compute; reflexivity).
    destruct (done_stays_final ls st' st'' 1 _ _
                (reachable_inv _ (exec_reachable _)) Hrun Hh eq_refl)
      as [_ Htr].
    apply Htr in Hel. vm_compute in Hel.
    repeat (apply elem_of_cons in Hel as [Hel|Hel]; [discriminate|]).
    by apply elem_of_nil in Hel.
  - intros st.
    set (st' := exec [Connect 0 "/v1/ooo/abc"; Connect 1 "/v1/ooo/abc";
                      SendDone 1 None; Connect 2 "/v1/ooo/abc";
                      Connect 3 "/v1/ooo/abc";
                      Recv 1 (inl "offer"); SendDone 1 None;
                      Recv 0 (inr ConnectionClosedError); SendDone 1 None]).
    exists st'. split_and!; [vm_compute; reflexivity..|].
    intros Hel. vm_compute in Hel.
    repeat (apply elem_of_cons in Hel as [Hel|Hel]; [discriminate|]).
    by apply elem_of_nil in Hel.
Qed.

(** The two runs above are the ones part (3) of the amended claim leaves
    out, and a departure is let through when it is at or after the
    iterator: with peers 0, 1, 2 and 3 and the iterator of 1 at index 3,
    the departure of 0 steps over 3, that of 3 steps over nobody. *)
Example undisturbed_on_the_runs_above :
  undisturbed 1 [0; 1; 2] [SendDone 1 (Some ConnectionClosedError)]
    (exec [Connect 0 "/v1/ooo/abc"; Connect 1 "/v1/ooo/abc";
           SendDone 1 None; Connect 2 "/v1/ooo/abc";
           Recv 1 (inl "answer")]) = false ∧
  undisturbed 1 [0; 1; 2; 3]
    [SendDone 1 None; Recv 0 (inr ConnectionClosedError); SendDone 1 None]
    (exec [Connect 0 "/v1/ooo/abc"; Connect 1 "/v1/ooo/abc";
           SendDone 1 None; Connect 2 "/v1/ooo/abc";
           Connect 3 "/v1/ooo/abc"; Recv 1 (inl "offer")]) = false ∧
  undisturbed 1 [0; 1; 2; 3]
    [SendDone 1 None; Recv 3 (inr ConnectionClosedError); SendDone 1 None]
    (exec [Connect 0 "/v1/ooo/abc"; Connect 1 "/v1/ooo/abc";
           SendDone 1 None; Connect 2 "/v1/ooo/abc";
           Connect 3 "/v1/ooo/abc"; Recv 1 (inl "offer")]) = true.
Proof. split_and!; vm_compute; reflexivity. Qed.

(** ** The endpoint [main] listens on *)

Module MainFacts.
Import Main.

Lemma rsplit1_Some c s before after :
  rsplit1 c s = Some (before, after) →
  s = before +:+ String c after ∧ contains c after = false.
Proof.
  revert before; induction s as [|a s IH]; intros before; simpl; [done|].
  destruct (rsplit1 c s) as [[b' a']|] eqn:Hr.
  - intros [= <- <-]. destruct (IH b' eq_refl) as [-> Hc]. done.
  - destruct (Ascii.eqb a c) eqn:Hac; [|done].
    intros [= <- <-]. apply Ascii.eqb_eq in Hac as ->. split; [done|].
    clear IH. induction s as [|x s IHs]; simpl in *; [done|].
    destruct (rsplit1 c s) as [[? ?]|]; [done|].
    destruct (Ascii.eqb x c); [done|]. simpl. by apply IHs.
Qed.

Lemma rsplit1_None c s : rsplit1 c s = None ↔ contains c s = false.
Proof.
  induction s as [|a s IH]; simpl; [done|].
  destruct (rsplit1 c s) as [[b' a']|].
  - split; [done|]. intros [_ H]%orb_false_iff. by apply IH in H.
  - destruct (Ascii.eqb a c); simpl; [done|]. tauto.
Qed.

Lemma rsplit1_app c before after :
  contains c after = false →
  rsplit1 c (before +:+ String c after) = Some (before, after).
Proof.
  intros Hc. induction before as [|a b IH]; simpl.
  - apply rsplit1_None in Hc as ->. by rewrite Ascii.eqb_refl.
  - by rewrite IH.
Qed.

Lemma contains_app c before after :
  contains c (before +:+ String c after) = true.
Proof.
  induction before as [|a b IH]; simpl.
  - by rewrite Ascii.eqb_refl.
  - rewrite IH. apply orb_true_r.
Qed.

End MainFacts.

(** Whatever the command line and whatever the calls out of the program
    do, lines 73-85 of [main] end in one of three ways. Lines 79-80 raise,
    which needs a second argument that is not empty and fails to load; or
    the [print] of line 84 raises; in both cases no host and no port are
    bound. Or line 85 is reached and its unpacking does not fail: host and
    port are the text before and after the last colon of the endpoint, so
    the port holds no colon; the endpoint is the first argument if that
    holds a colon; and the context holds the second argument, loaded, when
    that is given and not empty, and is [None] otherwise. *)
Theorem main_splits_at_last_colon E argv :
  match Main.main E argv with
  | Main.SslError =>
      ∃ cert, argv !! 2 = Some cert ∧ cert ≠ "" ∧
        Main.load_cert_chain E cert = false
  | Main.PrintError => Main.print_text E (Main.listening argv) = false
  | Main.UnpackError => False
  | Main.Unpacked host port ctx =>
      Main.endpoint argv = host +:+ ":" +:+ port ∧
      Main.contains Main.colon port = false ∧
      (Main.contains Main.colon (Main.endpoint_or_port argv) = true →
       Main.endpoint argv = Main.endpoint_or_port argv) ∧
      (∀ cert, argv !! 2 = Some cert → cert ≠ "" →
         Main.load_cert_chain E cert = true ∧ ctx = Some cert) ∧
      (argv !! 2 = None ∨ argv !! 2 = Some "" → ctx = None) ∧
      Main.print_text E (Main.listening argv) = true
  end.
Proof.
  unfold Main.main.
  destruct (Main.ssl_context E argv) as [ctx|] eqn:Hctx.
  - destruct (Main.print_text E (Main.listening argv)) eqn:Hprint; [|done].
    destruct (Main.rsplit1 Main.colon (Main.endpoint argv))
      as [[host port]|] eqn:Hr.
    + apply MainFacts.rsplit1_Some in Hr as [He Hc].
      split_and!; [done|done| | |..|done].
      * unfold Main.endpoint. by intros ->.
      * intros cert Hcert Hne. unfold Main.ssl_context, Main.ssl_cert in Hctx.
        rewrite Hcert in Hctx. simpl in Hctx.
        apply String.eqb_neq in Hne. rewrite Hne in Hctx. simpl in Hctx.
        destruct (Main.load_cert_chain E cert); [|done]. split; congruence.
      * unfold Main.ssl_context, Main.ssl_cert in Hctx.
        intros [Hn | Hn]; rewrite Hn in Hctx; simpl in Hctx; congruence.
    + apply MainFacts.rsplit1_None in Hr. unfold Main.endpoint in Hr.
      destruct (Main.contains Main.colon (Main.endpoint_or_port argv)) eqn:Hc;
        [congruence|].
      pose proof (MainFacts.contains_app Main.colon "127.0.0.1"
                    (Main.endpoint_or_port argv)) as Hin.
      assert (true = false) as Habs
        by (etransitivity; [symmetry; exact Hin|exact Hr]).
      discriminate Habs.
  - unfold Main.ssl_context, Main.ssl_cert in Hctx.
    destruct (argv !! 2) as [cert|] eqn:Hcert; simpl in Hctx; [|done].
    destruct (String.eqb cert "") eqn:Hne; simpl in Hctx; [done|].
    apply String.eqb_neq in Hne.
    destruct (Main.load_cert_chain E cert) eqn:Hload; [done|]. by exists cert.
Qed.

Lemma main_splits_at_last_colon_witness :
  Main.main (Main.Env (λ _, true) (λ _, true))
            ["server.py"; "::1:8443"; "cert.pem"]
    = Main.Unpacked "::1" "8443" (Some "cert.pem") ∧
  Main.main (Main.Env (λ _, false) (λ _, true))
            ["server.py"; "::1:8443"; "cert.pem"] = Main.SslError ∧
  ∃ cert, ["server.py"; "::1:8443"; "cert.pem"] !! 2 = Some cert ∧ cert ≠ "" ∧
    Main.load_cert_chain (Main.Env (λ _, false) (λ _, true)) cert = false.
Proof.
  split; [reflexivity|]. split; [reflexivity|].
  exact (main_splits_at_last_colon (Main.Env (λ _, false) (λ _, true))
           ["server.py"; "::1:8443"; "cert.pem"]).
Defined.

(** When the calls out of the program go through (no second argument, an
    empty one, or one that loads; and the [print] of line 84), a first
    argument without a colon is taken as the port, and no first argument
    as port 8000; the host is then 127.0.0.1. *)
Theorem main_bare_port_is_local E argv ctx :
  Main.contains Main.colon (Main.endpoint_or_port argv) = false →
  Main.ssl_context E argv = Some ctx →
  Main.print_text E (Main.listening argv) = true →
  Main.main E argv
    = Main.Unpacked "127.0.0.1" (Main.endpoint_or_port argv) ctx ∧
  Main.endpoint_or_port argv = default "8000" (argv !! 1).
Proof.
  intros Hc Hctx Hprint. split.
  - unfold Main.main. rewrite Hctx, Hprint. unfold Main.endpoint. rewrite Hc.
    change (Main.rsplit1 Main.colon ("127.0.0.1:" +:+ Main.endpoint_or_port argv))
      with (Main.rsplit1 Main.colon
              ("127.0.0.1" +:+ String Main.colon (Main.endpoint_or_port argv))).
    by rewrite (MainFacts.rsplit1_app Main.colon "127.0.0.1" _ Hc).
  - unfold Main.endpoint_or_port. by destruct (argv !! 1).
Qed.

Lemma main_bare_port_is_local_witness :
  (Main.main (Main.Env (λ _, false) (λ _, true)) ["server.py"]
     = Main.Unpacked "127.0.0.1" "8000" None) ∧
  (Main.main (Main.Env (λ _, true) (λ _, true))
             ["server.py"; "9000"; "cert.pem"]
     = Main.Unpacked "127.0.0.1" "9000" (Some "cert.pem")).
Proof.
  split.
  - exact (proj1 (main_bare_port_is_local (Main.Env (λ _, false) (λ _, true))
                    ["server.py"] None eq_refl eq_refl eq_refl)).
  - exact (proj1 (main_bare_port_is_local (Main.Env (λ _, true) (λ _, true))
                    ["server.py"; "9000"; "cert.pem"] (Some "cert.pem")
                    eq_refl eq_refl eq_refl)).
Defined.

(** ** The stopwatch display *)

Module StopwatchFacts.
Import Stopwatch.

Lemma spaced_one a : spaced (String a EmptyString) = String a EmptyString.
Proof. done. Qed.

Lemma spaced_cons a b t :
  spaced (String a (String b t)) =
  String a (String space (spaced (String b t))).
Proof. done. Qed.

End StopwatchFacts.

(** The time is shown with one space between any two characters: the
    characters of [t] are at the even positions of the line, in order, a
    space is at every odd position before the last character, and nothing
    else is there. *)
Theorem stopwatch_spacing t :
  String.length (Stopwatch.spaced t) = 2 * String.length t - 1 ∧
  (∀ k, String.get (2 * k) (Stopwatch.spaced t) = String.get k t) ∧
  (∀ k, S k < String.length t →
        String.get (2 * k + 1) (Stopwatch.spaced t) = Some Stopwatch.space).
Proof.
  induction t as [|a t IH]; [split_and!; [done|by intros []|simpl; lia]|].
  destruct t as [|b t].
  { split_and!; [done| |simpl; lia]. intros [|k]; [done|].
    replace (2 * S k) with (S (S (2 * k))) by lia. by destruct k. }
  rewrite StopwatchFacts.spaced_cons. destruct IH as (Hlen & Heven & Hodd).
  split_and!.
  - cbn [String.length] in *. rewrite Hlen. lia.
  - intros [|k]; [done|].
    replace (2 * S k) with (S (S (2 * k))) by lia. cbn [String.get].
    apply Heven.
  - intros [|k] Hk; [done|].
    replace (2 * S k + 1) with (S (S (2 * k + 1))) by lia. cbn [String.get].
    apply Hodd. cbn [String.length] in *. lia.
Qed.

Lemma stopwatch_spacing_witness :
  Stopwatch.spaced "3.141593" = "3 . 1 4 1 5 9 3" ∧
  String.get (2 * 1 + 1) (Stopwatch.spaced "3.141593") = Some Stopwatch.space.
Proof.
  split; [reflexivity|].
  destruct (stopwatch_spacing "3.141593") as (_ & _ & Hodd).
  apply (Hodd 1). simpl. lia.
Defined.

(** ** More on the registry *)

Lemma others_notin x (l : list nat) : x ∉ l → others x l = l.
Proof.
  induction l as [|y l IH]; [done|].
  rewrite not_elem_of_cons. intros [Hne Hl].
  rewrite others_cons_other by done. by rewrite IH.
Qed.

(** On a list without duplicates [l.remove(x)] keeps every other element,
    in order. *)
Lemma remove_first_others x (l : list nat) :
  NoDup l → remove_first x l = others x l.
Proof.
  induction l as [|y l IH]; [done|]. intros [Hy Hl]%NoDup_cons. simpl.
  destruct (decide (y = x)) as [->|Hne].
  - rewrite others_cons_self. by rewrite others_notin.
  - rewrite others_cons_other by done. by rewrite IH.
Qed.

Lemma session_at_create R sid x s :
  wf_registry R → sessions R !! sid = None →
  session_at (Registry (<[sid := length (heap R)]> (sessions R)) (heap R ++ [x])) s
  = if decide (s = sid) then Some x else session_at R s.
Proof.
  intros Hwf Hnew. unfold session_at. simpl. case_decide as Hs.
  - subst s. rewrite lookup_insert_eq. simpl.
    by rewrite lookup_app_r, Nat.sub_diag.
  - rewrite lookup_insert_ne by done.
    destruct (sessions R !! s) as [l|] eqn:Hl; [|done]. simpl.
    destruct (wf_alloc _ Hwf _ _ Hl) as [o Ho].
    rewrite lookup_app_l by (by eapply lookup_lt_Some). done.
Qed.

Lemma session_at_set_session R sid l o o' s :
  wf_registry R → sessions R !! sid = Some l → heap R !! l = Some o →
  session_at (set_session l o' R) s
  = if decide (s = sid) then Some o' else session_at R s.
Proof.
  intros Hwf Hsid Ho. unfold session_at. simpl. case_decide as Hs.
  - subst s. rewrite Hsid. simpl.
    apply list_lookup_insert_eq. by eapply lookup_lt_Some.
  - destruct (sessions R !! s) as [l'|] eqn:Hl; [|done]. simpl.
    apply list_lookup_insert_ne. intros ->. apply Hs. by eapply wf_inj.
Qed.

Lemma session_at_leave R sid l o ps b s :
  wf_registry R → sessions R !! sid = Some l → heap R !! l = Some o →
  session_at
    (Registry (if decide (ps = []) then delete sid (sessions R) else sessions R)
              (<[l := Session ps b]> (heap R))) s
  = if decide (s = sid)
    then (if decide (ps = []) then None else Some (Session ps b))
    else session_at R s.
Proof.
  intros Hwf Hsid Ho.
  pose proof (session_at_set_session R sid l o (Session ps b) s Hwf Hsid Ho) as Hset.
  unfold session_at in *. simpl in *.
  destruct (decide (ps = [])) as [Hnil|Hnn]; [|done].
  destruct (decide (s = sid)) as [->|Hs].
  - by rewrite lookup_delete_eq.
  - by rewrite lookup_delete_ne.
Qed.

(** One step, seen from the registry: who acted, under which session id,
    and what became of that session. *)
Lemma step_actor st lbl st' :
  Inv st → step st lbl = Some st' →
  ∃ f p, handlers st' = set_pc (label_conn lbl) f p (handlers st) ∧
    (reg st' = reg st ∨
     ∃ sid, f_session_id f = Some sid ∧
       ((sessions (reg st) !! sid = None ∧
         reg st' = Registry
           (<[sid := length (heap (reg st))]> (sessions (reg st)))
           (heap (reg st) ++ [Session [label_conn lbl] false])) ∨
        (∃ l o, sessions (reg st) !! sid = Some l ∧
           heap (reg st) !! l = Some o ∧
           reg st' = set_session l
                       (Session (peers o ++ [label_conn lbl]) true) (reg st)) ∨
        (∃ l o e, sid ≠ "" ∧ sessions (reg st) !! sid = Some l ∧
           heap (reg st) !! l = Some o ∧ label_conn lbl ∈ peers o ∧
           p = Done (Raised e) ∧
           (lbl = Recv (label_conn lbl) (inr e) ∨
            lbl = SendDone (label_conn lbl) (Some e)) ∧
           reg st' = Registry
             (if decide (remove_first (label_conn lbl) (peers o) = [])
              then delete sid (sessions (reg st)) else sessions (reg st))
             (<[l := Session (remove_first (label_conn lbl) (peers o))
                             (started o)]> (heap (reg st)))))).
Proof.
  intros Hinv Hstep. pose proof (step_trans _ _ _ Hinv Hstep) as Ht.
  assert (Hexit : ∀ ws h l e R,
    handlers st !! ws = Some h → in_loop (h_pc h) = Some l →
    leave (f_session_id (h_frame h)) ws (reg st) = Some R →
    (lbl = Recv ws (inr e) ∨ lbl = SendDone ws (Some e)) →
    label_conn lbl = ws →
    R = reg st ∨
     ∃ sid, f_session_id (h_frame h) = Some sid ∧
       ((sessions (reg st) !! sid = None ∧
         R = Registry
           (<[sid := length (heap (reg st))]> (sessions (reg st)))
           (heap (reg st) ++ [Session [label_conn lbl] false])) ∨
        (∃ l o, sessions (reg st) !! sid = Some l ∧
           heap (reg st) !! l = Some o ∧
           R = set_session l
                 (Session (peers o ++ [label_conn lbl]) true) (reg st)) ∨
        (∃ l o e', sid ≠ "" ∧ sessions (reg st) !! sid = Some l ∧
           heap (reg st) !! l = Some o ∧ label_conn lbl ∈ peers o ∧
           Done (Raised e) = Done (Raised e') ∧
           (lbl = Recv (label_conn lbl) (inr e') ∨
            lbl = SendDone (label_conn lbl) (Some e')) ∧
           R = Registry
             (if decide (remove_first (label_conn lbl) (peers o) = [])
              then delete sid (sessions (reg st)) else sessions (reg st))
             (<[l := Session (remove_first (label_conn lbl) (peers o))
                             (started o)]> (heap (reg st)))))).
  { intros ws h l e R Hh Hin HR Hlbl Hws.
    destruct (coh_loop _ (inv_coh _ Hinv) _ _ _ Hh Hin)
      as (sid & o & Hsid & Hs & Ho & Hel).
    rewrite Hsid in HR. destruct (decide (sid = "")) as [->|Hne].
    - rewrite leave_skip in HR. left. by injection HR.
    - rewrite (leave_in_session _ _ _ _ _ Hs Ho Hel Hne) in HR.
      injection HR as <-. right. exists sid. split; [done|]. right. right.
      rewrite Hws. exists l, o, e. by split_and!. }
  inversion Ht; subst; simpl label_conn; simpl reg; simpl handlers;
    eexists _, _; (split; [reflexivity|]); try (by left).
  - right. exists sid. split; [done|]. by left.
  - right. exists sid. split; [done|]. right. left.
    by exists l, (Session [first_peer] false).
  - right. exists sid. split; [done|]. right. left.
    by exists l, (Session ps true).
  - eapply (Hexit ws h l e R); eauto. by rewrite H0.
  - eapply (Hexit ws h l e R); eauto.
Qed.

(** No connection is listed twice in a peer list, and no connection is
    listed in the peer lists of two sessions. *)
Theorem peers_listed_once st :
  reachable st →
  (∀ sid o, session_at (reg st) sid = Some o → NoDup (peers o)) ∧
  (∀ s1 s2 o1 o2 ws,
     session_at (reg st) s1 = Some o1 → session_at (reg st) s2 = Some o2 →
     ws ∈ peers o1 → ws ∈ peers o2 → s1 = s2).
Proof.
  intros Hinv%reachable_inv. split.
  - intros sid o (l & Hs & Ho)%session_at_Some.
    by eapply wf_nodup; [apply Hinv|..].
  - intros s1 s2 o1 o2 ws (l1 & Hs1 & Ho1)%session_at_Some
           (l2 & Hs2 & Ho2)%session_at_Some H1 H2.
    destruct (coh_peer _ (inv_coh _ Hinv) _ _ _ _ Hs1 Ho1 H1) as (h1 & Hh1 & Hf1 & _).
    destruct (coh_peer _ (inv_coh _ Hinv) _ _ _ _ Hs2 Ho2 H2) as (h2 & Hh2 & Hf2 & _).
    congruence.
Qed.

Lemma peers_listed_once_witness :
  let st := exec [Connect 0 "/v1/ooo/abc"; Connect 1 "/v1/ooo/xyz";
                  Connect 2 "/v1/ooo/abc"] in
  session_at (reg st) "abc" = Some (Session [0; 2] true) ∧
  session_at (reg st) "xyz" = Some (Session [1] false) ∧
  NoDup (peers (Session [0; 2] true)).
Proof.
  intros st.
  assert (session_at (reg st) "abc" = Some (Session [0; 2] true)) as H
    by (vm_compute; reflexivity).
  split_and!; [done|vm_compute; reflexivity|].
  destruct (peers_listed_once st (exec_reachable _)) as [Hnd _].
  exact (Hnd "abc" _ H).
Defined.

(** Every connection in a registered peer list belongs to a handler that
    was started on the path of that very session; when the session id is
    not the empty string that handler is still inside its loop, on the
    dict the id is registered with. *)
Theorem registered_peers_are_live st sid o ws :
  reachable st →
  session_at (reg st) sid = Some o → ws ∈ peers o →
  ∃ h, handlers st !! ws = Some h ∧
    f_path (h_frame h) = url_prefix +:+ sid ∧
    f_session_id (h_frame h) = Some sid ∧
    (sid ≠ "" →
     ∃ l, in_loop (h_pc h) = Some l ∧ sessions (reg st) !! sid = Some l).
Proof.
  intros Hinv%reachable_inv (l & Hs & Ho)%session_at_Some Hel.
  destruct (coh_peer _ (inv_coh _ Hinv) _ _ _ _ Hs Ho Hel)
    as (h & Hh & Hsid & Hloop).
  exists h. split_and!; [done| |done|].
  - by eapply coh_path; [apply Hinv|..].
  - intros Hne. exists l. split; [by apply Hloop|done].
Qed.

Lemma registered_peers_are_live_witness :
  let st := exec [Connect 0 "/v1/ooo/abc"; Connect 1 "/v1/ooo/abc";
                  Recv 0 (inr ConnectionClosedError)] in
  session_at (reg st) "abc" = Some (Session [1] true) ∧
  ∃ h, handlers st !! 1 = Some h ∧
    f_path (h_frame h) = url_prefix +:+ "abc" ∧
    f_session_id (h_frame h) = Some "abc" ∧
    ("abc" ≠ "" →
     ∃ l, in_loop (h_pc h) = Some l ∧ sessions (reg st) !! "abc" = Some l).
Proof.
  intros st.
  assert (session_at (reg st) "abc" = Some (Session [1] true)) as H
    by (vm_compute; reflexivity).
  split; [done|].
  apply (registered_peers_are_live st "abc" _ 1 (exec_reachable _) H).
  simpl. apply elem_of_cons. by left.
Defined.

(** A handler resumed with an exception: where it was, and what its
    [finally] block was given. *)
Lemma step_exit st lbl st' ws e :
  Inv st →
  lbl = Recv ws (inr e) ∨ lbl = SendDone ws (Some e) →
  step st lbl = Some st' →
  ∃ h l sid o, handlers st !! ws = Some h ∧
    in_loop (h_pc h) = Some l ∧
    f_session_id (h_frame h) = Some sid ∧
    sessions (reg st) !! sid = Some l ∧
    heap (reg st) !! l = Some o ∧ ws ∈ peers o ∧
    leave (Some sid) ws (reg st) = Some (reg st') ∧
    handlers st' = set_pc ws (h_frame h) (Done (Raised e)) (handlers st) ∧
    trace st' = trace st.
Proof.
  intros Hinv Hlbl Hstep. pose proof (step_trans _ _ _ Hinv Hstep) as Ht.
  assert (∃ h l R, handlers st !! ws = Some h ∧ in_loop (h_pc h) = Some l ∧
            leave (f_session_id (h_frame h)) ws (reg st) = Some R ∧
            st' = State R (set_pc ws (h_frame h) (Done (Raised e)) (handlers st))
                        (trace st)) as (h & l & R & Hh & Hin & HR & ->).
  { destruct Hlbl as [-> | ->]; inversion Ht; subst;
      eexists _, _, _; split_and!; try done.
    by match goal with H : h_pc _ = _ |- _ => rewrite H end. }
  destruct (coh_loop _ (inv_coh _ Hinv) _ _ _ Hh Hin)
    as (sid & o & Hsid & Hs & Ho & Hws).
  rewrite Hsid in HR. by exists h, l, sid, o.
Qed.

(** When a handler in a session whose id is not the empty string is
    resumed with an exception, its connection is taken out of the peer
    list and the other peers stay, in their order; the session is deleted
    exactly when no other peer is left; every other session is as before;
    and the connection is then in no registered peer list. *)
Theorem exit_leaves_the_session st lbl st' ws e h sid :
  reachable st →
  lbl = Recv ws (inr e) ∨ lbl = SendDone ws (Some e) →
  step st lbl = Some st' →
  handlers st !! ws = Some h →
  f_session_id (h_frame h) = Some sid → sid ≠ "" →
  ∃ o, session_at (reg st) sid = Some o ∧ ws ∈ peers o ∧
    session_at (reg st') sid =
      (if decide (others ws (peers o) = []) then None
       else Some (Session (others ws (peers o)) (started o))) ∧
    (∀ s, s ≠ sid → session_at (reg st') s = session_at (reg st) s) ∧
    (∀ s o', session_at (reg st') s = Some o' → ws ∉ peers o').
Proof.
  intros Hr Hlbl Hstep Hh Hsid Hne. pose proof (reachable_inv _ Hr) as Hinv.
  pose proof (inv_wf _ Hinv) as Hwf.
  destruct (step_exit _ _ _ _ _ Hinv Hlbl Hstep)
    as (h0 & l & sid0 & o & Hh0 & Hin & Hsid0 & Hs & Ho & Hel & HR & _).
  assert (h0 = h) as -> by congruence.
  assert (sid0 = sid) as -> by congruence.
  rewrite (leave_in_session _ _ _ _ _ Hs Ho Hel Hne) in HR.
  injection HR as HR.
  destruct (cleanup_on_exit _ _ _ _ _ Hr Hlbl Hstep)
    as (h1 & sid1 & Hh1 & Hsid1 & _ & Hgone & _).
  assert (h1 = h) as -> by congruence.
  assert (sid1 = sid) as -> by congruence.
  exists o. rewrite <- (remove_first_others ws (peers o))
    by (by eapply wf_nodup).
  split_and!.
  - apply session_at_Some. eauto.
  - done.
  - rewrite <- HR, (session_at_leave _ sid l o _ _ sid Hwf Hs Ho).
    by rewrite decide_True.
  - intros s Hs'. rewrite <- HR, (session_at_leave _ sid l o _ _ s Hwf Hs Ho).
    by rewrite decide_False.
  - by apply Hgone.
Qed.

Lemma exit_leaves_the_session_witness :
  let st := exec [Connect 0 "/v1/ooo/abc"; Connect 1 "/v1/ooo/abc";
                  SendDone 1 None; Connect 2 "/v1/ooo/abc"] in
  let st' := exec [Connect 0 "/v1/ooo/abc"; Connect 1 "/v1/ooo/abc";
                   SendDone 1 None; Connect 2 "/v1/ooo/abc";
                   Recv 1 (inr ConnectionClosedOK)] in
  step st (Recv 1 (inr ConnectionClosedOK)) = Some st' ∧
  session_at (reg st') "abc" = Some (Session [0; 2] true) ∧
  ∃ o, session_at (reg st) "abc" = Some o ∧ 1 ∈ peers o ∧
    session_at (reg st') "abc" =
      (if decide (others 1 (peers o) = []) then None
       else Some (Session (others 1 (peers o)) (started o))) ∧
    (∀ s, s ≠ "abc" → session_at (reg st') s = session_at (reg st) s) ∧
    (∀ s o', session_at (reg st') s = Some o' → 1 ∉ peers o').
Proof.
  intros st st'.
  assert (step st (Recv 1 (inr ConnectionClosedOK)) = Some st') as Hstep
    by (vm_compute; reflexivity).
  split_and!; [done|vm_compute; reflexivity|].
  apply (exit_leaves_the_session st _ st' 1 ConnectionClosedOK
           (Handler (Frame "/v1/ooo/abc" (Some "abc")) (AwaitRecv 0)) "abc"
           (exec_reachable _) (or_introl eq_refl) Hstep).
  - vm_compute; reflexivity.
  - reflexivity.
  - discriminate.
Defined.

(** A step changes the state of the one handler it runs and of no other,
    and it leaves alone every session registered under another id than
    that handler's: the key and the dict behind it. *)
Theorem step_is_local st lbl st' :
  reachable st → step st lbl = Some st' →
  ∃ h', handlers st' = <[label_conn lbl := h']> (handlers st) ∧
    (∀ s, f_session_id (h_frame h') ≠ Some s →
       sessions (reg st') !! s = sessions (reg st) !! s ∧
       session_at (reg st') s = session_at (reg st) s).
Proof.
  intros Hinv%reachable_inv Hstep. pose proof (inv_wf _ Hinv) as Hwf.
  destruct (step_actor _ _ _ Hinv Hstep) as (f & p & Hhs & Hreg).
  exists (Handler f p). split; [done|]. simpl. intros s Hs.
  destruct Hreg as [->|(sid & Hsid & [[Hnone ->]|[(l & o & Hl & Ho & ->)
    |(l & o & e & Hne & Hl & Ho & Hel & _ & _ & ->)]])]; [done|..];
    assert (s ≠ sid) as Hss by congruence.
  - rewrite (session_at_create _ sid _ s Hwf Hnone).
    rewrite (decide_False (P := s = sid)) by done.
    simpl. by rewrite lookup_insert_ne.
  - rewrite (session_at_set_session _ sid l o _ s Hwf Hl Ho).
    by rewrite (decide_False (P := s = sid)) by done.
  - rewrite (session_at_leave _ sid l o _ _ s Hwf Hl Ho).
    rewrite (decide_False (P := s = sid)) by done.
    split; [|done]. simpl. case_decide; [|done]. by rewrite lookup_delete_ne.
Qed.

Lemma step_is_local_witness :
  let st := exec [Connect 0 "/v1/ooo/abc"; Connect 1 "/v1/ooo/xyz"] in
  let st' := exec [Connect 0 "/v1/ooo/abc"; Connect 1 "/v1/ooo/xyz";
                   Recv 0 (inr ConnectionClosedError)] in
  step st (Recv 0 (inr ConnectionClosedError)) = Some st' ∧
  session_at (reg st') "abc" = None ∧
  session_at (reg st') "xyz" = Some (Session [1] false) ∧
  ∃ h', handlers st' = <[0 := h']> (handlers st) ∧
    (∀ s, f_session_id (h_frame h') ≠ Some s →
       sessions (reg st') !! s = sessions (reg st) !! s ∧
       session_at (reg st') s = session_at (reg st) s).
Proof.
  intros st st'.
  assert (step st (Recv 0 (inr ConnectionClosedError)) = Some st') as Hstep
    by (vm_compute; reflexivity).
  split_and!; [done|vm_compute; reflexivity..|].
  exact (step_is_local st _ st' (exec_reachable _) Hstep).
Defined.

(** A registered session goes out of the registry in one kind of step
    only: its id is not the empty string, the handler of its only peer is
    resumed with an exception, and that peer is the whole list.  As long
    as an id stays registered it stays bound to the same dict. *)
Theorem session_deleted_by_last_peer st lbl st' sid :
  reachable st → step st lbl = Some st' →
  (∀ o, session_at (reg st) sid = Some o →
        session_at (reg st') sid = None →
        sid ≠ "" ∧ peers o = [label_conn lbl] ∧
        ∃ e, lbl = Recv (label_conn lbl) (inr e) ∨
             lbl = SendDone (label_conn lbl) (Some e)) ∧
  (∀ l l', sessions (reg st) !! sid = Some l →
           sessions (reg st') !! sid = Some l' → l' = l).
Proof.
  intros Hinv%reachable_inv Hstep. pose proof (inv_wf _ Hinv) as Hwf.
  destruct (step_actor _ _ _ Hinv Hstep) as (f & p & Hhs & Hreg).
  split.
  - intros o0 H0 H1.
    destruct Hreg as [Hsame|(s & Hsid & [[Hnone HR]|[(l & o & Hl & Ho & HR)
      |(l & o & e & Hne & Hl & Ho & Hel & _ & Hlbl & HR)]])]; rewrite ?HR in H1.
    + congruence.
    + rewrite (session_at_create _ s _ sid Hwf Hnone) in H1.
      case_decide; congruence.
    + rewrite (session_at_set_session _ s l o _ sid Hwf Hl Ho) in H1.
      case_decide; congruence.
    + rewrite (session_at_leave _ s l o _ _ sid Hwf Hl Ho) in H1.
      case_decide as Hs; [|congruence]. subst s.
      case_decide as Hnil; [|done].
      assert (o0 = o) as ->.
      { apply session_at_Some in H0 as (l0 & ? & ?). congruence. }
      split_and!; [done| |eauto].
      pose proof (wf_nodup _ Hwf _ _ _ Hl Ho) as Hnd.
      rewrite remove_first_others in Hnil by done.
      destruct (peers o) as [|x ps]; [by apply elem_of_nil in Hel|].
      destruct (decide (x = label_conn lbl)) as [->|Hx].
      * rewrite others_cons_self in Hnil.
        apply NoDup_cons in Hnd as [Hx _].
        rewrite others_notin in Hnil by done. by subst ps.
      * by rewrite others_cons_other in Hnil.
  - intros l l' H0 H1.
    destruct Hreg as [Hsame|(s & Hsid & [[Hnone HR]|[(l0 & o & Hl & Ho & HR)
      |(l0 & o & e & Hne & Hl & Ho & Hel & _ & Hlbl & HR)]])];
      rewrite ?HR in H1; simpl in H1.
    + congruence.
    + apply lookup_insert_Some in H1 as [[<- _]|[_ H1]]; congruence.
    + congruence.
    + case_decide; [|congruence].
      apply lookup_delete_Some in H1 as [_ H1]. congruence.
Qed.

Lemma session_deleted_by_last_peer_witness :
  let st := exec [Connect 0 "/v1/ooo/abc"] in
  let st' := exec [Connect 0 "/v1/ooo/abc"; Recv 0 (inr ConnectionClosedOK)] in
  step st (Recv 0 (inr ConnectionClosedOK)) = Some st' ∧
  session_at (reg st) "abc" = Some (Session [0] false) ∧
  session_at (reg st') "abc" = None ∧
  "abc" ≠ "" ∧ peers (Session [0] false) = [0] ∧
  ∃ e, Recv 0 (inr ConnectionClosedOK) = Recv 0 (inr e) ∨
       Recv 0 (inr ConnectionClosedOK) = SendDone 0 (Some e).
Proof.
  intros st st'.
  assert (step st (Recv 0 (inr ConnectionClosedOK)) = Some st') as Hstep
    by (vm_compute; reflexivity).
  assert (session_at (reg st) "abc" = Some (Session [0] false)) as H0
    by (vm_compute; reflexivity).
  assert (session_at (reg st') "abc" = None) as H1
    by (vm_compute; reflexivity).
  split_and!; [done..|].
  destruct (session_deleted_by_last_peer st _ st' "abc"
              (exec_reachable _) Hstep) as [Hdel _].
  destruct (Hdel _ H0 H1) as (_ & _ & He). exact He.
Defined.

(** The session whose id is the empty string, once it exists, is never
    deleted and never loses a peer: over any run its peer list only gets
    longer at the end. *)
Theorem empty_id_session_only_grows st ls st' o :
  reachable st → run ls st = Some st' →
  session_at (reg st) "" = Some o →
  ∃ o' more, session_at (reg st') "" = Some o' ∧
    peers o' = peers o ++ more.
Proof.
  intros Hinv%reachable_inv. revert st o Hinv.
  induction ls as [|lbl ls IH]; intros st o Hinv; simpl.
  - intros [= <-] Ho. exists o, []. by rewrite app_nil_r.
  - destruct (step st lbl) as [st1|] eqn:Hstep; [|done]. simpl.
    intros Hrun Ho. pose proof (inv_wf _ Hinv) as Hwf.
    assert (∃ o1 more, session_at (reg st1) "" = Some o1 ∧
              peers o1 = peers o ++ more) as (o1 & more1 & Ho1 & Hp1).
    { destruct (step_actor _ _ _ Hinv Hstep) as (f & p & Hhs & Hreg).
      destruct Hreg as [->|(s & Hsid & [[Hnone ->]|[(l & o0 & Hl & Ho0 & ->)
        |(l & o0 & e & Hne & Hl & Ho0 & Hel & _ & _ & ->)]])].
      - exists o, []. by rewrite app_nil_r.
      - rewrite (session_at_create _ s _ "" Hwf Hnone). case_decide as Hs.
        + subst s. apply session_at_Some in Ho as (? & ? & ?). congruence.
        + exists o, []. by rewrite app_nil_r.
      - rewrite (session_at_set_session _ s l o0 _ "" Hwf Hl Ho0).
        case_decide as Hs.
        + subst s. assert (o0 = o) as ->.
          { apply session_at_Some in Ho as (? & ? & ?). congruence. }
          eexists _, _. split; [done|]. done.
        + exists o, []. by rewrite app_nil_r.
      - rewrite (session_at_leave _ s l o0 _ _ "" Hwf Hl Ho0).
        rewrite (decide_False (P := "" = s)) by congruence.
        exists o, []. by rewrite app_nil_r. }
    destruct (IH st1 o1 (step_inv _ _ _ Hinv Hstep) Hrun Ho1)
      as (o' & more & Ho' & Hp').
    exists o', (more1 ++ more). split; [done|].
    by rewrite Hp', Hp1, app_assoc.
Qed.

Lemma empty_id_session_only_grows_witness :
  let st := exec [Connect 0 "/v1/ooo/"] in
  let ls := [Recv 0 (inr ConnectionClosedError); Connect 1 "/v1/ooo/";
             SendDone 1 (Some ConnectionClosedError)] in
  session_at (reg st) "" = Some (Session [0] false) ∧
  session_at (reg (exec (Connect 0 "/v1/ooo/" :: ls))) ""
    = Some (Session [0; 1] true) ∧
  ∃ o' more, session_at (reg (exec (Connect 0 "/v1/ooo/" :: ls))) "" = Some o' ∧
    peers o' = peers (Session [0] false) ++ more.
Proof.
  intros st ls.
  assert (session_at (reg st) "" = Some (Session [0] false)) as H0
    by (vm_compute; reflexivity).
  split_and!; [done|vm_compute; reflexivity|].
  apply (empty_id_session_only_grows st ls _ _ (exec_reachable _)); [|done].
  vm_compute. reflexivity.
Defined.

(** ** What is relayed *)

Lemma last_recv_app ws tr evs :
  last_recv ws (tr ++ evs) =
  match last_recv ws evs with
  | Some d => Some d
  | None => last_recv ws tr
  end.
Proof.
  induction tr as [|e tr IH]; simpl.
  - by destruct (last_recv ws evs).
  - rewrite IH. by destruct (last_recv ws evs).
Qed.

Lemma last_recv_None ws evs :
  (∀ d, EvRecv ws d ∉ evs) → last_recv ws evs = None.
Proof.
  induction evs as [|e evs IH]; [done|]. intros Hno. simpl.
  rewrite IH by (intros d Hd; apply (Hno d); by apply elem_of_cons; right).
  destruct e as [| |a d]; try done. case_decide as Ha; [|done]. subst a.
  exfalso. apply (Hno d). apply elem_of_cons. by left.
Qed.

Lemma relays_latest_extend st ws f p evs R :
  relays_latest st →
  (∀ ws' d, EvRecv ws' d ∈ evs → ws' = ws) →
  (∀ l d i, p = AwaitPeerSend l d i →
            last_recv ws (trace st ++ evs) = Some d) →
  (∀ k a b d, evs !! k = Some (EvSend Relay a b d) →
              last_recv a (trace st ++ take k evs) = Some d) →
  relays_latest (State R (set_pc ws f p (handlers st)) (trace st ++ evs)).
Proof.
  intros [Hdata Hlatest] Hby Hp Hevs. split; simpl.
  - intros ws' h' l d i Hl Hpc. case_set_pc Hl; [by eapply Hp|].
    rewrite last_recv_app, (last_recv_None ws' evs).
    + by eapply Hdata.
    + intros d' Hd'. apply Hby in Hd'. congruence.
  - intros i a b d [Hi|[Hlen Hi]]%lookup_app_Some.
    + rewrite take_app_le by (apply lookup_lt_Some in Hi; lia).
      by eapply Hlatest.
    + rewrite take_app_ge by done. by eapply Hevs.
Qed.

Lemma relays_latest_step st lbl st' :
  Inv st → relays_latest st → step st lbl = Some st' → relays_latest st'.
Proof.
  intros Hinv Hrl Hstep. pose proof (step_trans _ _ _ Hinv Hstep) as Ht.
  pose proof Hrl as [Hdata _].
  inversion Ht; subst;
    first [apply relays_latest_extend
          |rewrite <- (app_nil_r (trace st)); apply relays_latest_extend];
    try done.
  all: try (intros ? ? Hel;
            repeat (apply elem_of_cons in Hel as [Hel|Hel];
                    [by simplify_eq|]);
            by apply elem_of_nil in Hel).
  all: try (intros [|[|[|k]]] ? ? ? Hk; by simplify_eq/=).
  - intros l0 d i0 [= <- <- <-]. rewrite last_recv_app. simpl.
    by rewrite decide_True.
  - intros [|[|k]] a b d Hk; simplify_eq/=.
    rewrite last_recv_app. simpl. by rewrite decide_True.
  - intros l0 d i0 [= <- <- <-]. rewrite last_recv_app. simpl.
    by eapply Hdata.
  - intros [|k] a b d Hk; simplify_eq/=. rewrite app_nil_r.
    by eapply Hdata.
Qed.

(** Every relayed send carries the message its sender received last: a
    handler never relays a message it received earlier once it has a
    newer one, and never one it did not receive. *)
Theorem relay_carries_latest_message st i a b d :
  reachable st →
  trace st !! i = Some (EvSend Relay a b d) →
  last_recv a (take i (trace st)) = Some d.
Proof.
  intros Hr. revert i a b d.
  assert (relays_latest st) as [_ H]; [|exact H].
  induction Hr as [|st lbl st' Hr IH Hstep].
  - split.
    + intros ws h l d i Hh. simpl in Hh. by rewrite lookup_empty in Hh.
    + by intros [|i] a b d Hi.
  - eapply relays_latest_step; [by apply reachable_inv|done..].
Qed.

Lemma relay_carries_latest_message_witness :
  let st := exec [Connect 0 "/v1/ooo/abc"; Connect 1 "/v1/ooo/abc";
                  SendDone 1 None; Recv 0 (inl "offer"); SendDone 0 None;
                  Recv 0 (inl "candidate")] in
  trace st !! 6 = Some (EvSend Relay 0 1 "candidate") ∧
  last_recv 0 (take 6 (trace st)) = Some "candidate".
Proof.
  intros st.
  assert (trace st !! 6 = Some (EvSend Relay 0 1 "candidate")) as H
    by (vm_compute; reflexivity).
  split; [done|].
  exact (relay_carries_latest_message st 6 0 1 "candidate" (exec_reachable _) H).
Defined.

(** ** How often the start signal is sent *)

(** Steps that send no start signal and put no connection with a past
    into an unstarted session. *)
Lemma starts_once_extend st R hs evs :
  Inv st → starts_once st →
  (∀ a b d, EvSend StartSignal a b d ∉ evs) →
  (∀ sid o c, session_at R sid = Some o → started o = false → c ∈ peers o →
     handlers st !! c = None ∨
     ∃ o0, session_at (reg st) sid = Some o0 ∧ started o0 = false ∧
           c ∈ peers o0) →
  starts_once (State R hs (trace st ++ evs)).
Proof.
  intros Hinv [Hun Honce] Hno Hsess. split; simpl.
  - intros sid o c a d Ho Hst Hc [Hel|Hel]%elem_of_app; [|by eapply Hno].
    destruct (Hsess _ _ _ Ho Hst Hc) as [Hfresh|(o0 & Ho0 & Hst0 & Hc0)].
    + eapply (fresh_not_traced st c) in Hel; [|done..]. apply Hel. simpl.
      apply elem_of_cons. right. apply elem_of_cons. by left.
    + by eapply Hun.
  - intros i j a b d a' b' d' [Hi|[_ Hi]]%lookup_app_Some
           [Hj|[_ Hj]]%lookup_app_Some Hab.
    + by eapply Honce.
    + apply list_elem_of_lookup_2 in Hj. by apply Hno in Hj.
    + apply list_elem_of_lookup_2 in Hi. by apply Hno in Hi.
    + apply list_elem_of_lookup_2 in Hi. by apply Hno in Hi.
Qed.

Lemma starts_once_step st lbl st' :
  Inv st → starts_once st → step st lbl = Some st' → starts_once st'.
Proof.
  intros Hinv Hso Hstep. pose proof (step_trans _ _ _ Hinv Hstep) as Ht.
  pose proof (inv_wf _ Hinv) as Hwf. pose proof Hso as [Hun Honce].
  assert (Hnil : ∀ a b d, EvSend StartSignal a b d ∉ ([] : list event)).
  { intros a b d Hel. by apply elem_of_nil in Hel. }
  assert (Hexit : ∀ ws session_id R hs,
    leave session_id ws (reg st) = Some R →
    starts_once (State R hs (trace st))).
  { intros ws session_id R hs HR. rewrite <- (app_nil_r (trace st)).
    apply starts_once_extend; [done..|]. intros s o c Ho Hst Hc. right.
    destruct (leave_cases _ _ _ _ Hwf HR)
      as [->|(sid & l & o0 & -> & Hne & Hs & Ho0 & Hel & ->)]; [eauto|].
    rewrite (session_at_leave _ sid l o0 _ _ s Hwf Hs Ho0) in Ho.
    case_decide as Hsid; [|eauto]. subst s.
    case_decide; [done|]. injection Ho as <-. simpl in *.
    exists o0. split_and!; [apply session_at_Some; eauto|done|].
    apply elem_of_remove_first in Hc as [? _]; [done|].
    by eapply wf_nodup. }
  inversion Ht; subst; try (by eapply Hexit).
  - rewrite <- (app_nil_r (trace st)). apply starts_once_extend; eauto.
  - apply starts_once_extend; [done..| |].
    { intros a b d Hel%list_elem_of_singleton. done. }
    intros s o c Ho Hst Hc.
    rewrite (session_at_create _ sid _ s Hwf H0) in Ho.
    case_decide; [|eauto]. injection Ho as <-. simpl in Hc.
    apply list_elem_of_singleton in Hc as ->. by left.
  - assert (Hfirst : session_at (reg st) sid = Some (Session [first_peer] false)).
    { apply session_at_Some. eauto. }
    assert (Hfp : ∀ a d, EvSend StartSignal a first_peer d ∉ trace st).
    { intros a d. eapply Hun; [done..|]. simpl. apply elem_of_cons. by left. }
    assert (Hws : ∀ e, e ∈ trace st → ws ∉ conns_of e).
    { intros e He. by eapply fresh_not_traced. }
    assert (Hlast : ∀ i a b d,
      (trace st ++ [EvJoin ws sid false;
                    EvSend StartSignal ws first_peer start_session_text]) !! i
        = Some (EvSend StartSignal a b d) →
      trace st !! i = Some (EvSend StartSignal a b d) ∨
      (i = S (length (trace st)) ∧ a = ws ∧ b = first_peer)).
    { intros i a b d [Hi|[Hlen Hi]]%lookup_app_Some; [by left|]. right.
      destruct (i - length (trace st)) as [|[|k]] eqn:Hk; simplify_eq/=.
      split; [lia|done]. }
    split; simpl.
    + intros s o c a d Ho Hst Hc.
      rewrite (session_at_set_session _ sid l _ _ s Hwf H0 H1) in Ho.
      case_decide as Hs; [by injection Ho as <-|].
      intros [Hel|Hel]%elem_of_app; [by eapply Hun|].
      apply elem_of_cons in Hel as [?|Hel]; [done|].
      apply list_elem_of_singleton in Hel. injection Hel as -> -> ->.
      apply session_at_Some in Ho as (l' & Hl' & Ho').
      destruct (coh_peer _ (inv_coh _ Hinv) _ _ _ _ Hl' Ho' Hc)
        as (h1 & Hh1 & Hf1 & _).
      destruct (coh_peer _ (inv_coh _ Hinv) _ _ _ first_peer H0 H1)
        as (h2 & Hh2 & Hf2 & _); [simpl; apply elem_of_cons; by left|].
      congruence.
    + intros i j a b d a' b' d' Hi Hj Hab.
      apply Hlast in Hi as [Hi|(-> & -> & ->)];
        apply Hlast in Hj as [Hj|(-> & -> & ->)]; [by eapply Honce| | |done].
      * exfalso. apply list_elem_of_lookup_2 in Hi.
        destruct Hab as [-> | ->]; [|by eapply Hfp].
        apply (Hws _ Hi). simpl. apply elem_of_cons. by left.
      * exfalso. apply list_elem_of_lookup_2 in Hj.
        destruct Hab as [<- | <-]; [|by eapply Hfp].
        apply (Hws _ Hj). simpl. apply elem_of_cons. by left.
  - apply starts_once_extend; [done..| |].
    { intros a b d Hel%list_elem_of_singleton. done. }
    intros s o c Ho Hst Hc.
    rewrite (session_at_set_session _ sid l _ _ s Hwf H0 H1) in Ho.
    case_decide; [by injection Ho as <-|eauto].
  - rewrite <- (app_nil_r (trace st)). apply starts_once_extend; eauto.
  - apply starts_once_extend; [done..| |eauto].
    intros a b d Hel.
    repeat (apply elem_of_cons in Hel as [Hel|Hel]; [done|]).
    by apply elem_of_nil in Hel.
  - apply starts_once_extend; [done..| |eauto].
    intros a b d Hel%list_elem_of_singleton. done.
  - apply starts_once_extend; [done..| |eauto].
    intros a b d Hel%list_elem_of_singleton. done.
  - rewrite <- (app_nil_r (trace st)). apply starts_once_extend; eauto.
Qed.

(** No connection is sent the start signal twice, and no handler sends it
    twice. *)
Theorem start_signal_at_most_once st i j a b d a' b' d' :
  reachable st →
  trace st !! i = Some (EvSend StartSignal a b d) →
  trace st !! j = Some (EvSend StartSignal a' b' d') →
  a = a' ∨ b = b' → i = j.
Proof.
  intros Hr. revert i j a b d a' b' d'.
  assert (starts_once st) as [_ H]; [|exact H].
  induction Hr as [|st lbl st' Hr IH Hstep].
  - split.
    + intros sid o c a d Ho. done.
    + by intros [|i].
  - eapply starts_once_step; [by apply reachable_inv|done..].
Qed.

Lemma start_signal_at_most_once_witness :
  let st := exec [Connect 0 "/v1/ooo/abc"; Connect 1 "/v1/ooo/abc";
                  SendDone 1 None; Recv 1 (inr ConnectionClosedOK);
                  Connect 2 "/v1/ooo/abc"] in
  trace st = [EvJoin 0 "abc" true; EvJoin 1 "abc" false;
              EvSend StartSignal 1 0 start_session_text;
              EvJoin 2 "abc" false] ∧
  2 = 2.
Proof.
  intros st.
  assert (trace st !! 2 = Some (EvSend StartSignal 1 0 start_session_text))
    as H by (vm_compute; reflexivity).
  split; [vm_compute; reflexivity|].
  exact (start_signal_at_most_once st 2 2 1 0 _ 1 0 _ (exec_reachable _)
           H H (or_introl eq_refl)).
Defined.

(** ** Who is sent anything *)

(** Every send of a step, start signal or relayed message, is made by the
    handler the step runs, to another connection whose handler was started
    on the same session id; when that id is not the empty string the
    target's handler is still inside its loop, on the same session dict as
    the sender. *)
Theorem sends_stay_in_session st lbl st' evs k a b d :
  reachable st → step st lbl = Some st' → trace st' = trace st ++ evs →
  EvSend k a b d ∈ evs →
  a = label_conn lbl ∧ b ≠ a ∧
  ∃ ha hb sid l,
    handlers st' !! a = Some ha ∧ handlers st !! b = Some hb ∧
    f_session_id (h_frame ha) = Some sid ∧
    f_session_id (h_frame hb) = Some sid ∧
    in_loop (h_pc ha) = Some l ∧
    (sid ≠ "" → in_loop (h_pc hb) = Some l).
Proof.
  intros Hinv%reachable_inv Hstep Htr Hel.
  pose proof (step_trans _ _ _ Hinv Hstep) as Ht.
  assert (Hpeer : ∀ sid l o, sessions (reg st) !! sid = Some l →
    heap (reg st) !! l = Some o → b ∈ peers o →
    ∃ hb, handlers st !! b = Some hb ∧ f_session_id (h_frame hb) = Some sid ∧
          (sid ≠ "" → in_loop (h_pc hb) = Some l)).
  { intros sid l o Hs Ho Hb. by eapply coh_peer; [apply Hinv|..]. }
  assert (Hrelay : ∀ ws h l o i i',
    handlers st !! ws = Some h → in_loop (h_pc h) = Some l →
    heap (reg st) !! l = Some o → next_peer ws (peers o) i = Some (b, i') →
    b ≠ ws ∧ ∃ hb sid,
      handlers st !! b = Some hb ∧ f_session_id (h_frame h) = Some sid ∧
      f_session_id (h_frame hb) = Some sid ∧
      (sid ≠ "" → in_loop (h_pc hb) = Some l)).
  { intros ws h l o i i' Hh Hin Ho [Hb Hne]%next_peer_elem.
    destruct (coh_loop _ (inv_coh _ Hinv) _ _ _ Hh Hin)
      as (sid & o' & Hsid & Hs & Ho' & _).
    assert (o' = o) as -> by congruence.
    destruct (Hpeer _ _ _ Hs Ho Hb) as (hb & Hhb & Hfb & Hlb).
    split; [done|]. by exists hb, sid. }
  inversion Ht; subst; simpl in Htr;
    first [apply app_eq_self in Htr | apply app_inv_head in Htr]; subst evs;
    repeat (apply elem_of_cons in Hel as [Hel|Hel]; [try done|]);
    try (by apply elem_of_nil in Hel);
    injection Hel as -> -> -> ->; simpl.
  - destruct (Hpeer _ _ _ H0 H1) as (hb & Hhb & Hfb & Hlb).
    { simpl. apply elem_of_cons. by left. }
    split_and!; [done|congruence|].
    eexists _, hb, sid, l. rewrite set_pc_lookup_eq. by split_and!.
  - destruct (Hrelay ws h l o 0 i H (eq_trans (f_equal in_loop H0) eq_refl)
                H1 H2) as (Hne & hb & sid & Hhb & Hfa & Hfb & Hlb).
    split_and!; [done..|].
    eexists _, hb, sid, l. rewrite set_pc_lookup_eq. by split_and!.
  - destruct (Hrelay ws h l o i i' H (eq_trans (f_equal in_loop H0) eq_refl)
                H1 H2) as (Hne & hb & sid & Hhb & Hfa & Hfb & Hlb).
    split_and!; [done..|].
    eexists _, hb, sid, l. rewrite set_pc_lookup_eq. by split_and!.
Qed.

Lemma sends_stay_in_session_witness :
  let st := exec [Connect 0 "/v1/ooo/abc"; Connect 1 "/v1/ooo/xyz";
                  Connect 2 "/v1/ooo/abc"; SendDone 2 None] in
  let st' := exec [Connect 0 "/v1/ooo/abc"; Connect 1 "/v1/ooo/xyz";
                   Connect 2 "/v1/ooo/abc"; SendDone 2 None;
                   Recv 2 (inl "answer")] in
  let evs := [EvRecv 2 "answer"; EvSend Relay 2 0 "answer"] in
  step st (Recv 2 (inl "answer")) = Some st' ∧
  trace st' = trace st ++ evs ∧
  2 = label_conn (Recv 2 (inl "answer")) ∧ 0 ≠ 2 ∧
  ∃ ha hb sid l,
    handlers st' !! 2 = Some ha ∧ handlers st !! 0 = Some hb ∧
    f_session_id (h_frame ha) = Some sid ∧
    f_session_id (h_frame hb) = Some sid ∧
    in_loop (h_pc ha) = Some l ∧
    (sid ≠ "" → in_loop (h_pc hb) = Some l).
Proof.
  intros st st' evs.
  assert (step st (Recv 2 (inl "answer")) = Some st') as Hstep
    by (vm_compute; reflexivity).
  assert (trace st' = trace st ++ evs) as Htr by (vm_compute; reflexivity).
  split_and!; [done|done|..].
  all: destruct (sends_stay_in_session st _ st' evs Relay 2 0 "answer"
         (exec_reachable _) Hstep Htr) as (Ha & Hb & Hex);
    [apply elem_of_cons; right; apply elem_of_cons; by left|done..].
Defined.

(** ** Joining and leaving again *)

Lemma remove_first_snoc x (l : list nat) :
  x ∉ l → remove_first x (l ++ [x]) = l.
Proof.
  intros Hnotin. induction l as [|y l IH]; simpl.
  - by rewrite decide_True.
  - apply not_elem_of_cons in Hnotin as [Hx Hl].
    rewrite decide_False by done. by rewrite IH.
Qed.

(** A connection on a path with a non-empty session id whose handler is
    resumed with an exception the first time it is resumed, before any
    other handler has run (lines 35-47, then lines 56-69), leaves the same
    session ids registered and every other session as it was. Its own session is gone again if the
    connection created it; if the session existed it has the same peers
    in the same order as before, and it is started, whether or not it was
    started before: the visit has set [started] (lines 42-43), and the
    [finally] block does not reset it. *)
Theorem connect_then_exit st ws sid lbl e st1 st2 :
  reachable st → sid ≠ "" →
  step st (Connect ws (url_prefix +:+ sid)) = Some st1 →
  lbl = Recv ws (inr e) ∨ lbl = SendDone ws (Some e) →
  step st1 lbl = Some st2 →
  sessions (reg st2) = sessions (reg st) ∧
  (∀ s, s ≠ sid → session_at (reg st2) s = session_at (reg st) s) ∧
  session_at (reg st2) sid
    = (λ o, Session (peers o) true) <$> session_at (reg st) sid.
Proof.
  intros Hr Hne Hstep1 Hlbl Hstep2.
  pose proof (reachable_inv _ Hr) as Hinv.
  pose proof (step_inv _ _ _ Hinv Hstep1) as Hinv1.
  pose proof (inv_wf _ Hinv) as Hwf. pose proof (inv_wf _ Hinv1) as Hwf1.
  destruct (step_exit _ _ _ ws e Hinv1 Hlbl Hstep2)
    as (h & l1 & sid1 & o1 & Hh & _ & Hsid1 & Hs1 & Ho1 & Hin1 & Hleave & _ & _).
  simpl in Hstep1.
  destruct (handlers st !! ws) eqn:Hfresh; [done|].
  destruct (sessions (reg st) !! sid) as [l|] eqn:Hs.
  - destruct (wf_alloc _ Hwf _ _ Hs) as [o Ho].
    pose proof (wf_nonempty _ Hwf _ _ _ Hs Ho) as Hnn.
    pose proof (fresh_not_peer st ws sid l o Hinv Hfresh Hs Ho) as Hnotin.
    assert (∃ p tr, st1 = State (set_session l (Session (peers o ++ [ws]) true) (reg st))
              (set_pc ws (Frame (url_prefix +:+ sid) (Some sid)) p (handlers st))
              tr) as (p & tr & ->).
    { rewrite (connect_append ws sid l o st Hs Ho Hnn) in Hstep1.
      destruct (started o) eqn:Hst, (peers o) as [|fp ps] eqn:Hps; try done;
        injection Hstep1 as <-; by eexists _, _. }
    cbn [reg handlers] in *.
    rewrite set_pc_lookup_eq in Hh. injection Hh as <-.
    cbn [h_frame f_session_id] in Hsid1. injection Hsid1 as <-.
    cbn [set_session sessions] in Hs1. rewrite Hs in Hs1. injection Hs1 as <-.
    cbn [set_session heap] in Ho1.
    rewrite list_lookup_insert_eq in Ho1 by (by eapply lookup_lt_Some).
    injection Ho1 as <-. cbn [peers] in Hin1.
    set (R1 := set_session l (Session (peers o ++ [ws]) true) (reg st)) in *.
    assert (heap R1 !! l = Some (Session (peers o ++ [ws]) true)) as Ho1.
    { apply list_lookup_insert_eq. by eapply lookup_lt_Some. }
    rewrite (leave_in_session R1 sid ws l _ Hs Ho1 Hin1 Hne) in Hleave.
    simpl in Hleave. rewrite (remove_first_snoc _ _ Hnotin) in Hleave.
    injection Hleave as Hreg.
    assert (session_at (reg st) sid = Some o) as Hat
      by (apply session_at_Some; eauto).
    split_and!.
    + rewrite <- Hreg. simpl. by rewrite decide_False.
    + intros s Hsne. rewrite <- Hreg.
      etransitivity;
        [exact (session_at_leave R1 sid l _ (peers o) true s Hwf1 Hs Ho1)|].
      rewrite decide_False by done.
      subst R1. rewrite (session_at_set_session _ sid l o _ s Hwf Hs Ho).
      by rewrite decide_False.
    + rewrite <- Hreg.
      etransitivity;
        [exact (session_at_leave R1 sid l _ (peers o) true sid Hwf1 Hs Ho1)|].
      rewrite decide_True by done. rewrite decide_False by done.
      by rewrite Hat.
  - rewrite (connect_create ws sid st Hs) in Hstep1. injection Hstep1 as <-.
    cbn [reg handlers] in *.
    rewrite set_pc_lookup_eq in Hh. injection Hh as <-.
    cbn [h_frame f_session_id] in Hsid1. injection Hsid1 as <-.
    cbn [sessions] in Hs1. rewrite lookup_insert_eq in Hs1. injection Hs1 as <-.
    cbn [heap] in Ho1.
    rewrite lookup_app_r, Nat.sub_diag in Ho1 by done. injection Ho1 as <-.
    cbn [peers] in Hin1.
    set (R1 := Registry (<[sid := length (heap (reg st))]> (sessions (reg st)))
                        (heap (reg st) ++ [Session [ws] false])) in *.
    assert (sessions R1 !! sid = Some (length (heap (reg st)))) as Hs1
      by apply lookup_insert_eq.
    assert (heap R1 !! length (heap (reg st)) = Some (Session [ws] false)) as Ho1.
    { simpl. by rewrite lookup_app_r, Nat.sub_diag. }
    rewrite (leave_in_session R1 sid ws _ _ Hs1 Ho1 Hin1 Hne) in Hleave.
    simpl in Hleave. rewrite (decide_True (P := ws = ws)) in Hleave by done.
    injection Hleave as Hreg.
    assert (session_at (reg st) sid = None) as Hat.
    { unfold session_at. by rewrite Hs. }
    split_and!.
    + rewrite <- Hreg. simpl. by rewrite delete_insert_id.
    + intros s Hsne. rewrite <- Hreg.
      etransitivity;
        [exact (session_at_leave R1 sid _ _ [] false s Hwf1 Hs1 Ho1)|].
      rewrite decide_False by done.
      subst R1. rewrite (session_at_create _ sid _ s Hwf Hs).
      by rewrite decide_False.
    + rewrite <- Hreg.
      etransitivity;
        [exact (session_at_leave R1 sid _ _ [] false sid Hwf1 Hs1 Ho1)|].
      rewrite decide_True by done. rewrite decide_True by done.
      by rewrite Hat.
Qed.

Lemma connect_then_exit_witness :
  let st := exec [Connect 0 "/v1/ooo/abc"] in
  let st1 := exec [Connect 0 "/v1/ooo/abc"; Connect 1 "/v1/ooo/abc"] in
  let st2 := exec [Connect 0 "/v1/ooo/abc"; Connect 1 "/v1/ooo/abc";
                   SendDone 1 (Some ConnectionClosedError)] in
  session_at (reg st) "abc" = Some (Session [0] false) ∧
  session_at (reg st2) "abc" = Some (Session [0] true) ∧
  sessions (reg st2) = sessions (reg st) ∧
  (∀ s, s ≠ "abc" → session_at (reg st2) s = session_at (reg st) s) ∧
  session_at (reg st2) "abc"
    = (λ o, Session (peers o) true) <$> session_at (reg st) "abc".
Proof.
  intros st st1 st2.
  split; [vm_compute; reflexivity|]. split; [vm_compute; reflexivity|].
  apply (connect_then_exit st 1 "abc"
           (SendDone 1 (Some ConnectionClosedError)) ConnectionClosedError
           st1 st2 (exec_reachable _)).
  - discriminate.
  - vm_compute. reflexivity.
  - by right.
  - vm_compute. reflexivity.
Defined.

(** ** The order of a peer list *)

Lemma joiners_app sid tr evs :
  joiners sid (tr ++ evs) = joiners sid tr ++ joiners sid evs.
Proof. apply omap_app. Qed.

Lemma elem_of_joiners c sid tr :
  c ∈ joiners sid tr → ∃ b, EvJoin c sid b ∈ tr.
Proof.
  unfold joiners. intros (e & He & Hc)%list_elem_of_omap.
  destruct e as [c' s b| |]; try done. case_decide; [|done].
  simplify_eq. eauto.
Qed.

Lemma sublist_remove_first x (l : list nat) : remove_first x l `sublist_of` l.
Proof.
  induction l as [|y l IH]; simpl; [done|].
  destruct (decide (y = x)); [by apply sublist_cons|by apply sublist_skip].
Qed.

Lemma join_ordered_extend st R hs evs :
  Inv st → join_ordered st →
  (∀ s, joiners s evs = [] ∨
        ∃ ws, handlers st !! ws = None ∧ joiners s evs = [ws]) →
  (∀ s o, session_at R s = Some o →
          peers o `sublist_of` joiners s (trace st) ++ joiners s evs) →
  join_ordered (State R hs (trace st ++ evs)).
Proof.
  intros Hinv [Hsub Hnd] Hevs Hnew. split; simpl.
  - intros s o Ho. rewrite joiners_app. by apply Hnew.
  - intros s. rewrite joiners_app.
    destruct (Hevs s) as [->|(ws & Hfresh & ->)]; [by rewrite app_nil_r|].
    apply NoDup_app. split_and!; [done| |apply NoDup_singleton].
    intros x Hx ->%list_elem_of_singleton.
    apply elem_of_joiners in Hx as [b Hb].
    eapply (fresh_not_traced st) in Hb; [|done..]. apply Hb. simpl.
    apply elem_of_cons. by left.
Qed.

Lemma join_ordered_step st lbl st' :
  Inv st → join_ordered st → step st lbl = Some st' → join_ordered st'.
Proof.
  intros Hinv Hjo Hstep. pose proof (step_trans _ _ _ Hinv Hstep) as Ht.
  pose proof (inv_wf _ Hinv) as Hwf. pose proof Hjo as [Hsub Hnd].
  assert (Hexit : ∀ ws session_id R hs,
    leave session_id ws (reg st) = Some R →
    join_ordered (State R hs (trace st))).
  { intros ws session_id R hs HR. rewrite <- (app_nil_r (trace st)).
    apply join_ordered_extend; [done..|by left|]. intros s o Ho.
    simpl. rewrite app_nil_r.
    destruct (leave_cases _ _ _ _ Hwf HR)
      as [->|(sid & l & o0 & -> & Hne & Hs & Ho0 & Hel & ->)]; [eauto|].
    rewrite (session_at_leave _ sid l o0 _ _ s Hwf Hs Ho0) in Ho.
    case_decide as Hsid; [|eauto]. subst s.
    case_decide; [done|]. injection Ho as <-. simpl.
    transitivity (peers o0); [apply sublist_remove_first|].
    apply Hsub. apply session_at_Some. eauto. }
  assert (Hsame : ∀ hs evs, (∀ s, joiners s evs = []) →
    join_ordered (State (reg st) hs (trace st ++ evs))).
  { intros hs evs Hno. apply join_ordered_extend; [done..|by left|].
    intros s o Ho. rewrite Hno, app_nil_r. by apply Hsub. }
  assert (Hjoin : ∀ ws sid b evs,
    joiners sid (EvJoin ws sid b :: evs) = ws :: joiners sid evs).
  { intros. simpl. by rewrite decide_True. }
  assert (Hjoin' : ∀ ws sid s b evs, s ≠ sid →
    joiners s (EvJoin ws sid b :: evs) = joiners s evs).
  { intros. simpl. by rewrite decide_False. }
  inversion Ht; subst; try (by eapply Hexit); try (by apply Hsame).
  - rewrite <- (app_nil_r (trace st)). by apply Hsame.
  - apply join_ordered_extend; [done..| |].
    + intros s. destruct (decide (s = sid)) as [->|Hs].
      * right. exists ws. by rewrite Hjoin.
      * left. by rewrite Hjoin'.
    + intros s o Ho. rewrite (session_at_create _ sid _ s Hwf H0) in Ho.
      case_decide as Hs.
      * subst s. injection Ho as <-. rewrite Hjoin. simpl.
        by apply sublist_inserts_l.
      * rewrite Hjoin' by done. simpl. rewrite app_nil_r. by apply Hsub.
  - apply join_ordered_extend; [done..| |].
    + intros s. destruct (decide (s = sid)) as [->|Hs].
      * right. exists ws. by rewrite Hjoin.
      * left. by rewrite Hjoin'.
    + intros s o Ho.
      rewrite (session_at_set_session _ sid l _ _ s Hwf H0 H1) in Ho.
      case_decide as Hs.
      * subst s. injection Ho as <-. rewrite Hjoin. simpl.
        apply (sublist_app [first_peer] _ [ws] [ws]); [|done].
        apply (Hsub sid (Session [first_peer] false)).
        apply session_at_Some. eauto.
      * rewrite Hjoin' by done. simpl. rewrite app_nil_r. by apply Hsub.
  - apply join_ordered_extend; [done..| |].
    + intros s. destruct (decide (s = sid)) as [->|Hs].
      * right. exists ws. by rewrite Hjoin.
      * left. by rewrite Hjoin'.
    + intros s o Ho.
      rewrite (session_at_set_session _ sid l _ _ s Hwf H0 H1) in Ho.
      case_decide as Hs.
      * subst s. injection Ho as <-. rewrite Hjoin. simpl.
        apply sublist_app; [|done].
        apply (Hsub sid (Session ps true)). apply session_at_Some. eauto.
      * rewrite Hjoin' by done. simpl. rewrite app_nil_r. by apply Hsub.
  - rewrite <- (app_nil_r (trace st)). by apply Hsame.
  - rewrite <- (app_nil_r (trace st)). by apply Hsame.
Qed.

(** The peers of a session are listed in the order in which they joined
    it: the list is a subsequence of the joins of that session id, among
    which no connection occurs twice; so [peers[0]] is the one of the
    present peers that joined first. *)
Theorem peers_in_join_order st sid o :
  reachable st → session_at (reg st) sid = Some o →
  peers o `sublist_of` joiners sid (trace st) ∧
  NoDup (joiners sid (trace st)).
Proof.
  intros Hr Ho.
  assert (join_ordered st) as [Hsub Hnd]; [|by split; [apply Hsub|apply Hnd]].
  clear Ho. induction Hr as [|st lbl st' Hr IH Hstep].
  - split; [|intros; apply NoDup_nil_2]. intros s o' Ho'. done.
  - eapply join_ordered_step; [by apply reachable_inv|done..].
Qed.

Lemma peers_in_join_order_witness :
  let st := exec [Connect 0 "/v1/ooo/abc"; Connect 1 "/v1/ooo/abc";
                  SendDone 1 None; Connect 2 "/v1/ooo/abc";
                  Recv 0 (inr ConnectionClosedOK); Connect 3 "/v1/ooo/abc"] in
  session_at (reg st) "abc" = Some (Session [1; 2; 3] true) ∧
  joiners "abc" (trace st) = [0; 1; 2; 3] ∧
  peers (Session [1; 2; 3] true) `sublist_of` joiners "abc" (trace st) ∧
  NoDup (joiners "abc" (trace st)).
Proof.
  intros st.
  assert (session_at (reg st) "abc" = Some (Session [1; 2; 3] true)) as H
    by (vm_compute; reflexivity).
  split_and!; [done|vm_compute; reflexivity|..].
  all: destruct (peers_in_join_order st "abc" _ (exec_reachable _) H)
         as [Hsub Hnd]; done.
Defined.

(** ** Who is in a peer list *)

(** For a session id that is not the empty string, the connections in the
    peer list registered under it are exactly those whose handler was
    started with that id and is inside its loop. *)
Theorem peer_list_is_the_live_handlers st sid ws :
  reachable st → sid ≠ "" →
  (∃ o, session_at (reg st) sid = Some o ∧ ws ∈ peers o) ↔
  (∃ h l, handlers st !! ws = Some h ∧
          f_session_id (h_frame h) = Some sid ∧
          in_loop (h_pc h) = Some l).
Proof.
  intros Hinv%reachable_inv Hne. split.
  - intros (o & (l & Hs & Ho)%session_at_Some & Hel).
    destruct (coh_peer _ (inv_coh _ Hinv) _ _ _ _ Hs Ho Hel)
      as (h & Hh & Hsid & Hloop).
    exists h, l. split_and!; [done..|]. by apply Hloop.
  - intros (h & l & Hh & Hsid & Hin).
    destruct (coh_loop _ (inv_coh _ Hinv) _ _ _ Hh Hin)
      as (sid' & o & Hsid' & Hs & Ho & Hel).
    assert (sid' = sid) as -> by congruence.
    exists o. split; [|done]. apply session_at_Some. eauto.
Qed.

Lemma peer_list_is_the_live_handlers_witness :
  let st := exec [Connect 0 "/v1/ooo/abc"; Connect 1 "/v1/ooo/abc";
                  SendDone 1 None; Recv 0 (inr ConnectionClosedOK)] in
  session_at (reg st) "abc" = Some (Session [1] true) ∧
  ((∃ o, session_at (reg st) "abc" = Some o ∧ 1 ∈ peers o) ↔
   (∃ h l, handlers st !! 1 = Some h ∧
           f_session_id (h_frame h) = Some "abc" ∧
           in_loop (h_pc h) = Some l)).
Proof.
  intros st. split; [vm_compute; reflexivity|].
  apply (peer_list_is_the_live_handlers st "abc" 1 (exec_reachable _)).
  discriminate.
Defined.

(** ** Rejected connections *)

Lemma joined_only_extend st R ws f p evs :
  joined_only st →
  (handlers st !! ws = None ∨ ∃ h, handlers st !! ws = Some h ∧ h_frame h = f) →
  (f_session_id f = None →
   p = Done Returned ∧ Str.startswith (f_path f) url_prefix = false) →
  (evs ≠ [] → is_Some (f_session_id f)) →
  (∀ e c, e ∈ evs → c ∈ conns_of e →
     c = ws ∨
     ∃ h, handlers st !! c = Some h ∧ is_Some (f_session_id (h_frame h))) →
  joined_only (State R (set_pc ws f p (handlers st)) (trace st ++ evs)).
Proof.
  intros [Hnone Htr] Hws Hf Hevs Hnew. split; simpl.
  - intros ws' h' Hl Hsid. case_set_pc Hl; [by apply Hf|by eapply Hnone].
  - intros e c [He|He]%elem_of_app Hc.
    + destruct (Htr _ _ He Hc) as (h & Hh & Hsome).
      destruct (decide (c = ws)) as [->|Hne].
      * destruct Hws as [?|(h' & Hh' & <-)]; [congruence|].
        assert (h' = h) as -> by congruence.
        exists (Handler (h_frame h) p). by rewrite set_pc_lookup_eq.
      * exists h. by rewrite set_pc_lookup_ne.
    + destruct (decide (c = ws)) as [->|Hne].
      * exists (Handler f p). rewrite set_pc_lookup_eq. split; [done|].
        apply Hevs. intros ->. by apply elem_of_nil in He.
      * destruct (Hnew _ _ He Hc) as [?|(h & Hh & Hsome)]; [done|].
        exists h. by rewrite set_pc_lookup_ne.
Qed.

Lemma joined_only_step st lbl st' :
  Inv st → joined_only st → step st lbl = Some st' → joined_only st'.
Proof.
  intros Hinv Hjo Hstep. pose proof (step_trans _ _ _ Hinv Hstep) as Ht.
  assert (Hsome : ∀ ws h l, handlers st !! ws = Some h →
            in_loop (h_pc h) = Some l → is_Some (f_session_id (h_frame h))).
  { intros ws h l Hh Hin.
    destruct (coh_loop _ (inv_coh _ Hinv) _ _ _ Hh Hin) as (s & ? & -> & _).
    eauto. }
  assert (Hpeer : ∀ l o c, (∃ sid, sessions (reg st) !! sid = Some l) →
            heap (reg st) !! l = Some o → c ∈ peers o →
            ∃ h, handlers st !! c = Some h ∧ is_Some (f_session_id (h_frame h))).
  { intros l o c [sid Hs] Ho Hc.
    destruct (coh_peer _ (inv_coh _ Hinv) _ _ _ _ Hs Ho Hc)
      as (h & Hh & Hsid & _).
    exists h. rewrite Hsid. eauto. }
  assert (Hreg : ∀ ws h l, handlers st !! ws = Some h →
            in_loop (h_pc h) = Some l →
            ∃ sid, sessions (reg st) !! sid = Some l).
  { intros ws h l Hh Hin.
    destruct (coh_loop _ (inv_coh _ Hinv) _ _ _ Hh Hin) as (s & ? & _ & ? & _).
    eauto. }
  assert (Hin : ∀ h p l, h_pc h = p → in_loop p = Some l →
            in_loop (h_pc h) = Some l) by (by intros h p l ->).
  inversion Ht; subst;
    first [apply joined_only_extend
          |rewrite <- (app_nil_r (trace st)); apply joined_only_extend];
    try done; try (by left); try (by right; eauto);
    try (by intros _; eapply Hsome; eauto);
    try (by intros Hnone; exfalso;
            match goal with
            | Hh : handlers st !! _ = Some ?h |- _ =>
                destruct (Hsome _ h _ Hh ltac:(eauto)) as [? ?]; congruence
            end);
    try (by intros _; simpl; eauto);
    try (by intros ? ? Hel; apply elem_of_nil in Hel).
  all: intros e c Hel Hc;
    repeat (apply elem_of_cons in Hel as [Hel|Hel];
            [subst e; simpl in Hc;
             repeat (apply elem_of_cons in Hc as [Hc|Hc]; [subst c|]);
             try (by apply elem_of_nil in Hc); try (by left)|]);
    try (by apply elem_of_nil in Hel).
  - right. eapply Hpeer; [eauto|done|]. simpl. apply elem_of_cons. by left.
  - right. apply next_peer_elem in H2 as [Hp _].
    eapply Hpeer; [|done..]. eapply Hreg; eauto.
  - right. apply next_peer_elem in H2 as [Hp _].
    eapply Hpeer; [|done..]. eapply Hreg; eauto.
Qed.

(** A connection whose path was rejected stays out of everything: its
    handler is finished, no join, send or receive ever mentions it, as
    sender or as target, and it is in no peer list. *)
Theorem rejected_connection_stays_out st ws h :
  reachable st → handlers st !! ws = Some h →
  f_session_id (h_frame h) = None →
  h_pc h = Done Returned ∧
  Str.startswith (f_path (h_frame h)) url_prefix = false ∧
  (∀ e, e ∈ trace st → ws ∉ conns_of e) ∧
  (∀ sid o, session_at (reg st) sid = Some o → ws ∉ peers o).
Proof.
  intros Hr Hh Hnone. pose proof (reachable_inv _ Hr) as Hinv.
  assert (joined_only st) as [H1 H2].
  { clear Hh Hnone Hinv. induction Hr as [|st lbl st' Hr IH Hstep].
    - split.
      + intros ws' h' Hh'. simpl in Hh'. by rewrite lookup_empty in Hh'.
      + intros e c He. by apply elem_of_nil in He.
    - eapply joined_only_step; [by apply reachable_inv|done..]. }
  destruct (H1 _ _ Hh Hnone) as [Hpc Hpre]. split_and!; [done..| |].
  - intros e He Hc. destruct (H2 _ _ He Hc) as (h' & Hh' & [s Hs]). congruence.
  - intros sid o (l & Hs & Ho)%session_at_Some Hc.
    destruct (coh_peer _ (inv_coh _ Hinv) _ _ _ _ Hs Ho Hc) as (h' & Hh' & Hs' & _).
    congruence.
Qed.

Lemma rejected_connection_stays_out_witness :
  let st := exec [Connect 0 "/v1/ooo/abc"; Connect 5 "/other/path";
                  Connect 1 "/v1/ooo/abc"; SendDone 1 None;
                  Recv 0 (inl "offer")] in
  let h := Handler (Frame "/other/path" None) (Done Returned) in
  handlers st !! 5 = Some h ∧
  h_pc h = Done Returned ∧
  Str.startswith (f_path (h_frame h)) url_prefix = false ∧
  (∀ e, e ∈ trace st → 5 ∉ conns_of e) ∧
  (∀ sid o, session_at (reg st) sid = Some o → 5 ∉ peers o).
Proof.
  intros st h.
  assert (handlers st !! 5 = Some h) as Hh by (vm_compute; reflexivity).
  split; [done|].
  exact (rejected_connection_stays_out st 5 h (exec_reachable _) Hh eq_refl).
Defined.

(** ** The start check *)

(** When the check at the top of the loop fires, on any registry, the
    session has at least two peers and its first one is the target; the
    check changes nothing but the [started] flag of that session; and run
    again on the result it does not fire: the handler goes on to [recv]. *)
Theorem start_check_fires_once R sid l first_peer R' :
  loop_top (Some sid) R = Some (TopStart l first_peer R') →
  ∃ o, sessions R !! sid = Some l ∧ heap R !! l = Some o ∧
    started o = false ∧ 2 ≤ length (peers o) ∧
    peers o !! 0 = Some first_peer ∧
    sessions R' = sessions R ∧
    heap R' = <[l := Session (peers o) true]> (heap R) ∧
    loop_top (Some sid) R' = Some (TopRecv l).
Proof.
  unfold loop_top. simpl.
  destruct (sessions R !! sid) as [l0|] eqn:Hs; [|done]. simpl.
  destruct (heap R !! l0) as [o|] eqn:Ho; [|done]. simpl.
  destruct (peers o) as [|a [|b ps]] eqn:Hps; simpl; try done.
  destruct (started o) eqn:Hst; simpl; [done|].
  intros [= <- <- <-]. exists o. rewrite Hps.
  split_and!; try done; [simpl; lia|]. simpl. rewrite Hs. simpl.
  rewrite list_lookup_insert_eq by (by eapply lookup_lt_Some). done.
Qed.

Lemma start_check_fires_once_witness :
  let R := Registry {["abc" := 0]} [Session [4; 9] false] in
  let R' := Registry {["abc" := 0]} [Session [4; 9] true] in
  loop_top (Some "abc") R = Some (TopStart 0 4 R') ∧
  ∃ o, sessions R !! "abc" = Some 0 ∧ heap R !! 0 = Some o ∧
    started o = false ∧ 2 ≤ length (peers o) ∧
    peers o !! 0 = Some 4 ∧
    sessions R' = sessions R ∧
    heap R' = <[0 := Session (peers o) true]> (heap R) ∧
    loop_top (Some "abc") R' = Some (TopRecv 0).
Proof.
  intros R R'.
  assert (loop_top (Some "abc") R = Some (TopStart 0 4 R')) as H
    by (vm_compute; reflexivity).
  split; [done|]. exact (start_check_fires_once R "abc" 0 4 R' H).
Defined.
